(** * The data core of the public-investment dashboard, verified

    The repository holds two Streamlit entry points, [app.py] (with inflation
    adjustment) and [inversiones.py] (without).  This development embeds the
    logic they contain and proves its properties:

    - [Normalizer]: [normalize_text], over an abstract Unicode character
      database together with an excerpt of the real one;
    - [Inflation]: [get_inflation_factors];
    - [Acquirer]: [get_base_data], once per entry point;
    - [Pipeline]: the filter cascade, the inflation substitution and the
      two-period comparison of [app.py];
    - [Aggregates]: the options of the sidebar, the metrics, the sums per
      year and the top-10 charts, the default periods and [format_number];
    - the filter cascade and the comparison of [inversiones.py], whose base
      table keeps the cells that are not numbers.

    Modelling conventions.  A [dict] is a [gmap]; an exception is a value
    of [exn] carried by [outcome]; calls into the Streamlit user interface
    are logged by the writer monad [M].  Python strings handled by the
    normalizer are lists of code points.

    Numbers are modelled twice.  The modules [App] and [Inversiones] hold
    amounts and rates as exact rationals [Q]: the properties proved on them
    are about which rows are kept, which years are present, in which order,
    and how a function ends, none of which depends on rounding.  The module
    [Machine] computes as the script does, with binary64 floats
    ([Binary64], on the Standard Library's specification of IEEE 754
    arithmetic) and with the int64 and float64 columns of pandas: the
    properties of the values that the script computes - the index and the
    factors of [get_inflation_factors], the totals and the delta of the
    comparison - are proved there. *)

From Stdlib Require Import ZArith NArith QArith Qabs.
From Stdlib Require SpecFloat.
From stdpp Require Import base option list gmap sorting strings.

#[local] Open Scope Z_scope.

(** ** Part I: the embedding *)

(** *** Python runtime: objects, exceptions, the user-interface log *)

Module Py.

Abbreviation codepoint := N (only parsing).

Inductive pyobj :=
| PyNone
| PyInt (z : Z)
| PyFloat (x : Q)
| PyNaN
| PyStr (s : list codepoint).

#[global] Instance Qeq_dec : RelDecision Qeq := Qeq_dec.
#[global] Instance Qlt_dec : RelDecision Qlt := λ x y,
  match Qlt_le_dec x y with
  | left H => left H
  | right H => right (Qle_not_lt _ _ H)
  end.
#[global] Instance Qle_dec : RelDecision Qle := λ x y,
  match Qlt_le_dec y x with
  | left H => right (Qlt_not_le _ _ H)
  | right H => left H
  end.

(** A numpy [float64]: a finite value, an infinity or NaN. *)
Inductive npfloat :=
| Fin (x : Q)
| PosInf
| NegInf
| NaN.

Inductive key := IntKey (k : Z) | StrKey (k : string).

(** The exception classes that the modelled code can meet.  The first four
    are the ones of [requests.exceptions], all subclasses of
    [RequestException]. *)
Inductive exn :=
| ConnectionError
| Timeout
| HTTPError (status : Z)
| JSONDecodeError
| KeyError (k : key)
| ValueError
| TypeError
| ZeroDivisionError.

Definition is_HTTPError (e : exn) : bool :=
  match e with HTTPError _ => true | _ => false end.

Definition is_RequestException (e : exn) : bool :=
  match e with
  | ConnectionError | Timeout | HTTPError _ | JSONDecodeError => true
  | _ => false
  end.

(** [except Exception] catches every class above. *)
Definition is_Exception (e : exn) : bool := true.

Inductive outcome (A : Type) :=
| Raised (e : exn)
| Returned (a : A).
Arguments Raised {A} e.
Arguments Returned {A} a.

#[global] Instance outcome_ret : MRet outcome := @Returned.
#[global] Instance outcome_bind : MBind outcome := λ A B f m,
  match m with Raised e => Raised e | Returned a => f a end.

(** Texts shown to the user, each with the values interpolated into it. *)
Inductive message :=
| BaseYearNotFound (base_year : Z)
| LoadFailed (e : exn)
| ApiContactFailed (e : exn)
| ConnectionFailed (e : exn).

Inductive st_call :=
| st_warning (m : message)
| st_error (m : message).

(** A run of effectful code: the Streamlit calls it made, in order, and how
    it ended. *)
Record M (A : Type) := Run { calls : list st_call; result : outcome A }.
Arguments Run {A} calls result.
Arguments calls {A} m.
Arguments result {A} m.

#[global] Instance M_ret : MRet M := λ A a, Run [] (Returned a).
#[global] Instance M_bind : MBind M := λ A B f m,
  match result m with
  | Raised e => Run (calls m) (Raised e)
  | Returned a => Run (calls m ++ calls (f a)) (result (f a))
  end.

Definition lift {A} (o : outcome A) : M A := Run [] o.
Definition emit (c : st_call) : M unit := Run [c] (Returned tt).

(** [try: body except C1 as e: h1 except C2 as e: h2 ...]: the first clause
    whose class matches handles the exception; with none, it propagates. *)
Definition try_except {A} (body : M A) (clauses : list ((exn → bool) * (exn → M A))) : M A :=
  match result body with
  | Raised e =>
      match find (λ clause, clause.1 e) clauses with
      | Some clause => Run (calls body ++ calls (clause.2 e)) (result (clause.2 e))
      | None => body
      end
  | Returned _ => body
  end.

End Py.
Import Py.

(** *** Unicode: the character database and the string operations built on it *)

Module Unicode.

(** What [unicodedata] and [str] know about a code point: its full canonical
    decomposition, its canonical combining class, whether its general
    category is [Mn], its full lowercase mapping, and the three properties
    read by [str.strip] and by the final-sigma rule of [str.lower]. *)
Class UCD := {
  decomposition : codepoint → list codepoint;
  combining : codepoint → N;
  category_is_Mn : codepoint → bool;
  tolower_full : codepoint → list codepoint;
  is_space : codepoint → bool;
  is_cased : codepoint → bool;
  is_case_ignorable : codepoint → bool
}.

Definition capital_sigma : codepoint := 0x03A3%N.
Definition small_sigma : codepoint := 0x03C3%N.
Definition small_final_sigma : codepoint := 0x03C2%N.

Fixpoint dropwhile {A} (p : A → bool) (l : list A) : list A :=
  match l with
  | x :: l' => if p x then dropwhile p l' else l
  | [] => []
  end.

Section operations.
Context {U : UCD}.

(** Canonical ordering, as the insertion sort of [unicodedata.normalize]: a
    mark of non-zero class moves left past the marks of strictly greater
    class.  [acc] is the output so far, last character first. *)
Fixpoint bubble (c : codepoint) (acc : list codepoint) : list codepoint :=
  match acc with
  | d :: acc' =>
      if (combining c <? combining d)%N then d :: bubble c acc' else c :: acc
  | [] => [c]
  end.

Definition canonical_order_step (acc : list codepoint) (c : codepoint) : list codepoint :=
  if (combining c =? 0)%N then c :: acc else bubble c acc.

Definition canonical_order (s : list codepoint) : list codepoint :=
  reverse (foldl canonical_order_step [] s).

(** [unicodedata.normalize('NFD', s)] *)
Definition nfd (s : list codepoint) : list codepoint :=
  canonical_order (s ≫= decomposition).

(** U+03A3 is in final position when a cased letter precedes it and none
    follows it, case-ignorable characters being skipped on both sides. *)
Definition final_sigma (before_rev after : list codepoint) : bool :=
  match dropwhile is_case_ignorable before_rev with
  | c :: _ =>
      is_cased c &&
      match dropwhile is_case_ignorable after with
      | d :: _ => negb (is_cased d)
      | [] => true
      end
  | [] => false
  end.

Definition lower_char (before_rev : list codepoint) (c : codepoint) (after : list codepoint)
  : list codepoint :=
  if decide (c = capital_sigma)
  then [if final_sigma before_rev after then small_final_sigma else small_sigma]
  else tolower_full c.

Fixpoint lower_from (before_rev s : list codepoint) : list codepoint :=
  match s with
  | c :: rest => lower_char before_rev c rest ++ lower_from (c :: before_rev) rest
  | [] => []
  end.

(** [s.lower()] *)
Definition lower (s : list codepoint) : list codepoint := lower_from [] s.

(** [s.strip()] *)
Definition strip (s : list codepoint) : list codepoint :=
  reverse (dropwhile is_space (reverse (dropwhile is_space s))).

(** Vocabulary of the properties below.  A list does not start with a
    character satisfying [p]; a string is trimmed when it neither starts nor
    ends with white space. *)
Definition no_lead {A} (p : A → bool) (l : list A) : Prop :=
  match l with
  | x :: _ => p x = false
  | [] => True
  end.

Definition trimmed (s : list codepoint) : Prop :=
  no_lead is_space s ∧ no_lead is_space (reverse s).

(** A character that [str.lower] maps to itself wherever it stands. *)
Definition lower_fixed (c : codepoint) : Prop :=
  tolower_full c = [c] ∧ c ≠ capital_sigma.

(** A character that decomposition, the removal of marks and lowering all
    leave alone. *)
Definition settled (c : codepoint) : Prop :=
  decomposition c = [c] ∧ category_is_Mn c = false ∧ lower_fixed c.

(** A combining character of non-zero class whose category is not [Mn]:
    the removal of marks keeps it, canonical ordering moves it. *)
Definition unruly (c : codepoint) : Prop :=
  category_is_Mn c = false ∧ combining c ≠ 0%N.

End operations.

(** Three facts about the real database, on which the properties of the
    normalizer rest: decompositions are full; the lowercase of a decomposed
    character that is not a mark is settled and of the same class; the two
    small sigmas are settled starters. *)
Record UCD_wf (U : UCD) : Prop := {
  decomposition_full :
    ∀ c d, d ∈ decomposition c → decomposition d = [d];
  lowercase_settled :
    ∀ c e, decomposition c = [c] → category_is_Mn c = false → c ≠ capital_sigma →
           e ∈ tolower_full c → settled e ∧ combining e = combining c;
  small_sigma_settled :
    settled small_sigma ∧ combining small_sigma = 0%N;
  small_final_sigma_settled :
    settled small_final_sigma ∧ combining small_final_sigma = 0%N
}.

(** An excerpt of the Unicode Character Database, version 14.0: Basic Latin,
    Latin-1 Supplement, Latin Extended-A, Combining Diacritical Marks, the
    Greek letters alpha and sigma, every white-space character, the Hangul
    tone marks U+302E and U+302F and the musical marks U+1D165 and U+1D166.
    A code point absent from a table has the default value of the property:
    no decomposition, class 0, not [Mn], its own lowercase, not white space,
    uncased, not case-ignorable. *)

Definition decomposition_table : list (codepoint * list codepoint) :=
  [(0x00C0, [0x0041; 0x0300]); (0x00C1, [0x0041; 0x0301]); (0x00C2, [0x0041; 0x0302]);
   (0x00C3, [0x0041; 0x0303]); (0x00C4, [0x0041; 0x0308]); (0x00C5, [0x0041; 0x030A]);
   (0x00C7, [0x0043; 0x0327]); (0x00C8, [0x0045; 0x0300]); (0x00C9, [0x0045; 0x0301]);
   (0x00CA, [0x0045; 0x0302]); (0x00CB, [0x0045; 0x0308]); (0x00CC, [0x0049; 0x0300]);
   (0x00CD, [0x0049; 0x0301]); (0x00CE, [0x0049; 0x0302]); (0x00CF, [0x0049; 0x0308]);
   (0x00D1, [0x004E; 0x0303]); (0x00D2, [0x004F; 0x0300]); (0x00D3, [0x004F; 0x0301]);
   (0x00D4, [0x004F; 0x0302]); (0x00D5, [0x004F; 0x0303]); (0x00D6, [0x004F; 0x0308]);
   (0x00D9, [0x0055; 0x0300]); (0x00DA, [0x0055; 0x0301]); (0x00DB, [0x0055; 0x0302]);
   (0x00DC, [0x0055; 0x0308]); (0x00DD, [0x0059; 0x0301]); (0x00E0, [0x0061; 0x0300]);
   (0x00E1, [0x0061; 0x0301]); (0x00E2, [0x0061; 0x0302]); (0x00E3, [0x0061; 0x0303]);
   (0x00E4, [0x0061; 0x0308]); (0x00E5, [0x0061; 0x030A]); (0x00E7, [0x0063; 0x0327]);
   (0x00E8, [0x0065; 0x0300]); (0x00E9, [0x0065; 0x0301]); (0x00EA, [0x0065; 0x0302]);
   (0x00EB, [0x0065; 0x0308]); (0x00EC, [0x0069; 0x0300]); (0x00ED, [0x0069; 0x0301]);
   (0x00EE, [0x0069; 0x0302]); (0x00EF, [0x0069; 0x0308]); (0x00F1, [0x006E; 0x0303]);
   (0x00F2, [0x006F; 0x0300]); (0x00F3, [0x006F; 0x0301]); (0x00F4, [0x006F; 0x0302]);
   (0x00F5, [0x006F; 0x0303]); (0x00F6, [0x006F; 0x0308]); (0x00F9, [0x0075; 0x0300]);
   (0x00FA, [0x0075; 0x0301]); (0x00FB, [0x0075; 0x0302]); (0x00FC, [0x0075; 0x0308]);
   (0x00FD, [0x0079; 0x0301]); (0x00FF, [0x0079; 0x0308]); (0x0100, [0x0041; 0x0304]);
   (0x0101, [0x0061; 0x0304]); (0x0102, [0x0041; 0x0306]); (0x0103, [0x0061; 0x0306]);
   (0x0104, [0x0041; 0x0328]); (0x0105, [0x0061; 0x0328]); (0x0106, [0x0043; 0x0301]);
   (0x0107, [0x0063; 0x0301]); (0x0108, [0x0043; 0x0302]); (0x0109, [0x0063; 0x0302]);
   (0x010A, [0x0043; 0x0307]); (0x010B, [0x0063; 0x0307]); (0x010C, [0x0043; 0x030C]);
   (0x010D, [0x0063; 0x030C]); (0x010E, [0x0044; 0x030C]); (0x010F, [0x0064; 0x030C]);
   (0x0112, [0x0045; 0x0304]); (0x0113, [0x0065; 0x0304]); (0x0114, [0x0045; 0x0306]);
   (0x0115, [0x0065; 0x0306]); (0x0116, [0x0045; 0x0307]); (0x0117, [0x0065; 0x0307]);
   (0x0118, [0x0045; 0x0328]); (0x0119, [0x0065; 0x0328]); (0x011A, [0x0045; 0x030C]);
   (0x011B, [0x0065; 0x030C]); (0x011C, [0x0047; 0x0302]); (0x011D, [0x0067; 0x0302]);
   (0x011E, [0x0047; 0x0306]); (0x011F, [0x0067; 0x0306]); (0x0120, [0x0047; 0x0307]);
   (0x0121, [0x0067; 0x0307]); (0x0122, [0x0047; 0x0327]); (0x0123, [0x0067; 0x0327]);
   (0x0124, [0x0048; 0x0302]); (0x0125, [0x0068; 0x0302]); (0x0128, [0x0049; 0x0303]);
   (0x0129, [0x0069; 0x0303]); (0x012A, [0x0049; 0x0304]); (0x012B, [0x0069; 0x0304]);
   (0x012C, [0x0049; 0x0306]); (0x012D, [0x0069; 0x0306]); (0x012E, [0x0049; 0x0328]);
   (0x012F, [0x0069; 0x0328]); (0x0130, [0x0049; 0x0307]); (0x0134, [0x004A; 0x0302]);
   (0x0135, [0x006A; 0x0302]); (0x0136, [0x004B; 0x0327]); (0x0137, [0x006B; 0x0327]);
   (0x0139, [0x004C; 0x0301]); (0x013A, [0x006C; 0x0301]); (0x013B, [0x004C; 0x0327]);
   (0x013C, [0x006C; 0x0327]); (0x013D, [0x004C; 0x030C]); (0x013E, [0x006C; 0x030C]);
   (0x0143, [0x004E; 0x0301]); (0x0144, [0x006E; 0x0301]); (0x0145, [0x004E; 0x0327]);
   (0x0146, [0x006E; 0x0327]); (0x0147, [0x004E; 0x030C]); (0x0148, [0x006E; 0x030C]);
   (0x014C, [0x004F; 0x0304]); (0x014D, [0x006F; 0x0304]); (0x014E, [0x004F; 0x0306]);
   (0x014F, [0x006F; 0x0306]); (0x0150, [0x004F; 0x030B]); (0x0151, [0x006F; 0x030B]);
   (0x0154, [0x0052; 0x0301]); (0x0155, [0x0072; 0x0301]); (0x0156, [0x0052; 0x0327]);
   (0x0157, [0x0072; 0x0327]); (0x0158, [0x0052; 0x030C]); (0x0159, [0x0072; 0x030C]);
   (0x015A, [0x0053; 0x0301]); (0x015B, [0x0073; 0x0301]); (0x015C, [0x0053; 0x0302]);
   (0x015D, [0x0073; 0x0302]); (0x015E, [0x0053; 0x0327]); (0x015F, [0x0073; 0x0327]);
   (0x0160, [0x0053; 0x030C]); (0x0161, [0x0073; 0x030C]); (0x0162, [0x0054; 0x0327]);
   (0x0163, [0x0074; 0x0327]); (0x0164, [0x0054; 0x030C]); (0x0165, [0x0074; 0x030C]);
   (0x0168, [0x0055; 0x0303]); (0x0169, [0x0075; 0x0303]); (0x016A, [0x0055; 0x0304]);
   (0x016B, [0x0075; 0x0304]); (0x016C, [0x0055; 0x0306]); (0x016D, [0x0075; 0x0306]);
   (0x016E, [0x0055; 0x030A]); (0x016F, [0x0075; 0x030A]); (0x0170, [0x0055; 0x030B]);
   (0x0171, [0x0075; 0x030B]); (0x0172, [0x0055; 0x0328]); (0x0173, [0x0075; 0x0328]);
   (0x0174, [0x0057; 0x0302]); (0x0175, [0x0077; 0x0302]); (0x0176, [0x0059; 0x0302]);
   (0x0177, [0x0079; 0x0302]); (0x0178, [0x0059; 0x0308]); (0x0179, [0x005A; 0x0301]);
   (0x017A, [0x007A; 0x0301]); (0x017B, [0x005A; 0x0307]); (0x017C, [0x007A; 0x0307]);
   (0x017D, [0x005A; 0x030C]); (0x017E, [0x007A; 0x030C]); (0x0340, [0x0300]); (0x0341,
   [0x0301]); (0x0343, [0x0313]); (0x0344, [0x0308; 0x0301]); (0x2000, [0x2002]); (0x2001,
   [0x2003])]%N.

Definition lowercase_table : list (codepoint * list codepoint) :=
  [(0x0041, [0x0061]); (0x0042, [0x0062]); (0x0043, [0x0063]); (0x0044, [0x0064]); (0x0045,
   [0x0065]); (0x0046, [0x0066]); (0x0047, [0x0067]); (0x0048, [0x0068]); (0x0049,
   [0x0069]); (0x004A, [0x006A]); (0x004B, [0x006B]); (0x004C, [0x006C]); (0x004D,
   [0x006D]); (0x004E, [0x006E]); (0x004F, [0x006F]); (0x0050, [0x0070]); (0x0051,
   [0x0071]); (0x0052, [0x0072]); (0x0053, [0x0073]); (0x0054, [0x0074]); (0x0055,
   [0x0075]); (0x0056, [0x0076]); (0x0057, [0x0077]); (0x0058, [0x0078]); (0x0059,
   [0x0079]); (0x005A, [0x007A]); (0x00C0, [0x00E0]); (0x00C1, [0x00E1]); (0x00C2,
   [0x00E2]); (0x00C3, [0x00E3]); (0x00C4, [0x00E4]); (0x00C5, [0x00E5]); (0x00C6,
   [0x00E6]); (0x00C7, [0x00E7]); (0x00C8, [0x00E8]); (0x00C9, [0x00E9]); (0x00CA,
   [0x00EA]); (0x00CB, [0x00EB]); (0x00CC, [0x00EC]); (0x00CD, [0x00ED]); (0x00CE,
   [0x00EE]); (0x00CF, [0x00EF]); (0x00D0, [0x00F0]); (0x00D1, [0x00F1]); (0x00D2,
   [0x00F2]); (0x00D3, [0x00F3]); (0x00D4, [0x00F4]); (0x00D5, [0x00F5]); (0x00D6,
   [0x00F6]); (0x00D8, [0x00F8]); (0x00D9, [0x00F9]); (0x00DA, [0x00FA]); (0x00DB,
   [0x00FB]); (0x00DC, [0x00FC]); (0x00DD, [0x00FD]); (0x00DE, [0x00FE]); (0x0100,
   [0x0101]); (0x0102, [0x0103]); (0x0104, [0x0105]); (0x0106, [0x0107]); (0x0108,
   [0x0109]); (0x010A, [0x010B]); (0x010C, [0x010D]); (0x010E, [0x010F]); (0x0110,
   [0x0111]); (0x0112, [0x0113]); (0x0114, [0x0115]); (0x0116, [0x0117]); (0x0118,
   [0x0119]); (0x011A, [0x011B]); (0x011C, [0x011D]); (0x011E, [0x011F]); (0x0120,
   [0x0121]); (0x0122, [0x0123]); (0x0124, [0x0125]); (0x0126, [0x0127]); (0x0128,
   [0x0129]); (0x012A, [0x012B]); (0x012C, [0x012D]); (0x012E, [0x012F]); (0x0130, [0x0069;
   0x0307]); (0x0132, [0x0133]); (0x0134, [0x0135]); (0x0136, [0x0137]); (0x0139, [0x013A]);
   (0x013B, [0x013C]); (0x013D, [0x013E]); (0x013F, [0x0140]); (0x0141, [0x0142]); (0x0143,
   [0x0144]); (0x0145, [0x0146]); (0x0147, [0x0148]); (0x014A, [0x014B]); (0x014C,
   [0x014D]); (0x014E, [0x014F]); (0x0150, [0x0151]); (0x0152, [0x0153]); (0x0154,
   [0x0155]); (0x0156, [0x0157]); (0x0158, [0x0159]); (0x015A, [0x015B]); (0x015C,
   [0x015D]); (0x015E, [0x015F]); (0x0160, [0x0161]); (0x0162, [0x0163]); (0x0164,
   [0x0165]); (0x0166, [0x0167]); (0x0168, [0x0169]); (0x016A, [0x016B]); (0x016C,
   [0x016D]); (0x016E, [0x016F]); (0x0170, [0x0171]); (0x0172, [0x0173]); (0x0174,
   [0x0175]); (0x0176, [0x0177]); (0x0178, [0x00FF]); (0x0179, [0x017A]); (0x017B,
   [0x017C]); (0x017D, [0x017E]); (0x0391, [0x03B1]); (0x03A3, [0x03C3])]%N.

Definition combining_class_table : list (codepoint * codepoint * N) :=
  [(0x0300, 0x0314, 230); (0x0315, 0x0315, 232); (0x0316, 0x0319, 220); (0x031A, 0x031A,
   232); (0x031B, 0x031B, 216); (0x031C, 0x0320, 220); (0x0321, 0x0322, 202); (0x0323,
   0x0326, 220); (0x0327, 0x0328, 202); (0x0329, 0x0333, 220); (0x0334, 0x0338, 1); (0x0339,
   0x033C, 220); (0x033D, 0x0344, 230); (0x0345, 0x0345, 240); (0x0346, 0x0346, 230);
   (0x0347, 0x0349, 220); (0x034A, 0x034C, 230); (0x034D, 0x034E, 220); (0x0350, 0x0352,
   230); (0x0353, 0x0356, 220); (0x0357, 0x0357, 230); (0x0358, 0x0358, 232); (0x0359,
   0x035A, 220); (0x035B, 0x035B, 230); (0x035C, 0x035C, 233); (0x035D, 0x035E, 234);
   (0x035F, 0x035F, 233); (0x0360, 0x0361, 234); (0x0362, 0x0362, 233); (0x0363, 0x036F,
   230); (0x302E, 0x302F, 224); (0x1D165, 0x1D166, 216)]%N.

Definition nonspacing_mark_ranges : list (codepoint * codepoint) :=
  [(0x0300, 0x036F)]%N.

Definition whitespace_ranges : list (codepoint * codepoint) :=
  [(0x0009, 0x000D); (0x001C, 0x0020); (0x0085, 0x0085); (0x00A0, 0x00A0); (0x1680, 0x1680);
   (0x2000, 0x200A); (0x2028, 0x2029); (0x202F, 0x202F); (0x205F, 0x205F); (0x3000, 0x3000)]%N.

Definition cased_ranges : list (codepoint * codepoint) :=
  [(0x0041, 0x005A); (0x0061, 0x007A); (0x00AA, 0x00AA); (0x00B5, 0x00B5); (0x00BA, 0x00BA);
   (0x00C0, 0x00D6); (0x00D8, 0x00F6); (0x00F8, 0x017F); (0x0345, 0x0345); (0x0391, 0x0391);
   (0x03A3, 0x03A3); (0x03B1, 0x03B1); (0x03C2, 0x03C3)]%N.

Definition case_ignorable_ranges : list (codepoint * codepoint) :=
  [(0x0027, 0x0027); (0x002E, 0x002E); (0x003A, 0x003A); (0x005E, 0x005E); (0x0060, 0x0060);
   (0x00A8, 0x00A8); (0x00AD, 0x00AD); (0x00AF, 0x00AF); (0x00B4, 0x00B4); (0x00B7, 0x00B8);
   (0x0300, 0x036F)]%N.

Definition lookup_table {A} (c : codepoint) (t : list (codepoint * A)) : option A :=
  snd <$> find (λ e, (fst e =? c)%N) t.

Definition in_ranges (c : codepoint) (rs : list (codepoint * codepoint)) : bool :=
  existsb (λ r, (fst r <=? c)%N && (c <=? snd r)%N) rs.

Definition combining_class_of (c : codepoint) : N :=
  match find (λ e, (fst (fst e) <=? c)%N && (c <=? snd (fst e))%N) combining_class_table with
  | Some e => snd e
  | None => 0%N
  end.

Definition ucd14 : UCD := {|
  decomposition c := default [c] (lookup_table c decomposition_table);
  combining := combining_class_of;
  category_is_Mn c := in_ranges c nonspacing_mark_ranges;
  tolower_full c := default [c] (lookup_table c lowercase_table);
  is_space c := in_ranges c whitespace_ranges;
  is_cased c := in_ranges c cased_ranges;
  is_case_ignorable c := in_ranges c case_ignorable_ranges
|}.

(** Sample strings, as code points. *)

(** "Bogotá D.C." *)
Definition Bogota_DC : list codepoint :=
  [0x42; 0x6F; 0x67; 0x6F; 0x74; 0xE1; 0x20; 0x44; 0x2E; 0x43; 0x2E]%N.

(** "bogota d.c." *)
Definition bogota_dc : list codepoint :=
  [0x62; 0x6F; 0x67; 0x6F; 0x74; 0x61; 0x20; 0x64; 0x2E; 0x63; 0x2E]%N.

(** " Nariño " *)
Definition Narino_spaced : list codepoint :=
  [0x20; 0x4E; 0x61; 0x72; 0x69; 0xF1; 0x6F; 0x20]%N.

(** "narino" *)
Definition narino : list codepoint := [0x6E; 0x61; 0x72; 0x69; 0x6E; 0x6F]%N.

(** U+302E HANGUL SINGLE DOT TONE MARK (category Mc, class 224), U+034F
    COMBINING GRAPHEME JOINER (category Mn, class 0), U+1D165 MUSICAL SYMBOL
    COMBINING STEM (category Mc, class 216). *)
Definition tone_joiner_stem : list codepoint := [0x302E; 0x034F; 0x1D165]%N.

End Unicode.

(** *** The remote source, [requests] and [pandas] *)

Module Pandas.

(** What the remote source can answer to the one request: nothing (the
    transport fails), or a status code and a body.  A body is not JSON, or
    the JSON array of objects with string fields that the source serves
    (a field that is null upstream is left out of its object), or a single
    JSON object with string fields. *)
Inductive json :=
| Records (l : list (gmap string string))
| ScalarObject (o : gmap string string).

Inductive transport := TimedOut | ConnectionLost.

Inductive reply :=
| NoReply (t : transport)
| Reply (status_code : Z) (content : option json).

(** A pandas frame: its column labels and its rows.  A row holds the cells
    that are filled; the others are [Missing]. *)
Inductive cell :=
| Missing
| Num (x : npfloat)
| IntCell (z : Z)
| Str (s : string).

Record DataFrame := { columns : gset string; rows : list (gmap string cell) }.

(** [pd.DataFrame()] *)
Definition empty_frame : DataFrame := {| columns := ∅; rows := [] |}.

(** [df.empty] *)
Definition empty (df : DataFrame) : bool :=
  bool_decide (columns df = ∅) || bool_decide (rows df = []).

Definition cell_at (r : gmap string cell) (col : string) : cell :=
  default Missing (r !! col).

(** [requests.get(url)] *)
Definition requests_get (w : reply) : outcome (Z * option json) :=
  match w with
  | NoReply TimedOut => Raised Timeout
  | NoReply ConnectionLost => Raised ConnectionError
  | Reply status_code content => Returned (status_code, content)
  end.

(** [response.raise_for_status()] *)
Definition raise_for_status (response : Z * option json) : outcome unit :=
  if bool_decide (400 ≤ response.1 < 600) then Raised (HTTPError response.1)
  else Returned tt.

(** [response.json()] *)
Definition response_json (response : Z * option json) : outcome json :=
  match response.2 with
  | Some j => Returned j
  | None => Raised JSONDecodeError
  end.

(** [pd.DataFrame(data)]: a list of records gives one row per record and the
    union of their keys as columns; an object of scalars is refused, unless
    it has no field at all, which gives the frame without columns. *)
Definition pd_DataFrame (data : json) : outcome DataFrame :=
  match data with
  | Records l =>
      Returned {| columns := ⋃ ((λ r : gmap string string, dom r) <$> l);
                  rows := (λ r : gmap string string, Str <$> r) <$> l |}
  | ScalarObject o =>
      if decide (o = ∅) then Returned {| columns := ∅; rows := [] |}
      else Raised ValueError
  end.

(** [df[col]] *)
Definition getitem (df : DataFrame) (col : string) : outcome (list cell) :=
  if bool_decide (col ∈ columns df)
  then Returned ((λ r, cell_at r col) <$> rows df)
  else Raised (KeyError (StrKey col)).

(** [df[col] = values] *)
Definition setitem (df : DataFrame) (col : string) (values : list cell) : DataFrame :=
  {| columns := {[col]} ∪ columns df;
     rows := zip_with (λ r v, <[col := v]> r) (rows df) values |}.

Definition isna (c : cell) : bool :=
  match c with
  | Missing | Num NaN => true
  | _ => false
  end.

(** [df.dropna(subset=cols, inplace=True)] *)
Definition dropna (subset : list string) (df : DataFrame) : DataFrame :=
  {| columns := columns df;
     rows := filter (λ r, Forall (λ col, isna (cell_at r col) = false) subset) (rows df) |}.

(** [astype(int)] on one cell: truncation toward zero; NaN and the
    infinities are refused. *)
Definition astype_int (c : cell) : outcome cell :=
  match c with
  | Num (Fin x) => Returned (IntCell (Qnum x ÷ Z.pos (Qden x)))
  | IntCell z => Returned (IntCell z)
  | _ => Raised ValueError
  end.

(** [pd.to_numeric(..., errors='coerce')] on one cell.  [to_float] is the
    float grammar of pandas: the value a string denotes, [NaN] when it
    denotes none. *)
Definition to_numeric (to_float : string → npfloat) (c : cell) : cell :=
  match c with
  | Str s => Num (to_float s)
  | Missing => Num NaN
  | _ => c
  end.

(** Sample answers of the remote source: two records, the second without
    an amount; and an empty result. *)
Definition two_records : list (gmap string string) :=
  [ <["valorpagado" := "100"]> {["vigencia" := "2020"]};
    {["vigencia" := "2021"]} ].

Definition answer_two_records : reply := Reply 200 (Some (Records two_records)).

Definition answer_no_records : reply := Reply 200 (Some (Records [])).

(** A fragment of the float grammar, enough to run examples: three numerals
    and the spelling of infinity; any other string denotes no number. *)
Definition sample_to_float (s : string) : npfloat :=
  if decide (s = "2020") then Fin 2020
  else if decide (s = "2021") then Fin 2021
  else if decide (s = "100") then Fin 100
  else if decide (s = "inf") then PosInf
  else NaN.

(** An answer whose second record has an infinite year. *)
Definition answer_infinite_year : reply :=
  Reply 200 (Some (Records
    [ <["valorpagado" := "100"]> {["vigencia" := "2020"]};
      <["valorpagado" := "100"]> {["vigencia" := "inf"]} ])).

Definition is_nan (x : npfloat) : bool :=
  match x with NaN => true | _ => false end.

(** A field of a fetched record is numeric when it is present and denotes a
    number; a record is valid when its year and its amount are numeric. *)
Definition numeric (to_float : string → npfloat) (field : option string) : Prop :=
  match field with
  | Some s => is_nan (to_float s) = false
  | None => False
  end.

Definition valid_record (to_float : string → npfloat) (rec : gmap string string) : Prop :=
  numeric to_float (rec !! "vigencia") ∧ numeric to_float (rec !! "valorpagado").

#[global] Instance numeric_dec to_float field : Decision (numeric to_float field).
Proof. destruct field; simpl; apply _. Defined.

#[global] Instance valid_record_dec to_float rec : Decision (valid_record to_float rec).
Proof. unfold valid_record. apply _. Defined.

End Pandas.

(** *** [app.py] *)

Module App.
Import Unicode Pandas.

Definition IPC_ANUAL : gmap Z Q :=
  list_to_map
    [(2010, 3.17%Q); (2011, 3.73%Q); (2012, 2.44%Q); (2013, 1.94%Q); (2014, 3.66%Q);
     (2015, 6.77%Q); (2016, 5.75%Q); (2017, 4.09%Q); (2018, 3.18%Q); (2019, 3.80%Q);
     (2020, 1.61%Q); (2021, 5.62%Q); (2022, 13.12%Q); (2023, 9.28%Q); (2024, 5.20%Q)].

Definition BASE_YEAR_INFLATION : Z := 2023.

(** The rate table of the specification's example, and the index it gives. *)
Definition sample_rates : gmap Z Q := <[2011 := 3.73%Q]> {[2010 := 3.17%Q]}.

Definition sample_index : gmap Z Q :=
  <[2011 := (100 * (1 + 3.17 / 100) * (1 + 3.73 / 100))%Q]>
    (<[2010 := (100 * (1 + 3.17 / 100))%Q]> {[2009 := 100%Q]}).

(** A rate table with a rate of -100, and the index it gives. *)
Definition collapse_rates : gmap Z Q := {[2010 := (-100)%Q]}.

Definition collapse_index : gmap Z Q :=
  <[2010 := (100 * (1 + -100 / 100))%Q]> {[2009 := 100%Q]}.

Section normalize_text.
Context {U : UCD}.

Definition normalize_text (text : pyobj) : pyobj :=
  match text with
  | PyStr s =>
      let text := nfd s in
      let text := filter (λ c, category_is_Mn c = false) text in
      PyStr (strip (lower text))
  | _ => text
  end.

End normalize_text.

(** **** [get_inflation_factors] *)

(** [min(keys)]: raises [ValueError] on an empty sequence. *)
Definition py_min (l : list Z) : outcome Z :=
  match l with
  | [] => Raised ValueError
  | x :: l' => Returned (foldl Z.min x l')
  end.

Definition keys (d : gmap Z Q) : list Z := (map_to_list d).*1.

Definition sorted (l : list Z) : list Z := merge_sort Z.le l.

(** [d[k]]: raises [KeyError] when the key is absent. *)
Definition getitem (d : gmap Z Q) (k : Z) : outcome Q :=
  match d !! k with
  | Some v => Returned v
  | None => Raised (KeyError (IntKey k))
  end.

(** [a / b] on floats: raises [ZeroDivisionError] when [b] is zero. *)
Definition truediv (a b : Q) : outcome Q :=
  if Qeq_bool b 0 then Raised ZeroDivisionError else Returned (a / b)%Q.

(** One turn of the loop
    [ipc_index[year] = ipc_index[year - 1] * (1 + ipc_data[year] / 100)]. *)
Definition ipc_index_step (ipc_data : gmap Z Q) (acc : outcome (gmap Z Q)) (year : Z)
  : outcome (gmap Z Q) :=
  ipc_index ← acc;
  previous ← getitem ipc_index (year - 1);
  rate ← getitem ipc_data year;
  mret (<[year := (previous * (1 + rate / 100))%Q]> ipc_index).

Definition build_ipc_index (ipc_data : gmap Z Q) : outcome (gmap Z Q) :=
  first ← py_min (keys ipc_data);
  foldl (ipc_index_step ipc_data) (Returned {[first - 1 := 100%Q]}) (sorted (keys ipc_data)).

(** One turn of the loop [factors[year] = base_ipc / index_val]. *)
Definition factors_step (base_ipc : Q) (acc : outcome (gmap Z Q)) (item : Z * Q)
  : outcome (gmap Z Q) :=
  factors ← acc;
  factor ← truediv base_ipc item.2;
  mret (<[item.1 := factor]> factors).

Definition build_factors (base_ipc : Q) (ipc_index : gmap Z Q) : outcome (gmap Z Q) :=
  foldl (factors_step base_ipc) (Returned ∅) (map_to_list ipc_index).

(** [not base_ipc], for [base_ipc] the result of [dict.get]: true for
    [None] and for a zero float. *)
Definition falsy (base_ipc : option Q) : bool :=
  match base_ipc with
  | None => true
  | Some x => Qeq_bool x 0
  end.

(** The function returns [None] or the table of factors. *)
Definition get_inflation_factors (ipc_data : gmap Z Q) (base_year : Z)
  : M (option (gmap Z Q)) :=
  ipc_index ← lift (build_ipc_index ipc_data);
  let base_ipc := ipc_index !! base_year in
  if falsy base_ipc then
    _ ← emit (st_warning (BaseYearNotFound base_year));
    mret None
  else
    factors ← lift (build_factors (default 0%Q base_ipc) ipc_index);
    mret (Some factors).

(** **** [get_base_data] *)

Section get_base_data.
Variable to_float : string → npfloat.

(** The body of the [try] block. *)
Definition fetch (w : reply) : outcome DataFrame :=
  response ← requests_get w;
  _ ← raise_for_status response;
  data ← response_json response;
  df ← pd_DataFrame data;
  vigencia ← Pandas.getitem df "vigencia";
  let df := setitem df "vigencia" (to_numeric to_float <$> vigencia) in
  valorpagado ← Pandas.getitem df "valorpagado";
  let df := setitem df "valorpagado" (to_numeric to_float <$> valorpagado) in
  let df := dropna ["vigencia"; "valorpagado"] df in
  vigencia ← Pandas.getitem df "vigencia";
  vigencia ← mapM astype_int vigencia;
  mret (setitem df "vigencia" vigencia).

Definition get_base_data (w : reply) : M DataFrame :=
  try_except (lift (fetch w))
    [(is_Exception, λ e, _ ← emit (st_error (LoadFailed e)); mret empty_frame)].

End get_base_data.

(** **** The filter cascade and the inflation substitution *)

(** A row of the base table once acquired: the year is an integer and the
    amount a number.  The text columns may be missing.  The last field is
    the column the inflation branch adds. *)
Record row := {
  vigencia : Z;
  departamento : option string;
  municipio : option string;
  fuentefinanciacion : option string;
  valorpagado : Q;
  sectorproyecto : option string;
  nombreproyecto : option string;
  valorpagado_ajustado : option Q
}.

(** The state of the sidebar widgets. *)
Record filter_state := {
  selected_vigencia_range : Z * Z;
  selected_departamentos : list string;
  selected_municipios : list string;
  selected_fuentes : list string;
  adjust_inflation : bool
}.

Inductive column_name := Valorpagado | ValorpagadoAjustado.

Inductive mode := Nominal | Real (base_year : Z).

(** [df[(df['vigencia'] >= range[0]) & (df['vigencia'] <= range[1])]] *)
Definition between (range : Z * Z) (df : list row) : list row :=
  filter (λ r, range.1 ≤ vigencia r ∧ vigencia r ≤ range.2) df.

(** [series.isin(selected)] on one cell: a missing cell is in no selection. *)
Definition isin (selected : list string) (c : option string) : Prop :=
  match c with
  | Some s => s ∈ selected
  | None => False
  end.

#[global] Instance isin_dec selected c : Decision (isin selected c).
Proof. destruct c; simpl; apply _. Defined.

(** [if selected: dff = dff[dff[col].isin(selected)]] *)
Definition restrict (selected : list string) (col : row → option string) (dff : list row)
  : list row :=
  match selected with
  | [] => dff
  | _ => filter (λ r, isin selected (col r)) dff
  end.

Definition cascade (fs : filter_state) (df_base : list row) : list row :=
  let df_filtered_by_year := between (selected_vigencia_range fs) df_base in
  let dff := df_filtered_by_year in
  let dff := restrict (selected_departamentos fs) departamento dff in
  let dff := restrict (selected_municipios fs) municipio dff in
  let dff := restrict (selected_fuentes fs) fuentefinanciacion dff in
  dff.

(** [row['valorpagado'] * inflation_factors.get(row['vigencia'], 1)] *)
Definition adjusted (inflation_factors : gmap Z Q) (r : row) : Q :=
  (valorpagado r * default 1 (inflation_factors !! vigencia r))%Q.

Definition set_valorpagado_ajustado (inflation_factors : gmap Z Q) (r : row) : row :=
  {| vigencia := vigencia r;
     departamento := departamento r;
     municipio := municipio r;
     fuentefinanciacion := fuentefinanciacion r;
     valorpagado := valorpagado r;
     sectorproyecto := sectorproyecto r;
     nombreproyecto := nombreproyecto r;
     valorpagado_ajustado := Some (adjusted inflation_factors r) |}.

(** What the rest of the script reads: the filtered frame, the name of the
    amount column to aggregate and the label shown in the titles. *)
Record view := {
  dff : list row;
  valor_columna : column_name;
  display_mode : mode
}.

(** [if inflation_factors:] is false for [None] and for an empty dict. *)
Definition truthy (inflation_factors : option (gmap Z Q)) : bool :=
  match inflation_factors with
  | Some factors => negb (bool_decide (factors = ∅))
  | None => false
  end.

(** The main data processing, with the rate table and the base year as
    parameters. *)
Definition process_with (ipc_data : gmap Z Q) (base_year : Z)
    (df_base : list row) (fs : filter_state) : M view :=
  let dff := cascade fs df_base in
  let nominal := {| dff := dff; valor_columna := Valorpagado; display_mode := Nominal |} in
  if adjust_inflation fs then
    inflation_factors ← get_inflation_factors ipc_data base_year;
    if truthy inflation_factors then
      mret {| dff := set_valorpagado_ajustado (default ∅ inflation_factors) <$> dff;
              valor_columna := ValorpagadoAjustado;
              display_mode := Real base_year |}
    else mret nominal
  else mret nominal.

(** The script as written. *)
Definition process (df_base : list row) (fs : filter_state) : M view :=
  process_with IPC_ANUAL BASE_YEAR_INFLATION df_base fs.

(** [df[col]] on one row: the added column is absent until it is set. *)
Definition value (col : column_name) (r : row) : outcome Q :=
  match col with
  | Valorpagado => Returned (valorpagado r)
  | ValorpagadoAjustado =>
      match valorpagado_ajustado r with
      | Some x => Returned x
      | None => Raised (KeyError (StrKey "valorpagado_ajustado"))
      end
  end.

Definition Qsum (l : list Q) : Q := foldr Qplus 0%Q l.

(** [df[col].sum()] *)
Definition column_sum (col : column_name) (df : list row) : outcome Q :=
  values ← mapM (value col) df;
  mret (Qsum values).

(** [total_pagado = dff[valor_columna].sum()] *)
Definition total_pagado (v : view) : outcome Q := column_sum (valor_columna v) (dff v).

(** Vocabulary of the properties below.  A cell passes a selection when
    the selection is empty or holds the cell's value; a row is kept when its
    year is in the range and its region, sub-region and funding source pass
    their selections. *)
Definition passes (selected : list string) (c : option string) : Prop :=
  selected = [] ∨ isin selected c.

Definition keeps (fs : filter_state) (r : row) : Prop :=
  ((selected_vigencia_range fs).1 ≤ vigencia r ∧ vigencia r ≤ (selected_vigencia_range fs).2) ∧
  passes (selected_departamentos fs) (departamento r) ∧
  passes (selected_municipios fs) (municipio r) ∧
  passes (selected_fuentes fs) (fuentefinanciacion r).

#[global] Instance passes_dec selected c : Decision (passes selected c).
Proof. unfold passes. apply _. Defined.

#[global] Instance keeps_dec fs r : Decision (keeps fs r).
Proof. unfold keeps. apply _. Defined.

(** The amount that aggregation reads from a row. *)
Definition amount (inflation_factors : gmap Z Q) (adjust : bool) (r : row) : Q :=
  if adjust then adjusted inflation_factors r else valorpagado r.

(** A selection [b] is at least as wide as [a]: it is empty, which selects
    everything, or [a] is not empty and each of its values is in [b]. *)
Definition widens (a b : list string) : Prop :=
  b = [] ∨ (a ≠ [] ∧ a ⊆ b).

(** Sample data: a base table of two rows in two regions, and filter
    states over the whole range of years. *)
Definition sample_row (year : Z) (region : string) (paid : Q) : row :=
  {| vigencia := year; departamento := Some region; municipio := None;
     fuentefinanciacion := None; valorpagado := paid; sectorproyecto := None;
     nombreproyecto := None; valorpagado_ajustado := None |}.

Definition two_regions : list row :=
  [sample_row 2010 "Antioquia" 100%Q; sample_row 2011 "Cauca" 150%Q].

Definition state_of (regions : list string) : filter_state :=
  {| selected_vigencia_range := (2010, 2025);
     selected_departamentos := regions;
     selected_municipios := [];
     selected_fuentes := [];
     adjust_inflation := false |}.

(** **** Further vocabulary and sample data for [get_inflation_factors] *)

(** The years of a rate table are consecutive: each one but the least
    follows a year of the table. *)
Definition consecutive (ipc_data : gmap Z Q) : Prop :=
  ∀ y, is_Some (ipc_data !! y) →
       is_Some (ipc_data !! (y - 1)) ∨ ∀ z, is_Some (ipc_data !! z) → y ≤ z.

(** A table without 2011, and a table whose last rate is -100. *)
Definition gap_rates : gmap Z Q := <[2012 := 2.44%Q]> {[2010 := 3.17%Q]}.

Definition late_collapse_rates : gmap Z Q := <[2011 := (-100)%Q]> {[2010 := 3.17%Q]}.

Definition late_collapse_index : gmap Z Q :=
  <[2011 := (100 * (1 + 3.17 / 100) * (1 + -100 / 100))%Q]>
    (<[2010 := (100 * (1 + 3.17 / 100))%Q]> {[2009 := 100%Q]}).

(** **** The default periods of the comparison *)

(** [min_year + 1 if min_year + 1 <= max_year else max_year] *)
Definition default_p1_end (min_year max_year : Z) : Z :=
  if min_year + 1 <=? max_year then min_year + 1 else max_year.

(** [max_year - 1 if max_year - 1 >= min_year else min_year] *)
Definition default_p2_start (min_year max_year : Z) : Z :=
  if max_year - 1 >=? min_year then max_year - 1 else min_year.

(** The values the two sliders start from, for the selected range of
    years. *)
Definition default_periods (selected_vigencia_range : Z * Z) : (Z * Z) * (Z * Z) :=
  let min_year := selected_vigencia_range.1 in
  let max_year := selected_vigencia_range.2 in
  ((min_year, default_p1_end min_year max_year),
   (default_p2_start min_year max_year, max_year)).

(** **** Grouped aggregates *)

(** [df.groupby(key)[col].sum()] for the year: one entry per year present,
    in ascending order of the year. *)
Definition years_present (df : list row) : list Z :=
  merge_sort Z.le (remove_dups (vigencia <$> df)).

Definition sum_by_year (values : row → Q) (df : list row) : list (Z * Q) :=
  (λ year, (year, Qsum (values <$> filter (λ r, vigencia r = year) df)))
    <$> years_present df.

(** [series.nunique()]: the number of distinct values, missing ones left
    out. *)
Definition nunique (cells : list (option string)) : nat :=
  length (remove_dups (omap id cells)).

(** [num_proyectos = dff['nombreproyecto'].nunique()] *)
Definition num_proyectos (df : list row) : nat := nunique (nombreproyecto <$> df).

(** The order of [sorted] and of [groupby] on strings. *)
Definition string_le (a b : string) : Prop := String.leb a b = true.

#[global] Instance string_le_dec : RelDecision string_le.
Proof. intros a b. unfold string_le. apply _. Defined.

(** [df.groupby(key)[col].sum()] for a text column: one entry per value
    present, in ascending order of the value; rows without a value belong to
    no group. *)
Definition sum_by (key : row → option string) (values : row → Q) (df : list row)
  : list (string * Q) :=
  (λ k, (k, Qsum (values <$> filter (λ r, key r = Some k) df)))
    <$> merge_sort string_le (remove_dups (omap key df)).

(** [series.nlargest(n)]: the entries by descending value, entries of equal
    value in their order of appearance, cut after the [n]-th. *)
Fixpoint insert_descending {K} (x : K * Q) (l : list (K * Q)) : list (K * Q) :=
  match l with
  | y :: l' => if bool_decide (x.2 < y.2)%Q then y :: insert_descending x l' else x :: l
  | [] => [x]
  end.

Definition sort_descending {K} (l : list (K * Q)) : list (K * Q) :=
  foldr insert_descending [] l.

Definition nlargest {K} (n : nat) (l : list (K * Q)) : list (K * Q) :=
  take n (sort_descending l).

Definition value_le {K} (a b : K * Q) : Prop := (a.2 <= b.2)%Q.

#[global] Instance value_le_dec {K} : RelDecision (@value_le K).
Proof. intros a b. unfold value_le. apply _. Defined.

(** [sort_values(ascending=True)] sorts with an unstable algorithm: all that
    is known of it is that it returns the entries in ascending order of
    their value. *)
Definition sorts_ascending {K} (sort_values : list (K * Q) → list (K * Q)) : Prop :=
  ∀ l, sort_values l ≡ₚ l ∧ StronglySorted value_le (sort_values l).

(** [dff.groupby(key)[valor_columna].sum().nlargest(10).sort_values(ascending=True)] *)
Definition top_10 (sort_values : list (string * Q) → list (string * Q))
    (key : row → option string) (values : row → Q) (df : list row) : list (string * Q) :=
  sort_values (nlargest 10 (sum_by key values df)).

(** A sort to run examples with. *)
Definition merge_sort_values (l : list (string * Q)) : list (string * Q) :=
  merge_sort value_le l.

(** **** The options of the sidebar *)

(** [sorted(series.dropna().unique())] *)
Definition options (cells : list (option string)) : list string :=
  merge_sort string_le (remove_dups (omap id cells)).

Definition deptos_disponibles (selected_vigencia_range : Z * Z) (df_base : list row)
  : list string :=
  options (departamento <$> between selected_vigencia_range df_base).

Definition municipios_disponibles (selected_vigencia_range : Z * Z)
    (selected_departamentos : list string) (df_base : list row) : list string :=
  let df_filtered_by_year := between selected_vigencia_range df_base in
  match selected_departamentos with
  | [] => options (municipio <$> df_filtered_by_year)
  | _ => options (municipio <$>
                    filter (λ r, isin selected_departamentos (departamento r))
                           df_filtered_by_year)
  end.

Definition fuentes_disponibles (selected_vigencia_range : Z * Z) (df_base : list row)
  : list string :=
  options (fuentefinanciacion <$> between selected_vigencia_range df_base).

(** The button that clears the additional filters: the three selections
    become empty, the rest of the state is kept. *)
Definition clear_filters (fs : filter_state) : filter_state :=
  {| selected_vigencia_range := selected_vigencia_range fs;
     selected_departamentos := [];
     selected_municipios := [];
     selected_fuentes := [];
     adjust_inflation := adjust_inflation fs |}.


(** **** [format_number] *)

(** The text that [format_number] returns is a dollar sign, a number
    printed with a fixed count of decimals and one of three suffixes or
    none.  The model keeps the number before it is printed, the count of
    decimals and the suffix. *)
Inductive suffix := Billones | Millones | Miles | Unidades.

Record formatted := { scaled : Q; decimals : nat; unit_suffix : suffix }.

Definition format_number (num : Q) : formatted :=
  if Qle_bool 1000000000000 (Qabs num) then
    {| scaled := num / 1000000000000; decimals := 2; unit_suffix := Billones |}
  else if Qle_bool 1000000 (Qabs num) then
    {| scaled := num / 1000000; decimals := 1; unit_suffix := Millones |}
  else if Qle_bool 1000 (Qabs num) then
    {| scaled := num / 1000; decimals := 1; unit_suffix := Miles |}
  else
    {| scaled := num; decimals := 0; unit_suffix := Unidades |}.

(** What one unit of a suffix is worth. *)
Definition worth (s : suffix) : Q :=
  match s with
  | Billones => 1000000000000
  | Millones => 1000000
  | Miles => 1000
  | Unidades => 1
  end.
End App.

(** *** [inversiones.py] *)

Module Inversiones.
Import Unicode Pandas.

Section normalize_text.
Context {U : UCD}.

Definition normalize_text (text : pyobj) : pyobj :=
  match text with
  | PyStr s =>
      let text := nfd s in
      let text := filter (λ c, category_is_Mn c = false) text in
      PyStr (strip (lower text))
  | _ => text
  end.

End normalize_text.

Section get_base_data.
Variable to_float : string → npfloat.

(** The body of the [try] block. *)
Definition fetch (w : reply) : outcome DataFrame :=
  response ← requests_get w;
  _ ← raise_for_status response;
  data ← response_json response;
  df ← pd_DataFrame data;
  vigencia ← Pandas.getitem df "vigencia";
  let df := setitem df "vigencia" (to_numeric to_float <$> vigencia) in
  valorpagado ← Pandas.getitem df "valorpagado";
  let df := setitem df "valorpagado" (to_numeric to_float <$> valorpagado) in
  mret df.

Definition get_base_data (w : reply) : M DataFrame :=
  try_except (lift (fetch w))
    [(is_HTTPError, λ e, _ ← emit (st_error (ApiContactFailed e)); mret empty_frame);
     (is_RequestException, λ e, _ ← emit (st_error (ConnectionFailed e)); mret empty_frame)].

End get_base_data.


(** **** The filter cascade and the comparison of [inversiones.py] *)

(** A row of the base table of this entry point: its year and its amount
    are what [pd.to_numeric] left, a number or NaN, since no row is dropped
    and no year is cast to an integer. *)
Record row := {
  vigencia : npfloat;
  departamento : option string;
  municipio : option string;
  fuentefinanciacion : option string;
  valorpagado : npfloat;
  sectorproyecto : option string;
  nombreproyecto : option string
}.

(** The state of the sidebar widgets. *)
Record filter_state := {
  selected_vigencia_range : Z * Z;
  selected_departamentos : list string;
  selected_municipios : list string;
  selected_fuentes : list string
}.

#[global] Instance Q_eq_dec : EqDecision Q.
Proof. solve_decision. Defined.

#[global] Instance npfloat_eq_dec : EqDecision npfloat.
Proof. solve_decision. Defined.

(** [x <= y] on floats: false as soon as one side is NaN. *)
Definition np_le (x y : npfloat) : bool :=
  match x, y with
  | NaN, _ | _, NaN => false
  | NegInf, _ | _, PosInf => true
  | Fin a, Fin b => Qle_bool a b
  | _, _ => false
  end.

(** [x < y] on floats. *)
Definition np_lt (x y : npfloat) : bool :=
  match x, y with
  | NaN, _ | _, NaN => false
  | Fin a, Fin b => negb (Qle_bool b a)
  | PosInf, _ | _, NegInf => false
  | _, _ => true
  end.

(** [x + y] on floats. *)
Definition np_add (x y : npfloat) : npfloat :=
  match x, y with
  | NaN, _ | _, NaN => NaN
  | Fin a, Fin b => Fin (a + b)
  | PosInf, NegInf | NegInf, PosInf => NaN
  | PosInf, _ | _, PosInf => PosInf
  | NegInf, _ | _, NegInf => NegInf
  end.

(** [series.sum()]: the missing values are skipped. *)
Definition np_sum (values : list npfloat) : npfloat :=
  foldl np_add (Fin 0) (filter (λ x, is_nan x = false) values).

(** [df[(df['vigencia'] >= range[0]) & (df['vigencia'] <= range[1])]] *)
Definition between (range : npfloat * npfloat) (df : list row) : list row :=
  filter (λ r, np_le range.1 (vigencia r) && np_le (vigencia r) range.2 = true) df.

(** The bounds of the sidebar slider are integers. *)
Definition bounds (range : Z * Z) : npfloat * npfloat :=
  (Fin (inject_Z range.1), Fin (inject_Z range.2)).

(** [if selected: dff = dff[dff[col].isin(selected)]] *)
Definition restrict (selected : list string) (col : row → option string) (dff : list row)
  : list row :=
  match selected with
  | [] => dff
  | _ => filter (λ r, App.isin selected (col r)) dff
  end.

(** [dff], the table that the metrics, the charts and the explorer show. *)
Definition cascade (fs : filter_state) (df_base : list row) : list row :=
  let df_filtered_by_year := between (bounds (selected_vigencia_range fs)) df_base in
  let dff := df_filtered_by_year in
  let dff := restrict (selected_departamentos fs) departamento dff in
  let dff := restrict (selected_municipios fs) municipio dff in
  let dff := restrict (selected_fuentes fs) fuentefinanciacion dff in
  dff.

(** Two floats that are equal as numbers are one value to [unique]: a
    finite value stands for its reduced fraction. *)
Definition canonical (x : npfloat) : npfloat :=
  match x with
  | Fin a => Fin (Qred a)
  | _ => x
  end.

(** [sorted] moves a value before another only when it is less. *)
Definition not_after (x y : npfloat) : Prop := np_lt y x = false.

#[global] Instance not_after_dec : RelDecision not_after.
Proof. intros x y. unfold not_after. apply _. Defined.

(** [sorted(series.dropna().unique())] *)
Definition sorted_unique (series : list npfloat) : list npfloat :=
  merge_sort not_after (remove_dups (canonical <$> filter (λ x, is_nan x = false) series)).

(** [vigencias_en_rango] *)
Definition vigencias_en_rango (fs : filter_state) (df_base : list row) : list npfloat :=
  let df_filtered_by_year := between (bounds (selected_vigencia_range fs)) df_base in
  sorted_unique (vigencia <$> df_filtered_by_year).

(** The values the two period sliders start from:
    [(vigencias_en_rango[0], vigencias_en_rango[1])] and
    [(vigencias_en_rango[-2], vigencias_en_rango[-1])], or no slider at all
    when [len(vigencias_en_rango) < 2]. *)
Definition default_periodos (vigencias_en_rango : list npfloat)
  : option ((npfloat * npfloat) * (npfloat * npfloat)) :=
  let n := length vigencias_en_rango in
  if bool_decide (n < 2)%nat then None
  else
    a ← vigencias_en_rango !! 0%nat;
    b ← vigencias_en_rango !! 1%nat;
    c ← vigencias_en_rango !! (n - 2)%nat;
    d ← vigencias_en_rango !! (n - 1)%nat;
    Some ((a, b), (c, d)).

(** [total_p1] and [total_p2] of the comparison chart. *)
Definition period_total (fs : filter_state) (df_base : list row)
    (periodo : npfloat * npfloat) : npfloat :=
  let df_filtered_by_year := between (bounds (selected_vigencia_range fs)) df_base in
  let df_comp := df_filtered_by_year in
  let df_comp := restrict (selected_departamentos fs) departamento df_comp in
  np_sum (valorpagado <$> between periodo df_comp).

(** [total_pagado = dff['valorpagado'].sum()] *)
Definition total_pagado (fs : filter_state) (df_base : list row) : npfloat :=
  np_sum (valorpagado <$> cascade fs df_base).

(** The state of the sidebar once the sub-region and funding-source
    selections are emptied. *)
Definition without_municipio_fuente (fs : filter_state) : filter_state :=
  {| selected_vigencia_range := selected_vigencia_range fs;
     selected_departamentos := selected_departamentos fs;
     selected_municipios := [];
     selected_fuentes := [] |}.
End Inversiones.


(** *** The numbers of the interpreter: binary64 *)

(** A Python [float] is an IEEE 754 binary64 number.  The operations are
    those of the Standard Library's specification of binary64, which rounds
    every result to the nearest float, ties to even. *)
Module Binary64.

Definition float : Type := SpecFloat.spec_float.

Definition prec : Z := 53.
Definition emax : Z := 1024.

Definition add : float → float → float := SpecFloat.SFadd prec emax.
Definition sub : float → float → float := SpecFloat.SFsub prec emax.
Definition mul : float → float → float := SpecFloat.SFmul prec emax.
Definition div : float → float → float := SpecFloat.SFdiv prec emax.

(** [float(z)] for an integer [z]. *)
Definition of_Z (z : Z) : float := SpecFloat.binary_normalize prec emax z 0 false.

(** The float that a decimal literal denotes: [3.17] is [decimal 317 100],
    the float nearest to 317/100 (numerator and denominator below 2^53). *)
Definition decimal (numerator denominator : Z) : float :=
  div (of_Z numerator) (of_Z denominator).

Definition zero : float := of_Z 0.
Definition one : float := of_Z 1.
Definition hundred : float := of_Z 100.

(** [x == y], [x < y], [x <= y]: false as soon as one side is NaN. *)
Definition eqb : float → float → bool := SpecFloat.SFeqb.
Definition ltb : float → float → bool := SpecFloat.SFltb.
Definition leb : float → float → bool := SpecFloat.SFleb.

#[global] Arguments add : simpl never.
#[global] Arguments sub : simpl never.
#[global] Arguments mul : simpl never.
#[global] Arguments div : simpl never.
#[global] Arguments of_Z : simpl never.
#[global] Arguments zero : simpl never.
#[global] Arguments one : simpl never.
#[global] Arguments hundred : simpl never.
#[global] Arguments eqb : simpl never.
#[global] Arguments ltb : simpl never.
#[global] Arguments leb : simpl never.

Definition is_nan (x : float) : bool :=
  match x with SpecFloat.S754_nan => true | _ => false end.

Definition is_finite (x : float) : bool :=
  match x with
  | SpecFloat.S754_zero _ | SpecFloat.S754_finite _ _ _ => true
  | _ => false
  end.

#[global] Instance float_eq_dec : EqDecision float.
Proof. solve_decision. Defined.

(** Vocabulary of the properties below.  The number of binary digits of a
    mantissa; a float is big when it is plus infinity or a positive float
    of value 1 or more, that is, when its digits reach past the binary
    point; it is not negative when it is a zero, a positive float or plus
    infinity. *)
Definition dg (p : positive) : Z := Zpos (SpecFloat.digits2_pos p).

Definition big (x : float) : Prop :=
  match x with
  | SpecFloat.S754_infinity false => True
  | SpecFloat.S754_finite false m e => 1 ≤ dg m + e
  | _ => False
  end.


End Binary64.

(** *** [app.py] with the numbers of the machine *)

(** [App] computes with exact rationals, which is enough for the properties
    that depend only on which rows and which years are present.  This
    module computes with the numbers that the script computes with, for
    the properties that depend on the values: the floats of the
    interpreter in [get_inflation_factors], the int64 and float64 columns
    of pandas in the totals. *)
Module Machine.
Import Binary64.

(** **** [get_inflation_factors] *)

(** The rates of [IPC_ANUAL] are Python floats, and so is every index
    value but the first, the integer 100, which the arithmetic converts to
    the float 100.0. *)

Definition keys (d : gmap Z float) : list Z := (map_to_list d).*1.

(** [d[k]]: raises [KeyError] when the key is absent. *)
Definition getitem (d : gmap Z float) (k : Z) : outcome float :=
  match d !! k with
  | Some v => Returned v
  | None => Raised (KeyError (IntKey k))
  end.

(** [a / b] on floats: raises [ZeroDivisionError] when [b == 0]. *)
Definition truediv (a b : float) : outcome float :=
  if eqb b zero then Raised ZeroDivisionError else Returned (div a b).

(** One turn of the loop
    [ipc_index[year] = ipc_index[year - 1] * (1 + ipc_data[year] / 100)]. *)
Definition ipc_index_step (ipc_data : gmap Z float) (acc : outcome (gmap Z float)) (year : Z)
  : outcome (gmap Z float) :=
  ipc_index ← acc;
  previous ← getitem ipc_index (year - 1);
  rate ← getitem ipc_data year;
  mret (<[year := mul previous (add one (div rate hundred))]> ipc_index).

Definition build_ipc_index (ipc_data : gmap Z float) : outcome (gmap Z float) :=
  first ← App.py_min (keys ipc_data);
  foldl (ipc_index_step ipc_data) (Returned {[first - 1 := hundred]})
        (App.sorted (keys ipc_data)).

(** One turn of the loop [factors[year] = base_ipc / index_val]. *)
Definition factors_step (base_ipc : float) (acc : outcome (gmap Z float)) (item : Z * float)
  : outcome (gmap Z float) :=
  factors ← acc;
  factor ← truediv base_ipc item.2;
  mret (<[item.1 := factor]> factors).

Definition build_factors (base_ipc : float) (ipc_index : gmap Z float)
  : outcome (gmap Z float) :=
  foldl (factors_step base_ipc) (Returned ∅) (map_to_list ipc_index).

(** [not base_ipc], for [base_ipc] the result of [dict.get]: true for
    [None] and for a float equal to zero; NaN is not. *)
Definition falsy (base_ipc : option float) : bool :=
  match base_ipc with
  | None => true
  | Some x => eqb x zero
  end.

(** The function returns [None] or the table of factors. *)
Definition get_inflation_factors (ipc_data : gmap Z float) (base_year : Z)
  : M (option (gmap Z float)) :=
  ipc_index ← lift (build_ipc_index ipc_data);
  let base_ipc := ipc_index !! base_year in
  if falsy base_ipc then
    _ ← emit (st_warning (BaseYearNotFound base_year));
    mret None
  else
    factors ← lift (build_factors (default zero base_ipc) ipc_index);
    mret (Some factors).

(** The index of a table, for the examples: empty when the loop raises. *)
Definition ipc_index_of (ipc_data : gmap Z float) : gmap Z float :=
  match build_ipc_index ipc_data with
  | Returned ipc_index => ipc_index
  | Raised _ => ∅
  end.

(** The table of the script. *)
Definition IPC_ANUAL : gmap Z float :=
  list_to_map
    [(2010, decimal 317 100); (2011, decimal 373 100); (2012, decimal 244 100);
     (2013, decimal 194 100); (2014, decimal 366 100); (2015, decimal 677 100);
     (2016, decimal 575 100); (2017, decimal 409 100); (2018, decimal 318 100);
     (2019, decimal 380 100); (2020, decimal 161 100); (2021, decimal 562 100);
     (2022, decimal 1312 100); (2023, decimal 928 100); (2024, decimal 520 100)].

(** A table with a rate of -100, and a table of twenty-one years whose
    every rate is the float next above -100. *)
Definition collapse_rates : gmap Z float :=
  <[2011 := of_Z (-100)]> {[2010 := decimal 317 100]}.



(** **** The totals and the comparison *)

(** A row of the filtered table: the columns that the filters read and the
    amount in the column that [valor_columna] names.  The type of the
    amounts is that of the column. *)
Record row (num : Type) := {
  vigencia : Z;
  departamento : option string;
  municipio : option string;
  fuentefinanciacion : option string;
  valor : num
}.
Arguments Build_row {num}.
Arguments vigencia {num}.
Arguments departamento {num}.
Arguments municipio {num}.
Arguments fuentefinanciacion {num}.
Arguments valor {num}.

(** [pd.to_numeric] gives the amounts as an int64 column when every amount
    is an integer, and as a float64 column otherwise; selecting rows keeps
    the type of the column. *)
Inductive frame :=
| Int64Frame (rows : list (row Z))
| Float64Frame (rows : list (row float)).

(** A numpy scalar: what [.sum()] returns. *)
Inductive scalar :=
| Int64 (z : Z)
| Float64 (x : float).

(** int64 arithmetic wraps around. *)
Definition wrap (z : Z) : Z := (z + 2 ^ 63) `mod` 2 ^ 64 - 2 ^ 63.

(** [df[(df['vigencia'] >= range[0]) & (df['vigencia'] <= range[1])]] *)
Definition between {num} (range : Z * Z) (df : list (row num)) : list (row num) :=
  filter (λ r, range.1 ≤ vigencia r ∧ vigencia r ≤ range.2) df.

(** [if selected: dff = dff[dff[col].isin(selected)]] *)
Definition restrict {num} (selected : list string) (col : row num → option string)
    (dff : list (row num)) : list (row num) :=
  match selected with
  | [] => dff
  | _ => filter (λ r, App.isin selected (col r)) dff
  end.

Definition cascade {num} (fs : App.filter_state) (df_base : list (row num))
  : list (row num) :=
  let df_filtered_by_year := between (App.selected_vigencia_range fs) df_base in
  let dff := df_filtered_by_year in
  let dff := restrict (App.selected_departamentos fs) departamento dff in
  let dff := restrict (App.selected_municipios fs) municipio dff in
  let dff := restrict (App.selected_fuentes fs) fuentefinanciacion dff in
  dff.

(** A selection of rows, on a frame of either type. *)
Definition select (rows_of : ∀ num, list (row num) → list (row num)) (df : frame) : frame :=
  match df with
  | Int64Frame rows => Int64Frame (rows_of Z rows)
  | Float64Frame rows => Float64Frame (rows_of float rows)
  end.

(** [len(df)] and [df.empty] *)
Definition len (df : frame) : nat :=
  match df with
  | Int64Frame rows => length rows
  | Float64Frame rows => length rows
  end.

Definition empty (df : frame) : bool := bool_decide (len df = 0%nat).

(** [float(t)], as the arithmetic converts a scalar. *)
Definition to_float (t : scalar) : float :=
  match t with
  | Int64 z => of_Z z
  | Float64 x => x
  end.

(** [t > 0] *)
Definition gt_zero (t : scalar) : bool :=
  match t with
  | Int64 z => bool_decide (0 < z)
  | Float64 x => ltb zero x
  end.

(** [a - b]: on two int64 scalars an int64, which wraps; a float
    otherwise. *)
Definition np_sub (a b : scalar) : scalar :=
  match a, b with
  | Int64 x, Int64 y => Int64 (wrap (x - y))
  | _, _ => Float64 (sub (to_float a) (to_float b))
  end.

(** [a / b] on numpy scalars: a float64, and no exception. *)
Definition np_truediv (a b : scalar) : float := div (to_float a) (to_float b).

(** The third metric of the comparison: a percentage or the text "N/A". *)
Inductive delta :=
| Percent (diferencia_percent : float)
| NotAvailable.

(** What the script shows below the sliders: nothing when it stopped at the
    empty filtered table, the three metrics, or the notice that there is
    nothing to compare. *)
Inductive comparison :=
| Stopped
| Metrics (total_p1 total_p2 diferencia : scalar) (d : delta)
| NothingToCompare.

Section totals.

(** numpy adds the floats of a column in an order of its own (by pairs, in
    blocks); the sum of a float64 column is a parameter of the model. *)
Variable float_sum : list float → float.

(** [df[valor_columna].sum()] *)
Definition column_sum (df : frame) : scalar :=
  match df with
  | Int64Frame rows => Int64 (wrap (foldr Z.add 0 (valor <$> rows)))
  | Float64Frame rows => Float64 (float_sum (valor <$> rows))
  end.

(** [total_pagado = dff[valor_columna].sum()] for a state of the sidebar. *)
Definition total_pagado (fs : App.filter_state) (df_base : frame) : scalar :=
  column_sum (select (λ num, cascade fs) df_base).

(** From [if dff.empty: ... st.stop()] to the end of the comparison. *)
Definition compare (dff : frame) (periodo1_range periodo2_range : Z * Z) : comparison :=
  if empty dff then Stopped
  else
    let df_p1 := select (λ num, between periodo1_range) dff in
    let total_p1 := column_sum df_p1 in
    let df_p2 := select (λ num, between periodo2_range) dff in
    let total_p2 := column_sum df_p2 in
    if gt_zero total_p1 || gt_zero total_p2 then
      let diferencia := np_sub total_p2 total_p1 in
      if gt_zero total_p1 then
        let diferencia_percent := mul (np_truediv diferencia total_p1) hundred in
        Metrics total_p1 total_p2 diferencia (Percent diferencia_percent)
      else
        Metrics total_p1 total_p2 diferencia NotAvailable
    else NothingToCompare.

End totals.

(** A row is kept when its year is in the range and its region, sub-region
    and funding source pass their selections. *)
Definition keeps {num} (fs : App.filter_state) (r : row num) : Prop :=
  ((App.selected_vigencia_range fs).1 ≤ vigencia r ∧
   vigencia r ≤ (App.selected_vigencia_range fs).2) ∧
  App.passes (App.selected_departamentos fs) (departamento r) ∧
  App.passes (App.selected_municipios fs) (municipio r) ∧
  App.passes (App.selected_fuentes fs) (fuentefinanciacion r).

#[global] Instance keeps_dec {num} fs (r : row num) : Decision (keeps fs r).
Proof. unfold keeps. apply _. Defined.

(** Sample data: an int64 frame of two rows in two regions, a frame with a
    negative amount, and a sum of floats from left to right to run
    examples with. *)
Definition sample_row (year : Z) (region : string) (paid : Z) : row Z :=
  {| vigencia := year; departamento := Some region; municipio := None;
     fuentefinanciacion := None; valor := paid |}.

Definition two_regions : frame :=
  Int64Frame [sample_row 2010 "Antioquia" 100; sample_row 2011 "Cauca" 150].

Definition with_refund : frame :=
  Int64Frame [sample_row 2010 "Antioquia" (-50); sample_row 2011 "Cauca" 100].

Definition sum_left_to_right (values : list float) : float := foldl add zero values.

End Machine.
(** ** Part II: properties *)

(** *** Strings: stripping, canonical ordering, lowering *)

Module UnicodeFacts.
Import Unicode.

Lemma filter_all {A} (P : A → Prop) `{!∀ x, Decision (P x)} l :
  Forall P l → filter P l = l.
Proof.
  induction 1 as [|x l Hx Hl IH]; [done|].
  by rewrite filter_cons_True, IH.
Qed.

Lemma dropwhile_no_lead {A} (p : A → bool) l : no_lead p (dropwhile p l).
Proof.
  induction l as [|x l IH]; simpl; [done|].
  destruct (p x) eqn:Hx; [exact IH | exact Hx].
Qed.

Lemma dropwhile_id {A} (p : A → bool) l : no_lead p l → dropwhile p l = l.
Proof. destruct l as [|x l]; simpl; [done|]. by intros ->. Qed.

Lemma dropwhile_Forall {A} (p : A → bool) (P : A → Prop) l :
  Forall P l → Forall P (dropwhile p l).
Proof.
  induction 1 as [|x l Hx Hl IH]; simpl; [done|].
  destruct (p x); [exact IH | by constructor].
Qed.

Lemma dropwhile_snoc_keeps {A} (p : A → bool) l x :
  p x = false → ∃ m, dropwhile p (l ++ [x]) = m ++ [x].
Proof.
  intros Hx. induction l as [|y l IH]; simpl.
  - rewrite Hx. by exists [].
  - destruct (p y); [exact IH|]. by exists (y :: l).
Qed.

(** Dropping at the end keeps a clean start. *)
Lemma drop_end_no_lead {A} (p : A → bool) l :
  no_lead p l → no_lead p (reverse (dropwhile p (reverse l))).
Proof.
  destruct l as [|x l]; simpl; [done|]. intros Hx.
  rewrite reverse_cons.
  destruct (dropwhile_snoc_keeps p (reverse l) x Hx) as [m ->].
  by rewrite reverse_snoc.
Qed.

Section operations.
Context {U : UCD}.

Lemma strip_trimmed s : trimmed (strip s).
Proof.
  unfold trimmed, strip. split.
  - apply drop_end_no_lead, dropwhile_no_lead.
  - rewrite reverse_involutive. apply dropwhile_no_lead.
Qed.

Lemma strip_fixed s : trimmed s → strip s = s.
Proof.
  intros [Hs He]. unfold strip.
  rewrite (dropwhile_id _ s Hs), (dropwhile_id _ _ He). apply reverse_involutive.
Qed.

Lemma strip_idempotent s : strip (strip s) = strip s.
Proof. apply strip_fixed, strip_trimmed. Qed.

Lemma strip_Forall (P : N → Prop) s : Forall P s → Forall P (strip s).
Proof.
  intros H. unfold strip.
  apply Forall_reverse, dropwhile_Forall, Forall_reverse, dropwhile_Forall, H.
Qed.

(** Canonical ordering permutes, and leaves a string of starters alone. *)
Lemma bubble_Permutation c acc : bubble c acc ≡ₚ c :: acc.
Proof.
  induction acc as [|d acc IH]; simpl; [done|].
  destruct (combining c <? combining d)%N; [|done].
  rewrite IH. apply Permutation_swap.
Qed.

Lemma canonical_order_step_Permutation acc c : canonical_order_step acc c ≡ₚ c :: acc.
Proof.
  unfold canonical_order_step.
  destruct (combining c =? 0)%N; [done | apply bubble_Permutation].
Qed.

Lemma canonical_order_Permutation s : canonical_order s ≡ₚ s.
Proof.
  unfold canonical_order. rewrite reverse_Permutation.
  assert (∀ acc, foldl canonical_order_step acc s ≡ₚ s ++ acc) as H.
  { induction s as [|c s IH]; intros acc; simpl; [done|].
    rewrite IH, canonical_order_step_Permutation.
    by rewrite Permutation_middle. }
  rewrite (H []). by rewrite app_nil_r.
Qed.

Lemma canonical_order_starters s :
  Forall (λ c, combining c = 0%N) s → canonical_order s = s.
Proof.
  intros Hs. unfold canonical_order.
  assert (∀ acc, foldl canonical_order_step acc s = reverse s ++ acc) as H.
  { induction Hs as [|c s Hc Hs IH]; intros acc; simpl; [done|].
    rewrite IH. unfold canonical_order_step. rewrite Hc. simpl.
    rewrite reverse_cons, <- app_assoc. done. }
  rewrite (H []), app_nil_r. apply reverse_involutive.
Qed.

Lemma lower_from_fixed before s : Forall lower_fixed s → lower_from before s = s.
Proof.
  intros Hs. revert before. induction Hs as [|c s [Hc Hne] Hs IH]; intros before; simpl; [done|].
  unfold lower_char. rewrite decide_False by done. rewrite Hc, IH. done.
Qed.

Lemma lower_from_Forall (P Q : N → Prop) before s :
  (∀ c, Q c → c ≠ capital_sigma → Forall P (tolower_full c)) →
  P small_sigma → P small_final_sigma →
  Forall Q s → Forall P (lower_from before s).
Proof.
  intros Hmap Hs1 Hs2 Hs. revert before.
  induction Hs as [|c s Hc Hs IH]; intros before; simpl; [done|].
  apply Forall_app. split; [|apply IH].
  unfold lower_char. destruct (decide (c = capital_sigma)).
  - constructor; [|done]. by destruct (final_sigma _ _).
  - by apply Hmap.
Qed.

Lemma lower_fixed_point s : Forall lower_fixed s → lower s = s.
Proof. apply lower_from_fixed. Qed.

Lemma bind_fixed (f : N → list N) s : Forall (λ c, f c = [c]) s → s ≫= f = s.
Proof.
  induction 1 as [|c s Hc Hs IH]; [done|].
  rewrite bind_cons, Hc, IH. done.
Qed.

Lemma nfd_elem c s : c ∈ nfd s → ∃ c0, c0 ∈ s ∧ c ∈ decomposition c0.
Proof.
  unfold nfd. rewrite canonical_order_Permutation.
  intros (c0 & ? & ?)%list_elem_of_bind. eauto.
Qed.

Lemma nfd_fixed s :
  Forall (λ c, decomposition c = [c] ∧ combining c = 0%N) s → nfd s = s.
Proof.
  intros Hs. unfold nfd. rewrite bind_fixed.
  - apply canonical_order_starters. eapply Forall_impl; [exact Hs|]. by intros c [_ ?].
  - eapply Forall_impl; [exact Hs|]. by intros c [? _].
Qed.

End operations.

(** Properties that need the three facts about the database. *)
Section well_formed.
Context {U : UCD} (Hwf : UCD_wf U).

Lemma nfd_decomposed s : Forall (λ d, decomposition d = [d]) (nfd s).
Proof.
  apply Forall_forall. intros d (c0 & _ & Hd)%nfd_elem.
  eapply decomposition_full; eauto.
Qed.

(** What is left of the decomposed string once the marks are removed. *)
Lemma kept_decomposed s :
  Forall (λ d, decomposition d = [d] ∧ category_is_Mn d = false)
         (filter (λ c, category_is_Mn c = false) (nfd s)).
Proof.
  apply Forall_forall. intros d [Hmn Hd]%list_elem_of_filter. split; [|done].
  pose proof (nfd_decomposed s) as H. rewrite Forall_forall in H. auto.
Qed.

Lemma lower_settled (P : N → Prop) s :
  (∀ c e, P c → combining e = combining c → P e) →
  P small_sigma → P small_final_sigma →
  Forall (λ d, (decomposition d = [d] ∧ category_is_Mn d = false) ∧ P d) s →
  Forall (λ e, settled e ∧ P e) (lower s).
Proof.
  intros HP Hs1 Hs2 Hs. unfold lower.
  eapply lower_from_Forall; [| | |exact Hs].
  - intros c [[Hd Hmn] HPc] Hne. apply Forall_forall. intros e He.
    destruct (lowercase_settled U Hwf c e Hd Hmn Hne He) as [? Hcc]. split; [done|].
    eapply HP; eauto.
  - split; [apply (small_sigma_settled U Hwf) | done].
  - split; [apply (small_final_sigma_settled U Hwf) | done].
Qed.

End well_formed.

(** The excerpt of the database has the three facts. *)
Lemma lookup_table_Some {A} c (t : list (N * A)) v : lookup_table c t = Some v → (c, v) ∈ t.
Proof.
  unfold lookup_table. destruct (find _ t) as [[c' v']|] eqn:E; [|done].
  simpl. intros [= ->]. apply find_some in E as [Hin Heq].
  simpl in Heq. apply N.eqb_eq in Heq as ->. by apply list_elem_of_In.
Qed.

Lemma decomposition_table_full :
  Forall (λ entry, Forall (λ d, lookup_table d decomposition_table = None) entry.2)
         decomposition_table.
Proof. apply (bool_decide_unpack _). vm_compute. done. Qed.

#[local] Existing Instance ucd14.

#[local] Instance settled_dec c : Decision (settled c).
Proof. unfold settled, lower_fixed. apply _. Defined.

Lemma lowercase_table_settled :
  Forall (λ entry : N * list N,
            decomposition entry.1 = [entry.1] → category_is_Mn entry.1 = false →
            Forall (λ e, settled e ∧ combining e = combining entry.1) entry.2)
         lowercase_table.
Proof. apply (bool_decide_unpack _). vm_compute. done. Qed.

Lemma ucd14_wf : UCD_wf ucd14.
Proof.
  split.
  - intros c d. simpl.
    destruct (lookup_table c decomposition_table) as [l|] eqn:E; simpl.
    + intros Hd. apply lookup_table_Some in E.
      pose proof decomposition_table_full as H. rewrite Forall_forall in H.
      specialize (H _ E). simpl in H. rewrite Forall_forall in H. by rewrite (H d Hd).
    + intros ->%list_elem_of_singleton. by rewrite E.
  - intros c e Hd Hmn Hne. simpl.
    destruct (lookup_table c lowercase_table) as [l|] eqn:E; simpl.
    + intros He. apply lookup_table_Some in E.
      pose proof lowercase_table_settled as H. rewrite Forall_forall in H.
      specialize (H _ E Hd Hmn). rewrite Forall_forall in H. by apply H.
    + intros ->%list_elem_of_singleton. split; [|done].
      split; [done|]. split; [done|]. split; [|done]. simpl. by rewrite E.
  - apply (bool_decide_unpack _). vm_compute. done.
  - apply (bool_decide_unpack _). vm_compute. done.
Qed.

End UnicodeFacts.

(** *** [normalize_text] *)

Module NormalizerFacts.
Import Unicode UnicodeFacts.

Lemma inversiones_normalize_text_same {U : UCD} text :
  Inversiones.normalize_text text = App.normalize_text text.
Proof. reflexivity. Qed.

Section well_formed.
Context {U : UCD} (Hwf : UCD_wf U).

#[local] Abbreviation not_Mn := (λ c : N, category_is_Mn c = false).

(** The string that [normalize_text] returns. *)
Lemma normalize_text_str s :
  App.normalize_text (PyStr s) = PyStr (strip (lower (filter not_Mn (nfd s)))).
Proof. reflexivity. Qed.

Lemma normalized_settled (P : N → Prop) s :
  (∀ c e, P c → combining e = combining c → P e) →
  P small_sigma → P small_final_sigma →
  Forall P (filter not_Mn (nfd s)) →
  Forall (λ e, settled e ∧ P e) (strip (lower (filter not_Mn (nfd s)))).
Proof.
  intros HP H1 H2 Hs. apply strip_Forall, (lower_settled Hwf P); [done..|].
  apply Forall_and. split; [apply (kept_decomposed Hwf) | done].
Qed.

(** On settled starters the normalizer only strips. *)
Lemma normalize_text_settled s :
  Forall (λ c, settled c ∧ combining c = 0%N) s →
  App.normalize_text (PyStr s) = PyStr (strip s).
Proof.
  intros Hs. rewrite normalize_text_str. do 2 f_equal.
  rewrite nfd_fixed.
  - rewrite filter_all.
    + apply lower_fixed_point. eapply Forall_impl; [exact Hs|]. by intros c [(_ & _ & ?) _].
    + eapply Forall_impl; [exact Hs|]. by intros c [(_ & ? & _) _].
  - eapply Forall_impl; [exact Hs|]. by intros c [(? & _ & _) ?].
Qed.

(** Idempotence, whenever canonical ordering has nothing to move once the
    marks are gone. *)
Lemma normalize_text_idempotent_tame s :
  (∀ c d, c ∈ s → d ∈ decomposition c → ¬ unruly d) →
  App.normalize_text (App.normalize_text (PyStr s)) = App.normalize_text (PyStr s).
Proof.
  intros Htame. rewrite (normalize_text_str s).
  set (r := strip _).
  assert (Forall (λ e, settled e ∧ combining e = 0%N) r) as Hr.
  { apply (normalized_settled (λ c, combining c = 0%N)).
    - intros c e Hc ->. done.
    - apply (small_sigma_settled U Hwf).
    - apply (small_final_sigma_settled U Hwf).
    - apply Forall_forall. intros d [Hmn (c0 & Hc0 & Hd)%nfd_elem]%list_elem_of_filter.
      destruct (decide (combining d = 0%N)) as [|Hne]; [done|].
      destruct (Htame c0 d Hc0 Hd). by split. }
  rewrite (normalize_text_settled r Hr). f_equal. apply strip_idempotent.
Qed.

End well_formed.

#[local] Instance unruly_dec {U : UCD} c : Decision (unruly c).
Proof. unfold unruly. apply _. Defined.

Lemma tame_sample :
  ∀ c d, c ∈ Narino_spaced → d ∈ decomposition (UCD := ucd14) c → ¬ unruly (U := ucd14) d.
Proof.
  assert (Forall (λ c, Forall (λ d, ¬ unruly (U := ucd14) d) (decomposition (UCD := ucd14) c))
                 Narino_spaced) as H.
  { apply (bool_decide_unpack _). vm_compute. exact I. }
  intros c d Hc Hd. rewrite Forall_forall in H. specialize (H c Hc).
  rewrite Forall_forall in H. exact (H d Hd).
Defined.

(** C7, as stated, fails.  With the marks U+302E (category Mc, class 224),
    U+034F (category Mn, class 0) and U+1D165 (category Mc, class 216) in
    this order, the first pass removes U+034F, the only [Mn] character, and
    leaves U+302E U+1D165; in the second pass the decomposition step sorts
    these two by class and returns U+1D165 U+302E. *)
Lemma normalize_text_twice_differs :
  App.normalize_text (U := ucd14) (App.normalize_text (U := ucd14) (PyStr tone_joiner_stem))
  ≠ App.normalize_text (U := ucd14) (PyStr tone_joiner_stem).
Proof. vm_compute. discriminate. Qed.

(** C7, amended: [normalize_text] is idempotent on every string none of
    whose characters decomposes into a combining character of non-zero
    class whose category is not [Mn]. *)
Theorem normalize_text_idempotent {U : UCD} (s : list N) :
  UCD_wf U →
  (∀ c d, c ∈ s → d ∈ decomposition c → ¬ unruly d) →
  App.normalize_text (App.normalize_text (PyStr s)) = App.normalize_text (PyStr s).
Proof. intros Hwf Htame. by apply normalize_text_idempotent_tame. Qed.

Lemma normalize_text_idempotent_witness :
  UCD_wf ucd14 ∧
  (∀ c d, c ∈ Narino_spaced → d ∈ decomposition (UCD := ucd14) c → ¬ unruly (U := ucd14) d) ∧
  App.normalize_text (U := ucd14) (App.normalize_text (U := ucd14) (PyStr Narino_spaced))
  = App.normalize_text (U := ucd14) (PyStr Narino_spaced).
Proof.
  split; [exact ucd14_wf|]. split; [exact tame_sample|].
  exact (normalize_text_idempotent (U := ucd14) Narino_spaced ucd14_wf tame_sample).
Defined.

(** C8: on a string, [normalize_text] returns the decomposed form with
    exactly its [Mn] characters removed, then lowered and stripped: the
    result is trimmed, is its own lowercase and holds no [Mn] character; a
    string of settled starters (digits, punctuation, lowercase letters) only
    loses its outer white space.  The two sample strings normalize as the
    specification says.  Any other object is returned as it is. *)
Theorem normalize_text_contract {U : UCD} :
  UCD_wf U →
  (∀ s, ∃ r,
      App.normalize_text (PyStr s) = PyStr r ∧
      r = strip (lower (filter (λ c, category_is_Mn c = false) (nfd s))) ∧
      trimmed r ∧ lower r = r ∧ Forall (λ c, category_is_Mn c = false) r) ∧
  (∀ s c, c ∈ filter (λ c, category_is_Mn c = false) (nfd s)
          ↔ c ∈ nfd s ∧ category_is_Mn c = false) ∧
  (∀ s, filter (λ c, category_is_Mn c = false) (nfd s) `sublist_of` nfd s) ∧
  (∀ s, Forall (λ c, settled c ∧ combining c = 0%N) s →
        App.normalize_text (PyStr s) = PyStr (strip s)) ∧
  App.normalize_text (U := ucd14) (PyStr Bogota_DC) = PyStr bogota_dc ∧
  App.normalize_text (U := ucd14) (PyStr Narino_spaced) = PyStr narino ∧
  (∀ text, (∀ s, text ≠ PyStr s) → App.normalize_text text = text).
Proof.
  intros Hwf.
  split; [|split; [|split; [|split; [|split; [|split]]]]].
  - intros s. eexists. split; [reflexivity|]. split; [reflexivity|].
    assert (Forall (λ e, settled e ∧ True)
              (strip (lower (filter (λ c, category_is_Mn c = false) (nfd s))))) as Hr.
    { apply (normalized_settled Hwf (λ _, True)); auto. by apply Forall_true. }
    split; [apply strip_trimmed|]. split.
    + apply lower_fixed_point. eapply Forall_impl; [exact Hr|]. by intros c [(_ & _ & ?) _].
    + eapply Forall_impl; [exact Hr|]. by intros c [(_ & ? & _) _].
  - intros s c. rewrite list_elem_of_filter. tauto.
  - intros s. apply sublist_filter.
  - intros s. apply normalize_text_settled.
  - by vm_compute.
  - by vm_compute.
  - intros text Hns. destruct text; try reflexivity. by destruct (Hns s).
Qed.

Lemma normalize_text_contract_witness :
  UCD_wf ucd14 ∧
  App.normalize_text (U := ucd14) (PyStr Bogota_DC) = PyStr bogota_dc.
Proof.
  split; [exact ucd14_wf|].
  exact (proj1 (proj2 (proj2 (proj2 (proj2
           (normalize_text_contract (U := ucd14) ucd14_wf)))))).
Defined.

End NormalizerFacts.

(** *** [get_inflation_factors] *)

Module InflationFacts.
Import App.

(** [min] returns a least element of a non-empty list. *)
Lemma foldl_min_spec l x :
  foldl Z.min x l ≤ x ∧ Forall (λ y, foldl Z.min x l ≤ y) l ∧
  (foldl Z.min x l = x ∨ foldl Z.min x l ∈ l).
Proof.
  revert x. induction l as [|y l IH]; intros x; simpl.
  - split; [lia|]. split; [constructor|by left].
  - destruct (IH (Z.min x y)) as (Hle & Hall & Hin).
    split; [lia|]. split.
    + constructor; [lia | exact Hall].
    + destruct Hin as [Heq|Hin].
      * rewrite Heq. destruct (Z.min_spec x y) as [[_ E]|[_ E]]; rewrite E.
        -- by left.
        -- right. by left.
      * right. by right.
Qed.

Lemma py_min_spec l m : py_min l = Returned m → m ∈ l ∧ Forall (λ y, m ≤ y) l.
Proof.
  destruct l as [|x l]; simpl; [done|]. intros [= <-].
  destruct (foldl_min_spec l x) as (Hle & Hall & Hin). split.
  - destruct Hin as [->|Hin]; [by left | by right].
  - by constructor.
Qed.

Lemma elem_of_keys (d : gmap Z Q) y : y ∈ keys d ↔ is_Some (d !! y).
Proof.
  unfold keys. rewrite list_elem_of_fmap. split.
  - intros ([k v] & -> & Hkv). apply elem_of_map_to_list in Hkv. by exists v.
  - intros [v Hv]. exists (y, v). split; [done|]. by apply elem_of_map_to_list.
Qed.

Lemma elem_of_sorted l y : y ∈ sorted l ↔ y ∈ l.
Proof. unfold sorted. by rewrite merge_sort_Permutation. Qed.

Lemma StronglySorted_le_lt (l : list Z) :
  NoDup l → StronglySorted Z.le l → StronglySorted Z.lt l.
Proof.
  induction 2 as [|x l Hl IH Hx]; [constructor|].
  apply NoDup_cons in H as [Hnotin Hnd].
  constructor; [by apply IH|].
  rewrite Forall_forall in Hx |- *. intros y Hy.
  specialize (Hx y Hy). assert (x ≠ y) by (intros ->; done). lia.
Qed.

(** The years, in the order of the loop: strictly ascending. *)
Lemma sorted_keys_strict (d : gmap Z Q) : StronglySorted Z.lt (sorted (keys d)).
Proof.
  apply StronglySorted_le_lt.
  - unfold sorted. rewrite merge_sort_Permutation. apply NoDup_fst_map_to_list.
  - apply StronglySorted_merge_sort; apply _.
Qed.

Lemma index_loop_raised ipc_data e l :
  foldl (ipc_index_step ipc_data) (Raised e) l = Raised e.
Proof. induction l as [|y l IH]; simpl; [done | exact IH]. Qed.

(** One turn of the index loop, when it succeeds. *)
Lemma ipc_index_step_Returned ipc_data acc year ipc_index :
  ipc_index_step ipc_data acc year = Returned ipc_index →
  ∃ before previous rate,
    acc = Returned before ∧ before !! (year - 1) = Some previous ∧
    ipc_data !! year = Some rate ∧
    ipc_index = <[year := (previous * (1 + rate / 100))%Q]> before.
Proof.
  unfold ipc_index_step, getitem. destruct acc as [e|before]; simpl; [done|].
  destruct (before !! (year - 1)) as [previous|] eqn:Hp; simpl; [|done].
  destruct (ipc_data !! year) as [rate|] eqn:Hr; simpl; [|done].
  intros [= <-]. eauto 10.
Qed.

(** The index once the loop is over: the anchor holds 100, the indexed
    years are the anchor and the years of the loop, and every year of the
    loop holds the compounded value of the year before it. *)
Lemma index_loop_spec ipc_data anchor l ipc_index :
  StronglySorted Z.lt l → Forall (λ y, anchor < y) l →
  foldl (ipc_index_step ipc_data) (Returned {[anchor := 100%Q]}) l = Returned ipc_index →
  ipc_index !! anchor = Some 100%Q ∧
  (∀ y, is_Some (ipc_index !! y) ↔ y = anchor ∨ y ∈ l) ∧
  (∀ y, y ∈ l → ∃ previous rate,
      ipc_index !! (y - 1) = Some previous ∧ ipc_data !! y = Some rate ∧
      ipc_index !! y = Some (previous * (1 + rate / 100))%Q).
Proof.
  revert ipc_index. induction l as [|x l IH] using rev_ind; intros ipc_index Hsorted Hgt.
  - simpl. intros [= <-]. split; [apply lookup_singleton_eq|]. split.
    + intros y. rewrite elem_of_nil.
      destruct (decide (y = anchor)) as [->|Hne].
      * rewrite lookup_singleton_eq. split; [by left | by eexists].
      * rewrite lookup_singleton_ne by done. split; [by intros [? ?] | by intros [?|?]].
    + intros y Hy. by apply elem_of_nil in Hy.
  - rewrite foldl_snoc. intros Hstep.
    apply ipc_index_step_Returned in Hstep as (before & previous & rate & Hbefore & Hp & Hr & ->).
    apply StronglySorted_app in Hsorted as (Hlt & Hsl & _).
    apply Forall_app in Hgt as [Hgl Hgx]. rewrite Forall_singleton in Hgx.
    destruct (IH before Hsl Hgl Hbefore) as (Hanchor & Hdom & Hrec).
    assert (∀ y, y ∈ l → y < x) as Hlx.
    { intros y Hy. apply Hlt; [done | by apply list_elem_of_singleton]. }
    split; [|split].
    + rewrite lookup_insert_ne by lia. exact Hanchor.
    + intros y. rewrite lookup_insert_is_Some, Hdom, elem_of_app, list_elem_of_singleton.
      destruct (decide (x = y)) as [->|]; intuition congruence.
    + intros y [Hy| ->%list_elem_of_singleton]%elem_of_app.
      * specialize (Hlx y Hy). destruct (Hrec y Hy) as (p & r & ? & ? & ?).
        exists p, r. rewrite !lookup_insert_ne by lia. done.
      * exists previous, rate. rewrite lookup_insert_ne by lia.
        rewrite lookup_insert_eq. done.
Qed.

(** A property of the index values that the compounding preserves holds of
    every value of the index. *)
Lemma index_loop_invariant (P : Q → Prop) (R : Q → Prop) ipc_data l start ipc_index :
  (∀ previous rate, P previous → R rate → P (previous * (1 + rate / 100))%Q) →
  (∀ y rate, ipc_data !! y = Some rate → R rate) →
  map_Forall (λ _, P) start →
  foldl (ipc_index_step ipc_data) (Returned start) l = Returned ipc_index →
  map_Forall (λ _, P) ipc_index.
Proof.
  intros HP HR. revert start. induction l as [|x l IH]; intros start Hstart; cbn [foldl].
  - by intros [= <-].
  - destruct (ipc_index_step ipc_data (Returned start) x) as [e|next] eqn:Hstep.
    + by rewrite index_loop_raised.
    + apply IH.
      apply ipc_index_step_Returned in Hstep as (before & p & r & [= <-] & Hp & Hr & ->).
      apply map_Forall_insert_2; [|done]. apply HP; [|by eapply HR].
      exact (Hstart _ _ Hp).
Qed.

(** The whole index, when [build_ipc_index] returns it. *)
Lemma build_ipc_index_spec ipc_data ipc_index :
  build_ipc_index ipc_data = Returned ipc_index →
  ∃ first,
    py_min (keys ipc_data) = Returned first ∧
    is_Some (ipc_data !! first) ∧
    (∀ y, is_Some (ipc_data !! y) → first ≤ y) ∧
    ipc_index !! (first - 1) = Some 100%Q ∧
    (∀ y, is_Some (ipc_index !! y) ↔ y = first - 1 ∨ is_Some (ipc_data !! y)) ∧
    (∀ y rate, ipc_data !! y = Some rate →
       ∃ previous, ipc_index !! (y - 1) = Some previous ∧
                   ipc_index !! y = Some (previous * (1 + rate / 100))%Q).
Proof.
  unfold build_ipc_index.
  destruct (py_min (keys ipc_data)) as [e|first] eqn:Hmin; simpl; [done|].
  intros Hloop. exists first.
  apply py_min_spec in Hmin as [Hin Hle]. rewrite Forall_forall in Hle.
  assert (∀ y, is_Some (ipc_data !! y) → first ≤ y) as Hleast.
  { intros y Hy. by apply Hle, elem_of_keys. }
  apply index_loop_spec in Hloop as (Hanchor & Hdom & Hrec).
  - split; [done|]. split; [by apply elem_of_keys|]. split; [done|].
    split; [done|]. split.
    + intros y. by rewrite Hdom, elem_of_sorted, elem_of_keys.
    + intros y rate Hy.
      destruct (Hrec y) as (previous & rate' & Hp & Hr & Hv).
      { apply elem_of_sorted, elem_of_keys. by eexists. }
      exists previous. split; [done|]. congruence.
  - apply sorted_keys_strict.
  - apply Forall_forall. intros y Hy%elem_of_sorted%elem_of_keys.
    specialize (Hleast y Hy). lia.
Qed.

Lemma build_ipc_index_invariant (P R : Q → Prop) ipc_data ipc_index :
  P 100%Q →
  (∀ previous rate, P previous → R rate → P (previous * (1 + rate / 100))%Q) →
  (∀ y rate, ipc_data !! y = Some rate → R rate) →
  build_ipc_index ipc_data = Returned ipc_index →
  map_Forall (λ _, P) ipc_index.
Proof.
  intros H100 HP HR. unfold build_ipc_index.
  destruct (py_min (keys ipc_data)) as [e|first]; simpl; [done|].
  apply (index_loop_invariant P R); [done..|].
  by apply map_Forall_singleton.
Qed.

(** In exact arithmetic, compounding a rate above -100 keeps an index value
    positive. *)
Lemma compound_positive (previous rate : Q) :
  (0 < previous)%Q → (-100 < rate)%Q → (0 < previous * (1 + rate / 100))%Q.
Proof.
  intros Hp Hr. apply Qmult_lt_0_compat; [done|].
  assert (1 + rate / 100 == (rate + - -100) / 100)%Q as -> by field.
  apply Qlt_shift_div_l; [done|]. rewrite Qmult_0_l.
  by apply (Qlt_minus_iff (-100) rate).
Qed.

(** The factor loop: with no zero in the index every division succeeds and
    the table holds [base_ipc / index_val] for each indexed year. *)
Lemma factors_loop_inserts base_ipc l acc :
  Forall (λ item : Z * Q, ¬ (item.2 == 0)%Q) l →
  foldl (factors_step base_ipc) (Returned acc) l
  = Returned (foldl (λ m item, <[item.1 := (base_ipc / item.2)%Q]> m) acc l).
Proof.
  intros Hl. revert acc. induction Hl as [|[y v] l Hv Hl IH]; intros acc; cbn [foldl]; [done|].
  rewrite <- IH. f_equal. unfold factors_step, truediv. simpl.
  destruct (Qeq_bool v 0) eqn:E; [|done]. by apply Qeq_bool_eq in E.
Qed.

Lemma inserts_list_to_map (g : Q → Q) (l : list (Z * Q)) :
  NoDup l.*1 →
  foldl (λ m item, <[item.1 := g item.2]> m) (∅ : gmap Z Q) l
  = list_to_map (prod_map id g <$> l).
Proof.
  induction l as [|[y v] l IH] using rev_ind; [done|]. intros Hnd.
  rewrite fmap_app in Hnd. apply NoDup_app in Hnd as (Hl & Hfresh & _).
  rewrite foldl_snoc, fmap_app, IH by done. simpl.
  rewrite list_to_map_snoc; [done|].
  intros Hin. apply (Hfresh y); [|by left].
  rewrite <- list_fmap_compose in Hin.
  by rewrite (list_fmap_ext _ fst l) in Hin.
Qed.

Lemma build_factors_spec base_ipc (ipc_index : gmap Z Q) :
  map_Forall (λ _ v, ¬ (v == 0)%Q) ipc_index →
  build_factors base_ipc ipc_index = Returned ((λ v, base_ipc / v)%Q <$> ipc_index).
Proof.
  intros Hnz. unfold build_factors. rewrite factors_loop_inserts.
  - f_equal. rewrite (inserts_list_to_map (λ v, base_ipc / v)%Q).
    + by rewrite list_to_map_fmap, list_to_map_to_list.
    + apply NoDup_fst_map_to_list.
  - apply Forall_forall. intros [y v] Hyv%elem_of_map_to_list. exact (Hnz y v Hyv).
Qed.

(** A zero in the index makes the factor loop raise. *)
Lemma factors_loop_raised base_ipc e l :
  foldl (factors_step base_ipc) (Raised e) l = Raised e.
Proof. induction l as [|y l IH]; cbn [foldl]; [done | exact IH]. Qed.

(** The two ways [get_inflation_factors] returns. *)
Lemma get_inflation_factors_None ipc_data base_year ipc_index :
  build_ipc_index ipc_data = Returned ipc_index →
  falsy (ipc_index !! base_year) = true →
  get_inflation_factors ipc_data base_year
  = Run [st_warning (BaseYearNotFound base_year)] (Returned None).
Proof.
  intros Hidx Hfalsy. unfold get_inflation_factors. rewrite Hidx.
  unfold mbind, M_bind. simpl. rewrite Hfalsy. reflexivity.
Qed.

Lemma get_inflation_factors_Some ipc_data base_year ipc_index base_ipc :
  build_ipc_index ipc_data = Returned ipc_index →
  map_Forall (λ _ v, ¬ (v == 0)%Q) ipc_index →
  ipc_index !! base_year = Some base_ipc →
  get_inflation_factors ipc_data base_year
  = Run [] (Returned (Some ((λ v, base_ipc / v)%Q <$> ipc_index))).
Proof.
  intros Hidx Hnz Hbase. unfold get_inflation_factors. rewrite Hidx.
  unfold mbind, M_bind. simpl. rewrite Hbase. simpl.
  destruct (Qeq_bool base_ipc 0) eqn:E.
  { apply Qeq_bool_eq in E. by destruct (Hnz _ _ Hbase). }
  rewrite build_factors_spec by done. reflexivity.
Qed.

(** The index loop runs to its end when every year but the first follows
    a year of the table. *)
Lemma index_loop_total ipc_data anchor l :
  StronglySorted Z.lt l →
  (∀ y, y ∈ l → is_Some (ipc_data !! y)) →
  (∀ y, y ∈ l → y - 1 = anchor ∨ y - 1 ∈ l) →
  ∃ ipc_index,
    foldl (ipc_index_step ipc_data) (Returned {[anchor := 100%Q]}) l = Returned ipc_index ∧
    (∀ y, y = anchor ∨ y ∈ l → is_Some (ipc_index !! y)).
Proof.
  induction l as [|x l IH] using rev_ind; intros Hsorted Hrates Hprev.
  - eexists. split; [reflexivity|]. intros y [->|Hy].
    + rewrite lookup_singleton_eq. by eexists.
    + by apply elem_of_nil in Hy.
  - apply StronglySorted_app in Hsorted as (Hlt & Hsl & _).
    assert (∀ y, y ∈ l → y < x) as Hlx.
    { intros y Hy. apply Hlt; [done | by apply list_elem_of_singleton]. }
    destruct IH as (before & Hbefore & Hdom); [done| | |].
    { intros y Hy. apply Hrates, elem_of_app. by left. }
    { intros y Hy. destruct (Hprev y) as [?|Hin]; [apply elem_of_app; by left|by left|].
      apply elem_of_app in Hin as [?|Hx%list_elem_of_singleton]; [by right|].
      specialize (Hlx y Hy). lia. }
    destruct (Hdom (x - 1)) as [previous Hp].
    { destruct (Hprev x) as [?|Hin]; [apply elem_of_app; right; by left|by left|].
      apply elem_of_app in Hin as [?|Hx%list_elem_of_singleton]; [by right|lia]. }
    destruct (Hrates x) as [rate Hr]; [apply elem_of_app; right; by left|].
    exists (<[x := (previous * (1 + rate / 100))%Q]> before). split.
    + rewrite foldl_snoc, Hbefore. unfold ipc_index_step, getitem. simpl.
      rewrite Hp. simpl. rewrite Hr. reflexivity.
    + intros y Hy. apply lookup_insert_is_Some.
      destruct (decide (x = y)) as [|Hne]; [by left|]. right. split; [done|].
      apply Hdom. destruct Hy as [?|Hin]; [by left|].
      apply elem_of_app in Hin as [?|Hx%list_elem_of_singleton]; [by right|congruence].
Qed.

(** [build_ipc_index] returns an index for every non-empty table of
    consecutive years. *)
Lemma build_ipc_index_total (ipc_data : gmap Z Q) :
  ipc_data ≠ ∅ →
  (∀ y, is_Some (ipc_data !! y) →
        is_Some (ipc_data !! (y - 1)) ∨ ∀ z, is_Some (ipc_data !! z) → y ≤ z) →
  ∃ ipc_index, build_ipc_index ipc_data = Returned ipc_index.
Proof.
  intros Hne Hconsecutive. unfold build_ipc_index.
  destruct (py_min (keys ipc_data)) as [e|first] eqn:Hmin.
  { unfold py_min in Hmin. destruct (keys ipc_data) eqn:Hk; [|done].
    unfold keys in Hk. apply fmap_nil_inv, map_to_list_empty_iff in Hk. done. }
  apply py_min_spec in Hmin as [Hin Hle]. rewrite Forall_forall in Hle. simpl.
  destruct (index_loop_total ipc_data (first - 1) (sorted (keys ipc_data)))
    as (ipc_index & Hloop & _); [| | |by exists ipc_index].
  - apply sorted_keys_strict.
  - intros y Hy. by apply elem_of_keys, elem_of_sorted.
  - intros y Hy. rewrite elem_of_sorted in Hy. pose proof (Hle y Hy) as Hfy.
    destruct (Hconsecutive y) as [Hprev|Hleast]; [by apply elem_of_keys| |].
    + right. by apply elem_of_sorted, elem_of_keys.
    + left. specialize (Hleast first (proj1 (elem_of_keys _ _) Hin)). lia.
Qed.

Lemma sample_index_built : build_ipc_index sample_rates = Returned sample_index.
Proof. vm_compute. reflexivity. Qed.

End InflationFacts.
(** *** The filter cascade and the aggregates *)

Module PipelineFacts.
Import App InflationFacts.

Lemma restrict_filter selected col (dff : list row) :
  restrict selected col dff = filter (λ r, passes selected (col r)) dff.
Proof.
  unfold restrict, passes. destruct selected as [|s selected].
  - symmetry. induction dff as [|r dff IH]; [done|].
    rewrite filter_cons_True by (by left). by rewrite IH.
  - apply list_filter_iff. intros r. split; [by right|]. by intros [?|?].
Qed.

(** The cascade is one filter by the conjunction of its four tests. *)
Lemma cascade_filter fs df_base : cascade fs df_base = filter (keeps fs) df_base.
Proof.
  unfold cascade, between. rewrite !restrict_filter, !list_filter_filter.
  apply list_filter_iff. intros r. unfold keeps. tauto.
Qed.

Lemma mapM_value_nominal (df : list row) :
  mapM (value Valorpagado) df = Returned (valorpagado <$> df).
Proof.
  induction df as [|r df IH]; [done|].
  change (mapM (value Valorpagado) (r :: df))
    with (y ← value Valorpagado r; k ← mapM (value Valorpagado) df; mret (y :: k)).
  rewrite IH. reflexivity.
Qed.

Lemma mapM_value_adjusted factors (df : list row) :
  mapM (value ValorpagadoAjustado) (set_valorpagado_ajustado factors <$> df)
  = Returned (adjusted factors <$> df).
Proof.
  induction df as [|r df IH]; [done|].
  rewrite fmap_cons.
  change (mapM (value ValorpagadoAjustado) (?x :: ?l))
    with (y ← value ValorpagadoAjustado x; k ← mapM (value ValorpagadoAjustado) l; mret (y :: k)).
  rewrite IH. reflexivity.
Qed.

(** The three ways the main processing ends. *)
Lemma process_with_nominal ipc_data base_year df_base fs :
  adjust_inflation fs = false →
  process_with ipc_data base_year df_base fs
  = Run [] (Returned {| dff := cascade fs df_base;
                        valor_columna := Valorpagado; display_mode := Nominal |}).
Proof. intros H. unfold process_with. rewrite H. reflexivity. Qed.

Lemma process_with_adjusted ipc_data base_year df_base fs factors :
  adjust_inflation fs = true →
  get_inflation_factors ipc_data base_year = Run [] (Returned (Some factors)) →
  factors ≠ ∅ →
  process_with ipc_data base_year df_base fs
  = Run [] (Returned {| dff := set_valorpagado_ajustado factors <$> cascade fs df_base;
                        valor_columna := ValorpagadoAjustado;
                        display_mode := Real base_year |}).
Proof.
  intros H Hget Hne. unfold process_with. rewrite H, Hget.
  unfold mbind, M_bind. simpl. rewrite bool_decide_false by done. reflexivity.
Qed.

Lemma process_with_fallback ipc_data base_year df_base fs warning :
  adjust_inflation fs = true →
  get_inflation_factors ipc_data base_year = Run [warning] (Returned None) →
  process_with ipc_data base_year df_base fs
  = Run [warning] (Returned {| dff := cascade fs df_base;
                               valor_columna := Valorpagado; display_mode := Nominal |}).
Proof.
  intros H Hget. unfold process_with. rewrite H, Hget. reflexivity.
Qed.

(** The table of the script: its index is built, holds the base year, and
    every factor is positive. *)
Lemma IPC_ANUAL_above_minus_100 :
  ∀ y rate, IPC_ANUAL !! y = Some rate → (-100 < rate)%Q.
Proof.
  apply (map_Forall_lookup (λ _ rate, (-100 < rate)%Q)).
  apply (bool_decide_unpack _). vm_compute. exact I.
Qed.

Lemma positive_factors ipc_data base_year ipc_index :
  (∀ y rate, ipc_data !! y = Some rate → (-100 < rate)%Q) →
  build_ipc_index ipc_data = Returned ipc_index →
  is_Some (ipc_index !! base_year) →
  ∃ factors,
    get_inflation_factors ipc_data base_year = Run [] (Returned (Some factors)) ∧
    factors ≠ ∅ ∧
    (∀ y, 0 < default 1 (factors !! y))%Q.
Proof.
  intros Hrates Hidx [base_ipc Hbase].
  assert (map_Forall (λ _ v, (0 < v)%Q) ipc_index) as Hpos.
  { apply (build_ipc_index_invariant (λ v, (0 < v)%Q) (λ r, (-100 < r)%Q) ipc_data);
      [done | apply compound_positive | done | done]. }
  exists ((λ v, base_ipc / v)%Q <$> ipc_index). split; [|split].
  - apply (get_inflation_factors_Some _ _ ipc_index base_ipc); [done| |done].
    intros y v Hv E. specialize (Hpos y v Hv). simpl in Hpos. rewrite E in Hpos.
    by apply Qlt_irrefl in Hpos.
  - intros E. apply fmap_empty_inv in E. by rewrite E in Hbase.
  - intros y. rewrite lookup_fmap. destruct (ipc_index !! y) as [v|] eqn:Hv; simpl; [|done].
    apply Qlt_shift_div_l; [exact (Hpos y v Hv)|]. rewrite Qmult_0_l. exact (Hpos _ _ Hbase).
Qed.

Lemma IPC_ANUAL_factors :
  ∃ factors,
    get_inflation_factors IPC_ANUAL BASE_YEAR_INFLATION = Run [] (Returned (Some factors)) ∧
    factors ≠ ∅ ∧
    (∀ y, 0 < default 1 (factors !! y))%Q.
Proof.
  destruct (build_ipc_index IPC_ANUAL) as [e|ipc_index] eqn:Hidx.
  { vm_compute in Hidx. discriminate. }
  apply (positive_factors IPC_ANUAL BASE_YEAR_INFLATION ipc_index);
    [exact IPC_ANUAL_above_minus_100 | done |].
  apply (build_ipc_index_spec IPC_ANUAL ipc_index) in Hidx as (first & _ & _ & _ & _ & Hdom & _).
  apply Hdom. right. vm_compute. by eexists.
Qed.

(** What the main processing of the script returns, given its factors. *)
Lemma process_spec factors df_base fs :
  get_inflation_factors IPC_ANUAL BASE_YEAR_INFLATION = Run [] (Returned (Some factors)) →
  factors ≠ ∅ →
  ∃ v,
    process df_base fs = Run [] (Returned v) ∧
    dff v = (if adjust_inflation fs
             then set_valorpagado_ajustado factors <$> filter (keeps fs) df_base
             else filter (keeps fs) df_base) ∧
    valor_columna v = (if adjust_inflation fs then ValorpagadoAjustado else Valorpagado).
Proof.
  intros Hget Hne. unfold process. destruct (adjust_inflation fs) eqn:Hadj.
  - eexists. split; [exact (process_with_adjusted _ _ _ _ _ Hadj Hget Hne)|]. simpl.
    rewrite cascade_filter. split; reflexivity.
  - eexists. split; [exact (process_with_nominal _ _ _ _ Hadj)|]. simpl.
    rewrite cascade_filter. split; reflexivity.
Qed.

(** A wider selection passes what a narrower one passes. *)
Lemma passes_widens a b c : widens a b → passes a c → passes b c.
Proof.
  unfold widens, passes. intros [->|[Hne Hsub]]; [by left|].
  intros [->|Hin]; [done|]. right.
  destruct c as [s|]; simpl in *; [by apply Hsub | done].
Qed.

(** C4: when the base year is absent from the computed index,
    [get_inflation_factors] warns and returns [None], raising nothing; the
    main processing, with the adjustment requested, then carries that one
    warning, keeps the filtered rows as they are and aggregates the nominal
    column. *)
Theorem missing_base_year_falls_back ipc_data base_year ipc_index :
  build_ipc_index ipc_data = Returned ipc_index →
  ipc_index !! base_year = None →
  get_inflation_factors ipc_data base_year
  = Run [st_warning (BaseYearNotFound base_year)] (Returned None) ∧
  ∀ df_base fs, adjust_inflation fs = true →
    ∃ v,
      process_with ipc_data base_year df_base fs
      = Run [st_warning (BaseYearNotFound base_year)] (Returned v) ∧
      dff v = filter (keeps fs) df_base ∧
      valor_columna v = Valorpagado ∧
      display_mode v = Nominal ∧
      total_pagado v = Returned (Qsum (valorpagado <$> filter (keeps fs) df_base)).
Proof.
  intros Hidx Hbase.
  assert (get_inflation_factors ipc_data base_year
          = Run [st_warning (BaseYearNotFound base_year)] (Returned None)) as Hget.
  { apply (get_inflation_factors_None _ _ ipc_index); [done|]. by rewrite Hbase. }
  split; [done|]. intros df_base fs Hadj. eexists.
  split; [by apply process_with_fallback|]. simpl.
  rewrite cascade_filter. split; [done|]. split; [done|]. split; [done|].
  unfold total_pagado, column_sum. simpl. by rewrite mapM_value_nominal.
Qed.

Lemma missing_base_year_falls_back_witness :
  build_ipc_index sample_rates = Returned sample_index ∧
  sample_index !! 2023 = None ∧
  get_inflation_factors sample_rates 2023
  = Run [st_warning (BaseYearNotFound 2023)] (Returned None).
Proof.
  split; [exact sample_index_built|]. split; [reflexivity|].
  exact (proj1 (missing_base_year_falls_back sample_rates 2023 sample_index
                  sample_index_built eq_refl)).
Defined.

(** C5: for every base table and filter state, the script's processing
    raises nothing and warns of nothing; its frame holds exactly the rows of
    the base table, in their order, whose year lies in the selected range
    and whose region, sub-region and funding source each belong to the
    selected set or meet an empty set; and the amount it aggregates is, with
    the adjustment requested, the paid amount times the factor of the row's
    year (1 for a year without factor), and the paid amount otherwise. *)
Theorem process_filters_and_adjusts df_base fs :
  ∃ factors v,
    get_inflation_factors IPC_ANUAL BASE_YEAR_INFLATION = Run [] (Returned (Some factors)) ∧
    process df_base fs = Run [] (Returned v) ∧
    (∀ r, keeps fs r ↔
       ((selected_vigencia_range fs).1 ≤ vigencia r ≤ (selected_vigencia_range fs).2) ∧
       (selected_departamentos fs = [] ∨
        ∃ s, departamento r = Some s ∧ s ∈ selected_departamentos fs) ∧
       (selected_municipios fs = [] ∨
        ∃ s, municipio r = Some s ∧ s ∈ selected_municipios fs) ∧
       (selected_fuentes fs = [] ∨
        ∃ s, fuentefinanciacion r = Some s ∧ s ∈ selected_fuentes fs)) ∧
    dff v = (if adjust_inflation fs
             then set_valorpagado_ajustado factors <$> filter (keeps fs) df_base
             else filter (keeps fs) df_base) ∧
    mapM (value (valor_columna v)) (dff v)
    = Returned ((λ r, if adjust_inflation fs
                      then (valorpagado r * default 1 (factors !! vigencia r))%Q
                      else valorpagado r) <$> filter (keeps fs) df_base) ∧
    total_pagado v
    = Returned (Qsum ((λ r, if adjust_inflation fs
                            then (valorpagado r * default 1 (factors !! vigencia r))%Q
                            else valorpagado r) <$> filter (keeps fs) df_base)).
Proof.
  destruct IPC_ANUAL_factors as (factors & Hget & Hne & _).
  destruct (process_spec factors df_base fs Hget Hne) as (v & Hv & Hdff & Hcol).
  exists factors, v. split; [exact Hget|]. split; [exact Hv|]. clear Hget Hv. split.
  { intros r. unfold keeps, passes.
    assert (∀ sel c, isin sel c ↔ ∃ s, c = Some s ∧ s ∈ sel) as Hisin.
    { intros sel [s|]; simpl.
      - split; [intros ?; by exists s | by intros (? & [= <-] & ?)].
      - split; [done | by intros (? & ? & ?)]. }
    rewrite !Hisin. tauto. }
  split; [done|].
  assert (mapM (value (valor_columna v)) (dff v)
          = Returned ((λ r, if adjust_inflation fs
                            then (valorpagado r * default 1 (factors !! vigencia r))%Q
                            else valorpagado r) <$> filter (keeps fs) df_base)) as Hvalues.
  { rewrite Hdff, Hcol. destruct (adjust_inflation fs).
    - apply mapM_value_adjusted.
    - apply mapM_value_nominal. }
  split; [done|]. unfold total_pagado, column_sum. by rewrite Hvalues.
Qed.

End PipelineFacts.
(** *** [get_base_data] *)

Module AcquirerFacts.
Import Pandas.

Lemma mapM_Returned {A B} (f : A → outcome B) l k :
  mapM f l = Returned k → Forall2 (λ a b, f a = Returned b) l k.
Proof.
  revert k. induction l as [|a l IH]; intros k.
  - intros [= <-]. constructor.
  - change (mapM f (a :: l)) with (y ← f a; k ← mapM f l; mret (y :: k)).
    destruct (f a) as [e|b] eqn:Ha; simpl; [done|].
    destruct (mapM f l) as [e|k'] eqn:Hl; simpl; [done|].
    intros [= <-]. constructor; [done | by apply IH].
Qed.

Lemma zip_with_Forall2 {A B C} (h : A → B → C) (R : A → B → Prop) l k c :
  Forall2 R l k → c ∈ zip_with h l k → ∃ a b, a ∈ l ∧ R a b ∧ c = h a b.
Proof.
  induction 1 as [|a b l k Hab Hlk IH]; simpl.
  - by intros ?%elem_of_nil.
  - intros [->|Hc]%elem_of_cons.
    + exists a, b. split; [by left | done].
    + destruct (IH Hc) as (a' & b' & ? & ? & ?). exists a', b'. split; [by right | done].
Qed.

(** Assigning to a column values computed from that same column. *)
Lemma setitem_map (g : cell → cell) df col :
  rows (setitem df col (g <$> ((λ r, cell_at r col) <$> rows df)))
  = (λ r, <[col := g (cell_at r col)]> r) <$> rows df.
Proof.
  unfold setitem. cbn [rows]. induction (rows df) as [|r l IH]; [done|].
  rewrite !fmap_cons. cbn [zip_with]. by rewrite IH.
Qed.

Lemma cell_at_insert r col v : cell_at (<[col := v]> r) col = v.
Proof. unfold cell_at. by rewrite lookup_insert_eq. Qed.

Lemma cell_at_insert_ne r col col' v :
  col ≠ col' → cell_at (<[col := v]> r) col' = cell_at r col'.
Proof. intros H. unfold cell_at. by rewrite lookup_insert_ne. Qed.

Lemma cell_at_record (rec : gmap string string) col :
  cell_at (Str <$> rec) col = from_option Str Missing (rec !! col).
Proof. unfold cell_at. rewrite lookup_fmap. by destruct (rec !! col). Qed.

Section get_base_data.
Variable to_float : string → npfloat.

Lemma bind_Returned {A B} (m : outcome A) (f : A → outcome B) b :
  m ≫= f = Returned b → ∃ a, m = Returned a ∧ f a = Returned b.
Proof. destruct m as [e|a]; simpl; [done|]. by exists a. Qed.

Lemma getitem_Returned df col cells :
  getitem df col = Returned cells → cells = (λ r, cell_at r col) <$> rows df.
Proof. unfold getitem. case_bool_decide; [|done]. by intros [= <-]. Qed.

(** The frame that the [try] block of [app.py] returns: each of its rows
    comes from a fetched record whose year and amount are both present and
    both denote a number; the year is held as an integer, the amount as
    that number. *)
Lemma app_fetch_rows w df r :
  App.fetch to_float w = Returned df → r ∈ rows df →
  ∃ status l rec year amount z,
    w = Reply status (Some (Records l)) ∧ rec ∈ l ∧
    rec !! "vigencia" = Some year ∧ to_float year ≠ NaN ∧
    rec !! "valorpagado" = Some amount ∧ to_float amount ≠ NaN ∧
    cell_at r "vigencia" = IntCell z ∧
    cell_at r "valorpagado" = Num (to_float amount).
Proof.
  unfold App.fetch. intros H Hr.
  apply bind_Returned in H as ([status content] & Hresp & H).
  apply bind_Returned in H as (_ & _ & H).
  apply bind_Returned in H as (data & Hdata & H).
  apply bind_Returned in H as (df0 & Hdf0 & H).
  apply bind_Returned in H as (vigencia & ->%getitem_Returned & H). cbv zeta in H.
  apply bind_Returned in H as (valorpagado & ->%getitem_Returned & H). cbv zeta in H.
  apply bind_Returned in H as (vigencia & ->%getitem_Returned & H).
  apply bind_Returned in H as (ints & Hints & H).
  injection H as <-.
  destruct w as [[|]|status' content']; simpl in Hresp; [done..|].
  injection Hresp as -> ->.
  unfold response_json in Hdata. simpl in Hdata.
  destruct content as [data'|]; [|done]. injection Hdata as ->.
  destruct data as [l|o]; cycle 1.
  { simpl in Hdf0. destruct (decide (o = ∅)); [|done]. injection Hdf0 as <-.
    by apply elem_of_nil in Hr. }
  injection Hdf0 as <-.
  apply mapM_Returned, Forall2_fmap_l in Hints.
  unfold setitem at 1 in Hr. cbn [rows] in Hr.
  destruct (zip_with_Forall2 _ _ _ _ _ Hints Hr) as (r3 & v & Hr3 & Hv & ->).
  cbn beta in Hv.
  unfold dropna in Hr3. cbn [rows] in Hr3.
  apply list_elem_of_filter in Hr3 as [Hna Hr3].
  apply Forall_cons in Hna as [Hna1 Hna2]. apply Forall_cons in Hna2 as [Hna2 _].
  rewrite setitem_map in Hr3.
  apply list_elem_of_fmap in Hr3 as (r1 & -> & Hr1).
  rewrite setitem_map in Hr1.
  apply list_elem_of_fmap in Hr1 as (r0 & -> & Hr0).
  cbn [rows] in Hr0.
  apply list_elem_of_fmap in Hr0 as (rec & -> & Hrec).
  unfold compose in Hv.
  repeat first [ rewrite cell_at_insert in Hna1 | rewrite cell_at_insert_ne in Hna1 by done ].
  repeat first [ rewrite cell_at_insert in Hna2 | rewrite cell_at_insert_ne in Hna2 by done ].
  repeat first [ rewrite cell_at_insert in Hv | rewrite cell_at_insert_ne in Hv by done ].
  repeat first [ rewrite cell_at_insert | rewrite cell_at_insert_ne by done ].
  rewrite cell_at_record in Hna1, Hna2, Hv |- *.
  destruct (rec !! "vigencia") as [year|] eqn:Hyear; simpl in *; [|done].
  destruct (rec !! "valorpagado") as [amount|] eqn:Hamount; simpl in *; [|done].
  destruct (to_float year) as [x| | |] eqn:Hx; simpl in *; try done.
  injection Hv as <-.
  exists status, l, rec, year, amount. eexists.
  split; [done|]. split; [done|]. split; [done|]. split; [by rewrite Hx|].
  split; [done|]. split; [by destruct (to_float amount)|]. done.
Qed.

(** [get_base_data] of [app.py] returns the frame of its [try] block or,
    with one error shown, the empty frame; it raises nothing. *)
Lemma app_get_base_data_cases w :
  (∃ df, App.fetch to_float w = Returned df ∧
         App.get_base_data to_float w = Run [] (Returned df)) ∨
  (∃ e, App.fetch to_float w = Raised e ∧
        App.get_base_data to_float w = Run [st_error (LoadFailed e)] (Returned empty_frame)).
Proof.
  unfold App.get_base_data, try_except, lift. simpl.
  destruct (App.fetch to_float w) as [e|df]; simpl.
  - right. by exists e.
  - left. by exists df.
Qed.

(** In the table that [get_base_data] of [app.py] returns, year and amount
    are present and numeric in every row. *)
Lemma app_base_table_numeric w df r :
  result (App.get_base_data to_float w) = Returned df → r ∈ rows df →
  (∃ z, cell_at r "vigencia" = IntCell z) ∧
  (∃ x, cell_at r "valorpagado" = Num x ∧ x ≠ NaN).
Proof.
  destruct (app_get_base_data_cases w) as [(df' & Hfetch & ->)|(e & _ & ->)]; simpl.
  - intros [= ->] Hr.
    destruct (app_fetch_rows w df r Hfetch Hr)
      as (? & ? & ? & ? & amount & z & _ & _ & _ & _ & _ & Hnan & Hy & Ha).
    split; [by exists z | by exists (to_float amount)].
  - intros [= <-] Hr. by apply elem_of_nil in Hr.
Qed.

(** [get_base_data] of [inversiones.py] handles what [requests] raises:
    a failed transport, an error status, a body that is not JSON. *)
Lemma inversiones_handles_requests_failures w :
  match w with
  | NoReply _ | Reply _ None => True
  | Reply status _ => 400 ≤ status < 600
  end →
  ∃ call, Inversiones.get_base_data to_float w = Run [call] (Returned empty_frame).
Proof.
  unfold Inversiones.get_base_data, try_except, lift, Inversiones.fetch.
  destruct w as [[|]|status [j|]]; simpl; intros Hw.
  - by eexists.
  - by eexists.
  - unfold raise_for_status. simpl. rewrite bool_decide_true by done. simpl. by eexists.
  - unfold raise_for_status. simpl. case_bool_decide; simpl; by eexists.
Qed.

(** C1 does not hold of [inversiones.py], whose [get_base_data] coerces the
    two columns and drops nothing, where the one of [app.py] drops the rows
    with a failed coercion ([app_base_table_numeric]).  The source answers
    with two records, the second without amount: the returned table keeps
    that record, its amount NaN. *)
Theorem inversiones_keeps_row_without_amount :
  ∃ df r,
    Inversiones.get_base_data to_float answer_two_records = Run [] (Returned df) ∧
    r ∈ rows df ∧
    cell_at r "valorpagado" = Num NaN.
Proof.
  eexists _, _. split; [vm_compute; reflexivity|]. split.
  - right. left.
  - vm_compute. reflexivity.
Qed.

(** C2 does not hold of [inversiones.py], whose [get_base_data] catches the
    exceptions of [requests] only, where the one of [app.py] catches every
    exception ([app_get_base_data_cases]).  The source answers with an
    empty array: the frame has no column, reading the year column raises
    [KeyError], no clause catches it and it leaves the function. *)
Theorem inversiones_raises_on_empty_answer :
  Inversiones.get_base_data to_float answer_no_records
  = Run [] (Raised (KeyError (StrKey "vigencia"))).
Proof. vm_compute. reflexivity. Qed.

(** The same escape with an answer that is one JSON object. *)
Lemma inversiones_raises_on_scalar_object o :
  Inversiones.get_base_data to_float (Reply 200 (Some (ScalarObject o)))
  = Run [] (Raised (if decide (o = ∅) then KeyError (StrKey "vigencia") else ValueError)).
Proof.
  unfold Inversiones.get_base_data, try_except, lift, Inversiones.fetch.
  cbn [requests_get mbind outcome_bind result]. unfold raise_for_status. cbn [fst].
  rewrite bool_decide_false by lia.
  cbn [mbind outcome_bind response_json snd pd_DataFrame].
  destruct (decide (o = ∅)); reflexivity.
Qed.

(** [app.py], on the same answers. *)
Lemma app_returns_on_empty_answer :
  App.get_base_data to_float answer_no_records
  = Run [st_error (LoadFailed (KeyError (StrKey "vigencia")))] (Returned empty_frame).
Proof. vm_compute. reflexivity. Qed.

End get_base_data.
End AcquirerFacts.

(** *** Binary64: signs and magnitudes *)

Module FloatFacts.
Import Binary64.

Lemma div_eucl_multiple (q b : Z) : 0 < b → Z.div_eucl (q * b) b = (q, 0).
Proof.
  intros Hb.
  pose proof (Z.div_mul q b ltac:(lia)) as Hq. pose proof (Z.mod_mul q b ltac:(lia)) as Hr.
  unfold Z.div, Z.modulo in Hq, Hr.
  destruct (Z.div_eucl (q * b) b) as [q' r]. simpl in Hq, Hr. by subst.
Qed.

Lemma SFdiv_core_self (m : positive) (e : Z) :
  SpecFloat.SFdiv_core_binary prec emax (Zpos m) e (Zpos m) e
  = (9007199254740992, -53, SpecFloat.loc_Exact).
Proof.
  unfold SpecFloat.SFdiv_core_binary.
  replace (SpecFloat.Zdigits2 (Z.pos m) + e - (SpecFloat.Zdigits2 (Z.pos m) + e)) with 0 by lia.
  replace (e - e) with 0 by lia.
  change (Z.min (SpecFloat.fexp prec emax 0) 0) with (-53).
  change (0 - -53) with 53. cbv zeta iota.
  rewrite Z.shiftl_mul_pow2 by lia.
  rewrite (Z.mul_comm (Z.pos m)), (div_eucl_multiple (2 ^ 53) (Z.pos m)) by lia.
  f_equal. unfold SpecFloat.new_location.
  by destruct (Z.even (Z.pos m)).
Qed.

(** A finite non-zero float divided by itself is 1.0 exactly. *)
Lemma div_self s m e :
  div (SpecFloat.S754_finite s m e) (SpecFloat.S754_finite s m e) = one.
Proof.
  unfold div, SpecFloat.SFdiv. rewrite SFdiv_core_self.
  destruct s; reflexivity.
Qed.


Lemma dg_pos p : 1 ≤ dg p.
Proof. unfold dg. lia. Qed.

Lemma dg_bounds p : 2 ^ (dg p - 1) ≤ Zpos p < 2 ^ dg p.
Proof.
  unfold dg. induction p as [p IH|p IH|]; cbn [SpecFloat.digits2_pos].
  - rewrite Pos2Z.inj_succ.
    replace (Z.succ (Z.pos (SpecFloat.digits2_pos p)) - 1)
      with (Z.succ (Z.pos (SpecFloat.digits2_pos p) - 1)) by lia.
    rewrite !Z.pow_succ_r by lia. lia.
  - rewrite Pos2Z.inj_succ.
    replace (Z.succ (Z.pos (SpecFloat.digits2_pos p)) - 1)
      with (Z.succ (Z.pos (SpecFloat.digits2_pos p) - 1)) by lia.
    rewrite !Z.pow_succ_r by lia. lia.
  - by vm_compute.
Qed.

Lemma dg_unique p d : 2 ^ (d - 1) ≤ Zpos p < 2 ^ d → dg p = d.
Proof.
  intros [Hlo Hhi]. pose proof (dg_bounds p) as [Hlo' Hhi']. pose proof (dg_pos p).
  assert (0 < d).
  { destruct (Z_lt_le_dec 0 d); [done|].
    assert (2 ^ d ≤ 1); [|lia].
    destruct (Z.eq_dec d 0) as [->|]; [done|]. rewrite Z.pow_neg_r by lia. lia. }
  destruct (Z.lt_trichotomy (dg p) d) as [Hlt|[Heq|Hgt]]; [|done|].
  - assert (2 ^ dg p ≤ 2 ^ (d - 1)) by (apply Z.pow_le_mono_r; lia). lia.
  - assert (2 ^ d ≤ 2 ^ (dg p - 1)) by (apply Z.pow_le_mono_r; lia). lia.
Qed.

Lemma dg_mono p q : (p ≤ q)%positive → dg p ≤ dg q.
Proof.
  intros Hpq. pose proof (dg_bounds p) as [Hp _]. pose proof (dg_bounds q) as [_ Hq].
  destruct (Z_lt_le_dec (dg q) (dg p)) as [Hlt|]; [|done].
  assert (2 ^ dg q ≤ 2 ^ (dg p - 1)) by (apply Z.pow_le_mono_r; lia). lia.
Qed.


(** Dropping the [n] low digits of a number of more than [n] digits. *)
Lemma dg_shiftr p n :
  0 ≤ n < dg p → ∃ q, Zpos p / 2 ^ n = Zpos q ∧ dg q = dg p - n.
Proof.
  intros Hn. pose proof (dg_bounds p) as [Hlo Hhi].
  assert (0 < 2 ^ n) as Hpos by (apply Z.pow_pos_nonneg; lia).
  assert (2 ^ (dg p - n - 1) ≤ Zpos p / 2 ^ n) as Hq_lo.
  { apply Z.div_le_lower_bound; [done|].
    rewrite <- Z.pow_add_r by lia. by replace (n + (dg p - n - 1)) with (dg p - 1) by lia. }
  assert (Zpos p / 2 ^ n < 2 ^ (dg p - n)) as Hq_hi.
  { apply Z.div_lt_upper_bound; [done|].
    rewrite <- Z.pow_add_r by lia. by replace (n + (dg p - n)) with (dg p) by lia. }
  assert (0 < 2 ^ (dg p - n - 1)) by (apply Z.pow_pos_nonneg; lia).
  destruct (Zpos p / 2 ^ n) as [|q|q] eqn:E; [lia| |lia].
  exists q. split; [done|]. apply dg_unique. by split.
Qed.

(** The shifts of the rounding. *)
Lemma shr_1_m mrs : 0 ≤ SpecFloat.shr_m mrs → SpecFloat.shr_m (SpecFloat.shr_1 mrs) = SpecFloat.shr_m mrs / 2.
Proof.
  destruct mrs as [m r s]. simpl. intros Hm.
  destruct m as [|[p|p|]|p]; simpl; try done.
  - rewrite Pos2Z.inj_xI. apply (Z.div_unique _ 2 _ 1); lia.
  - rewrite Pos2Z.inj_xO. apply (Z.div_unique _ 2 _ 0); lia.
Qed.

Lemma iter_shr_m n mrs :
  0 ≤ SpecFloat.shr_m mrs →
  SpecFloat.shr_m (SpecFloat.iter_pos SpecFloat.shr_1 n mrs) = SpecFloat.shr_m mrs / 2 ^ Zpos n.
Proof.
  revert mrs. induction n as [n IH|n IH|]; intros mrs Hm; cbn [SpecFloat.iter_pos].
  - assert (0 ≤ SpecFloat.shr_m (SpecFloat.shr_1 mrs)) as H1.
    { rewrite shr_1_m by done. apply Z.div_pos; lia. }
    assert (0 ≤ SpecFloat.shr_m (SpecFloat.iter_pos SpecFloat.shr_1 n (SpecFloat.shr_1 mrs))) as H2.
    { rewrite IH by done. apply Z.div_pos; [done|]. apply Z.pow_pos_nonneg; lia. }
    rewrite IH, IH, shr_1_m by done.
    rewrite !Z.div_div by (try apply Z.pow_pos_nonneg; lia).
    f_equal. rewrite Pos2Z.inj_xI, <- Z.pow_add_r, <- (Z.pow_1_r 2) at 1 by lia.
    rewrite <- Z.pow_add_r by lia. f_equal. lia.
  - assert (0 ≤ SpecFloat.shr_m (SpecFloat.iter_pos SpecFloat.shr_1 n mrs)) as H2.
    { rewrite IH by done. apply Z.div_pos; [done|]. apply Z.pow_pos_nonneg; lia. }
    rewrite IH, IH by done.
    rewrite !Z.div_div by (try apply Z.pow_pos_nonneg; lia).
    f_equal. rewrite Pos2Z.inj_xO, <- Z.pow_add_r by lia. f_equal. lia.
  - rewrite shr_1_m by done. by rewrite Z.pow_1_r.
Qed.

Lemma fexp_64 x : SpecFloat.fexp prec emax x = Z.max (x - 53) (-1074).
Proof. reflexivity. Qed.

Lemma shr_record_m m l : SpecFloat.shr_m (SpecFloat.shr_record_of_loc m l) = m.
Proof. by destruct l as [|[]]. Qed.

Lemma shr_fexp_spec M E l :
  0 ≤ M →
  SpecFloat.shr_m (SpecFloat.shr_fexp prec emax M E l).1
  = M / 2 ^ Z.max 0 (SpecFloat.fexp prec emax (SpecFloat.Zdigits2 M + E) - E) ∧
  (SpecFloat.shr_fexp prec emax M E l).2
  = E + Z.max 0 (SpecFloat.fexp prec emax (SpecFloat.Zdigits2 M + E) - E).
Proof.
  intros HM. unfold SpecFloat.shr_fexp, SpecFloat.shr.
  destruct (SpecFloat.fexp prec emax (SpecFloat.Zdigits2 M + E) - E) as [|n|n]; cbn [fst snd].
  - rewrite shr_record_m. change (Z.max 0 0) with 0. rewrite Z.div_1_r. split; [done|lia].
  - rewrite iter_shr_m by (by rewrite shr_record_m). rewrite shr_record_m.
    by rewrite Z.max_r by lia.
  - rewrite shr_record_m. rewrite Z.max_l by lia. rewrite Z.div_1_r. split; [done|lia].
Qed.

Lemma round_nearest_even_bounds M l :
  M ≤ SpecFloat.round_nearest_even M l ≤ M + 1.
Proof.
  unfold SpecFloat.round_nearest_even.
  destruct l as [|[]]; try lia. destruct (Z.even M); lia.
Qed.

(** Rounding a positive number of magnitude one or more: the result is a
    positive float of magnitude one or more, or plus infinity. *)
Lemma binary_round_aux_big p E l :
  1 ≤ dg p + E → big (SpecFloat.binary_round_aux prec emax false (Zpos p) E l).
Proof.
  intros Hmag. unfold SpecFloat.binary_round_aux.
  destruct (shr_fexp_spec (Zpos p) E l ltac:(lia)) as [Hm1 He1].
  destruct (SpecFloat.shr_fexp prec emax (Z.pos p) E l) as [mrs1 e1]. cbn [fst snd] in Hm1, He1.
  rewrite fexp_64 in Hm1, He1. cbn [SpecFloat.Zdigits2] in Hm1, He1. fold (dg p) in Hm1, He1.
  pose proof (dg_pos p) as Hdp.
  destruct (dg_shiftr p (Z.max 0 (Z.max (dg p + E - 53) (-1074) - E)) ltac:(lia))
    as (q1 & Hq1 & Hd1).
  rewrite Hq1 in Hm1.
  pose proof (round_nearest_even_bounds (SpecFloat.shr_m mrs1)
                (SpecFloat.loc_of_shr_record mrs1)) as Hround.
  destruct (SpecFloat.round_nearest_even (SpecFloat.shr_m mrs1)
              (SpecFloat.loc_of_shr_record mrs1)) as [|q2|q2] eqn:Hq2; [lia| |lia].
  assert (dg q1 ≤ dg q2) as Hd2 by (apply dg_mono; lia).
  destruct (shr_fexp_spec (Zpos q2) e1 SpecFloat.loc_Exact ltac:(lia)) as [Hm3 He3].
  destruct (SpecFloat.shr_fexp prec emax (Z.pos q2) e1 SpecFloat.loc_Exact) as [mrs3 e3].
  cbn [fst snd] in Hm3, He3.
  rewrite fexp_64 in Hm3, He3. cbn [SpecFloat.Zdigits2] in Hm3, He3. fold (dg q2) in Hm3, He3.
  pose proof (dg_pos q2) as Hdq2.
  destruct (dg_shiftr q2 (Z.max 0 (Z.max (dg q2 + e1 - 53) (-1074) - e1)) ltac:(lia))
    as (q3 & Hq3 & Hd3).
  rewrite Hq3 in Hm3. rewrite Hm3.
  destruct (e3 <=? emax - prec); simpl; [|done]. lia.
Qed.






Lemma Zpos_iter_xO m d : Zpos (Pos.iter xO m d) = Zpos m * 2 ^ Zpos d.
Proof.
  induction d as [|d IH] using Pos.peano_ind.
  - simpl. lia.
  - rewrite Pos.iter_succ, Pos2Z.inj_xO, IH, Pos2Z.inj_succ, Z.pow_succ_r by lia. lia.
Qed.

Lemma dg_iter_xO m d : dg (Pos.iter xO m d) = dg m + Zpos d.
Proof.
  apply dg_unique. rewrite Zpos_iter_xO. pose proof (dg_bounds m) as [Hlo Hhi].
  pose proof (dg_pos m).
  assert (0 < 2 ^ Zpos d) by (apply Z.pow_pos_nonneg; lia).
  replace (dg m + Z.pos d - 1) with (dg m - 1 + Zpos d) by lia.
  rewrite !Z.pow_add_r by lia. nia.
Qed.

(** Aligning a mantissa to a smaller exponent keeps its magnitude. *)
Lemma shl_align_magnitude m e e' :
  dg (SpecFloat.shl_align m e e').1 + (SpecFloat.shl_align m e e').2 = dg m + e.
Proof.
  unfold SpecFloat.shl_align. destruct (e' - e) as [|d|d] eqn:E; cbn [fst snd]; [done..|].
  rewrite dg_iter_xO. lia.
Qed.


Lemma binary_round_big p E :
  1 ≤ dg p + E → big (SpecFloat.binary_round prec emax false p E).
Proof.
  intros Hmag. unfold SpecFloat.binary_round.
  pose proof (shl_align_magnitude p E
                (SpecFloat.fexp prec emax (Z.pos (SpecFloat.digits2_pos p) + E))) as Hal.
  destruct (SpecFloat.shl_align p E _) as [mz ez]. cbn [fst snd] in Hal.
  apply binary_round_aux_big. lia.
Qed.


Lemma big_positive x : big x → ltb zero x = true ∧ eqb x zero = false.
Proof. by destruct x as [|[]| |[] m e]. Qed.

End FloatFacts.

(** *** [get_inflation_factors] on floats *)

Module MachineInflationFacts.
Import Binary64 Machine FloatFacts.

Lemma elem_of_float_keys (d : gmap Z float) y : y ∈ keys d ↔ is_Some (d !! y).
Proof.
  unfold keys. rewrite list_elem_of_fmap. split.
  - intros ([k v] & -> & Hkv). apply elem_of_map_to_list in Hkv. by exists v.
  - intros [v Hv]. exists (y, v). split; [done|]. by apply elem_of_map_to_list.
Qed.

Lemma float_keys_strict (d : gmap Z float) : StronglySorted Z.lt (App.sorted (keys d)).
Proof.
  apply InflationFacts.StronglySorted_le_lt.
  - unfold App.sorted. rewrite merge_sort_Permutation. apply NoDup_fst_map_to_list.
  - apply StronglySorted_merge_sort; apply _.
Qed.


(** One turn of the index loop, when it succeeds. *)
Lemma float_index_step_Returned ipc_data acc year ipc_index :
  ipc_index_step ipc_data acc year = Returned ipc_index →
  ∃ before previous rate,
    acc = Returned before ∧ before !! (year - 1) = Some previous ∧
    ipc_data !! year = Some rate ∧
    ipc_index = <[year := mul previous (add one (div rate hundred))]> before.
Proof.
  unfold ipc_index_step, getitem. destruct acc as [e|before]; simpl; [done|].
  destruct (before !! (year - 1)) as [previous|] eqn:Hp; simpl; [|done].
  destruct (ipc_data !! year) as [rate|] eqn:Hr; simpl; [|done].
  intros [= <-]. eauto 10.
Qed.

(** The index once the loop is over. *)
Lemma float_index_loop_spec ipc_data anchor l ipc_index :
  StronglySorted Z.lt l → Forall (λ y, anchor < y) l →
  foldl (ipc_index_step ipc_data) (Returned {[anchor := hundred]}) l = Returned ipc_index →
  ipc_index !! anchor = Some hundred ∧
  (∀ y, is_Some (ipc_index !! y) ↔ y = anchor ∨ y ∈ l) ∧
  (∀ y, y ∈ l → ∃ previous rate,
      ipc_index !! (y - 1) = Some previous ∧ ipc_data !! y = Some rate ∧
      ipc_index !! y = Some (mul previous (add one (div rate hundred)))).
Proof.
  revert ipc_index. induction l as [|x l IH] using rev_ind; intros ipc_index Hsorted Hgt.
  - simpl. intros [= <-]. split; [apply lookup_singleton_eq|]. split.
    + intros y. rewrite elem_of_nil.
      destruct (decide (y = anchor)) as [->|Hne].
      * rewrite lookup_singleton_eq. split; [by left | by eexists].
      * rewrite lookup_singleton_ne by done. split; [by intros [? ?] | by intros [?|?]].
    + intros y Hy. by apply elem_of_nil in Hy.
  - rewrite foldl_snoc. intros Hstep.
    apply float_index_step_Returned in Hstep
      as (before & previous & rate & Hbefore & Hp & Hr & ->).
    apply StronglySorted_app in Hsorted as (Hlt & Hsl & _).
    apply Forall_app in Hgt as [Hgl Hgx]. rewrite Forall_singleton in Hgx.
    destruct (IH before Hsl Hgl Hbefore) as (Hanchor & Hdom & Hrec).
    assert (∀ y, y ∈ l → y < x) as Hlx.
    { intros y Hy. apply Hlt; [done | by apply list_elem_of_singleton]. }
    split; [|split].
    + rewrite lookup_insert_ne by lia. exact Hanchor.
    + intros y. rewrite lookup_insert_is_Some, Hdom, elem_of_app, list_elem_of_singleton.
      destruct (decide (x = y)) as [->|]; intuition congruence.
    + intros y [Hy| ->%list_elem_of_singleton]%elem_of_app.
      * specialize (Hlx y Hy). destruct (Hrec y Hy) as (p & r & ? & ? & ?).
        exists p, r. rewrite !lookup_insert_ne by lia. done.
      * exists previous, rate. rewrite lookup_insert_ne by lia.
        rewrite lookup_insert_eq. done.
Qed.


(** The whole index, when [build_ipc_index] returns it. *)
Lemma float_build_ipc_index_spec ipc_data ipc_index :
  build_ipc_index ipc_data = Returned ipc_index →
  ∃ first,
    App.py_min (keys ipc_data) = Returned first ∧
    ipc_index !! (first - 1) = Some hundred ∧
    (∀ y, is_Some (ipc_index !! y) ↔ y = first - 1 ∨ is_Some (ipc_data !! y)) ∧
    (∀ y rate, ipc_data !! y = Some rate →
       ∃ previous, ipc_index !! (y - 1) = Some previous ∧
                   ipc_index !! y = Some (mul previous (add one (div rate hundred)))).
Proof.
  unfold build_ipc_index.
  destruct (App.py_min (keys ipc_data)) as [e|first] eqn:Hmin; simpl; [done|].
  intros Hloop. exists first.
  apply InflationFacts.py_min_spec in Hmin as [Hin Hle]. rewrite Forall_forall in Hle.
  apply float_index_loop_spec in Hloop as (Hanchor & Hdom & Hrec).
  - split; [done|]. split; [done|]. split.
    + intros y. by rewrite Hdom, InflationFacts.elem_of_sorted, elem_of_float_keys.
    + intros y rate Hy.
      destruct (Hrec y) as (previous & rate' & Hp & Hr & Hv).
      { apply InflationFacts.elem_of_sorted, elem_of_float_keys. by eexists. }
      exists previous. split; [done|]. congruence.
  - apply float_keys_strict.
  - apply Forall_forall. intros y Hy. rewrite InflationFacts.elem_of_sorted in Hy.
    specialize (Hle y Hy). lia.
Qed.


(** The factor loop: with no zero in the index every division succeeds and
    the table holds [base_ipc / index_val] for each indexed year. *)
Lemma float_factors_loop_inserts base_ipc l acc :
  Forall (λ item : Z * float, eqb item.2 zero = false) l →
  foldl (factors_step base_ipc) (Returned acc) l
  = Returned (foldl (λ m item, <[item.1 := div base_ipc item.2]> m) acc l).
Proof.
  intros Hl. revert acc. induction Hl as [|[y v] l Hv Hl IH]; intros acc; cbn [foldl]; [done|].
  rewrite <- IH. f_equal. unfold factors_step, truediv. simpl in *. by rewrite Hv.
Qed.

Lemma float_inserts_list_to_map (g : float → float) (l : list (Z * float)) :
  NoDup l.*1 →
  foldl (λ m item, <[item.1 := g item.2]> m) (∅ : gmap Z float) l
  = list_to_map (prod_map id g <$> l).
Proof.
  induction l as [|[y v] l IH] using rev_ind; [done|]. intros Hnd.
  rewrite fmap_app in Hnd. apply NoDup_app in Hnd as (Hl & Hfresh & _).
  rewrite foldl_snoc, fmap_app, IH by done. simpl.
  rewrite list_to_map_snoc; [done|].
  intros Hin. apply (Hfresh y); [|by left].
  rewrite <- list_fmap_compose in Hin.
  by rewrite (list_fmap_ext _ fst l) in Hin.
Qed.

Lemma float_build_factors_spec base_ipc (ipc_index : gmap Z float) :
  map_Forall (λ _ v, eqb v zero = false) ipc_index →
  build_factors base_ipc ipc_index = Returned ((λ v, div base_ipc v) <$> ipc_index).
Proof.
  intros Hnz. unfold build_factors. rewrite float_factors_loop_inserts.
  - f_equal. rewrite (float_inserts_list_to_map (λ v, div base_ipc v)).
    + by rewrite list_to_map_fmap, list_to_map_to_list.
    + apply NoDup_fst_map_to_list.
  - apply Forall_forall. intros [y v] Hyv%elem_of_map_to_list. exact (Hnz y v Hyv).
Qed.

Lemma float_get_inflation_factors_Some ipc_data base_year ipc_index base_ipc :
  build_ipc_index ipc_data = Returned ipc_index →
  map_Forall (λ _ v, eqb v zero = false) ipc_index →
  ipc_index !! base_year = Some base_ipc →
  get_inflation_factors ipc_data base_year
  = Run [] (Returned (Some ((λ v, div base_ipc v) <$> ipc_index))).
Proof.
  intros Hidx Hnz Hbase. unfold get_inflation_factors. rewrite Hidx.
  unfold mbind, M_bind. simpl. rewrite Hbase. simpl.
  rewrite (Hnz _ _ Hbase). rewrite float_build_factors_spec by done. reflexivity.
Qed.

(** C3, as stated, fails.  With the rates 3.17 for 2010 and -100 for 2011
    and base year 2011, the year 2011 is in the computed index and its
    value is [100 * 1.0317 * (1 + -100 / 100)], the float zero: the test
    [not base_ipc] holds, and the function warns that the base year was not
    found and returns [None] instead of a table whose factor at 2011 is
    1.0. *)
Lemma zero_index_at_base_year :
  build_ipc_index collapse_rates = Returned (ipc_index_of collapse_rates) ∧
  ipc_index_of collapse_rates !! 2011 = Some zero ∧
  get_inflation_factors collapse_rates 2011
  = Run [st_warning (BaseYearNotFound 2011)] (Returned None).
Proof. split; [|split]; vm_compute; reflexivity. Qed.

(** C3, amended: for every rate table and every base year at which the
    computed index holds a finite value, the index holding no zero at any
    year, the index holds 100 at [min(years) - 1] and, for each year of the
    table, the float [index[year - 1] * (1 + rate[year] / 100)]; the
    function returns, without a warning, the table that maps every indexed
    year [Y] to the float [index[base_year] / index[Y]], and its factor at
    the base year is 1.0 exactly. *)
Theorem get_inflation_factors_correct ipc_data base_year ipc_index base_ipc :
  build_ipc_index ipc_data = Returned ipc_index →
  ipc_index !! base_year = Some base_ipc →
  is_finite base_ipc = true →
  (∀ year index_val, ipc_index !! year = Some index_val → eqb index_val zero = false) →
  ∃ first factors,
    App.py_min (keys ipc_data) = Returned first ∧
    ipc_index !! (first - 1) = Some hundred ∧
    (∀ year rate, ipc_data !! year = Some rate →
       ∃ previous, ipc_index !! (year - 1) = Some previous ∧
                   ipc_index !! year = Some (mul previous (add one (div rate hundred)))) ∧
    get_inflation_factors ipc_data base_year = Run [] (Returned (Some factors)) ∧
    (∀ year, factors !! year = (λ index_val, div base_ipc index_val) <$> ipc_index !! year) ∧
    factors !! base_year = Some one.
Proof.
  intros Hidx Hbase Hfinite Hnz.
  destruct (float_build_ipc_index_spec _ _ Hidx) as (first & Hmin & Hanchor & _ & Hrec).
  exists first, ((λ v, div base_ipc v) <$> ipc_index).
  split; [done|]. split; [done|]. split; [done|].
  split; [by apply (float_get_inflation_factors_Some _ _ ipc_index)|].
  split; [intros year; apply lookup_fmap|].
  rewrite lookup_fmap, Hbase. cbn [fmap option_fmap option_map]. f_equal.
  pose proof (Hnz _ _ Hbase) as Hz.
  destruct base_ipc as [s| | |s m e]; [by destruct s|done..|].
  apply div_self.
Qed.

Lemma get_inflation_factors_correct_witness :
  build_ipc_index IPC_ANUAL = Returned (ipc_index_of IPC_ANUAL) ∧
  is_Some (ipc_index_of IPC_ANUAL !! 2023) ∧
  ∃ factors,
    get_inflation_factors IPC_ANUAL 2023 = Run [] (Returned (Some factors)) ∧
    factors !! 2023 = Some one.
Proof.
  assert (build_ipc_index IPC_ANUAL = Returned (ipc_index_of IPC_ANUAL)) as Hidx
    by (vm_compute; reflexivity).
  split; [exact Hidx|]. split; [eexists; vm_compute; reflexivity|].
  destruct (get_inflation_factors_correct IPC_ANUAL 2023 (ipc_index_of IPC_ANUAL)
              (default zero (ipc_index_of IPC_ANUAL !! 2023)) Hidx)
    as (first & factors & _ & _ & _ & Hget & _ & Hone).
  - vm_compute. reflexivity.
  - vm_compute. reflexivity.
  - apply (map_Forall_lookup (λ _ v, eqb v zero = false)).
    apply (bool_decide_unpack _). vm_compute. exact I.
  - exists factors. split; [exact Hget | exact Hone].
Defined.




End MachineInflationFacts.

(** *** The totals and the comparison, with the numbers of the machine *)

Module MachinePipelineFacts.
Import Binary64 Machine FloatFacts.







(** A positive integer converts to a float that is not zero. *)
Lemma of_Z_positive z : 0 < z → eqb (of_Z z) zero = false.
Proof.
  intros Hz. destruct z as [|p|p]; [lia| |lia].
  apply big_positive. unfold of_Z. cbn [SpecFloat.binary_normalize].
  apply binary_round_big. pose proof (dg_pos p). lia.
Qed.

Lemma gt_zero_nonzero t : gt_zero t = true → eqb (to_float t) zero = false.
Proof.
  destruct t as [z|x]; simpl.
  - intros Hz%bool_decide_eq_true. by apply of_Z_positive.
  - by destruct x as [|[]| |[] m e].
Qed.

Section totals.
Variable float_sum : list float → float.

(** C6, amended: on a filtered table that is not empty, for every pair of
    periods, the delta is the float (period 2 total - period 1 total) /
    period 1 total * 100, computed with the arithmetic of the column,
    exactly when the total of period 1 is greater than zero, and the
    divisor is then not zero.  When it is not - a total that is zero,
    negative or not a number - no division takes place: the delta is
    reported as not available when the total of period 2 is greater than
    zero, and the metrics give way to a notice otherwise. *)
Theorem comparison_delta dff periodo1_range periodo2_range :
  empty dff = false →
  let total_p1 := column_sum float_sum (select (λ num, between periodo1_range) dff) in
  let total_p2 := column_sum float_sum (select (λ num, between periodo2_range) dff) in
  let diferencia := np_sub total_p2 total_p1 in
  (gt_zero total_p1 = true →
   eqb (to_float total_p1) zero = false ∧
   compare float_sum dff periodo1_range periodo2_range
   = Metrics total_p1 total_p2 diferencia
       (Percent (mul (div (to_float diferencia) (to_float total_p1)) hundred))) ∧
  (gt_zero total_p1 = false → gt_zero total_p2 = true →
   compare float_sum dff periodo1_range periodo2_range
   = Metrics total_p1 total_p2 diferencia NotAvailable) ∧
  (gt_zero total_p1 = false → gt_zero total_p2 = false →
   compare float_sum dff periodo1_range periodo2_range = NothingToCompare).
Proof.
  intros Hne. cbv zeta. unfold compare. rewrite Hne. cbv zeta.
  split; [|split].
  - intros H1. split; [by apply gt_zero_nonzero|]. by rewrite H1.
  - intros H1 H2. by rewrite H1, H2.
  - intros H1 H2. by rewrite H1, H2.
Qed.


End totals.

(** C6, as stated, fails.  In the frame with a refund, period 1 is the year
    2010 and totals -50, which is not zero, and period 2 totals 100: the
    test [total_p1 > 0] fails and the delta is reported as not
    available. *)
Lemma negative_total_not_available :
  empty with_refund = false ∧
  column_sum sum_left_to_right (select (λ num, between (2010, 2010)) with_refund) = Int64 (-50) ∧
  Int64 (-50) ≠ Int64 0 ∧
  compare sum_left_to_right with_refund (2010, 2010) (2011, 2011)
  = Metrics (Int64 (-50)) (Int64 100) (Int64 150) NotAvailable.
Proof. split; [|split; [|split]]; [reflexivity | reflexivity | done | reflexivity]. Qed.

Lemma comparison_delta_witness :
  empty two_regions = false ∧
  compare sum_left_to_right two_regions (2010, 2010) (2011, 2011)
  = Metrics (Int64 100) (Int64 150) (Int64 50) (Percent (of_Z 50)).
Proof.
  split; [reflexivity|].
  exact (proj2 (proj1 (comparison_delta sum_left_to_right two_regions (2010, 2010)
                         (2011, 2011) eq_refl) eq_refl)).
Defined.



End MachinePipelineFacts.
(** *** [get_inflation_factors]: when it raises, how it ends *)

Module InflationMore.
Import App InflationFacts.

(** The index loop, when it raises: it stopped at a year whose predecessor
    is neither the anchor nor a year met before. *)
Lemma index_loop_raises ipc_data anchor l e :
  StronglySorted Z.lt l → Forall (λ y, anchor < y) l →
  (∀ y, y ∈ l → is_Some (ipc_data !! y)) →
  foldl (ipc_index_step ipc_data) (Returned {[anchor := 100%Q]}) l = Raised e →
  ∃ pre y post,
    l = pre ++ y :: post ∧ e = KeyError (IntKey (y - 1)) ∧
    y - 1 ≠ anchor ∧ y - 1 ∉ pre.
Proof.
  induction l as [|x l IH] using rev_ind; intros Hsorted Hgt Hrates; [done|].
  rewrite foldl_snoc. intros Hstep.
  apply StronglySorted_app in Hsorted as (Hlt & Hsl & _).
  apply Forall_app in Hgt as [Hgl Hgx].
  assert (∀ y, y ∈ l → is_Some (ipc_data !! y)) as Hrl.
  { intros y Hy. apply Hrates, elem_of_app. by left. }
  destruct (foldl (ipc_index_step ipc_data) (Returned {[anchor := 100%Q]}) l)
    as [e'|before] eqn:Hbefore.
  - simpl in Hstep. injection Hstep as ->.
    destruct (IH Hsl Hgl Hrl eq_refl) as (pre & y & post & -> & He & Hna & Hnp).
    exists pre, y, (post ++ [x]). by rewrite <- app_assoc.
  - destruct (index_loop_spec _ _ _ _ Hsl Hgl Hbefore) as (_ & Hdom & _).
    unfold ipc_index_step, getitem in Hstep. simpl in Hstep.
    destruct (before !! (x - 1)) as [previous|] eqn:Hp; simpl in Hstep.
    + destruct (Hrates x) as [rate Hr]; [apply elem_of_app; right; by left|].
      by rewrite Hr in Hstep.
    + injection Hstep as <-. exists l, x, []. split; [done|]. split; [done|].
      assert (¬ is_Some (before !! (x - 1))) as Hnone by (rewrite Hp; by intros [? ?]).
      rewrite Hdom in Hnone. split; intros ?; apply Hnone; [by left | by right].
Qed.

Lemma elem_of_sorted_split (l : list Z) pre y post z :
  StronglySorted Z.lt l → l = pre ++ y :: post → z ∈ l → z < y → z ∈ pre.
Proof.
  intros Hsorted -> Hz Hlt.
  apply elem_of_app in Hz as [Hz|Hz]; [done|].
  apply StronglySorted_app in Hsorted as (_ & _ & Hs).
  apply StronglySorted_cons in Hs as [Hall _]. rewrite Forall_forall in Hall.
  apply elem_of_cons in Hz as [->|Hz]; [lia|]. specialize (Hall z Hz). lia.
Qed.

(** [build_ipc_index] sorts its outcomes by the shape of the table. *)
Lemma build_ipc_index_empty : build_ipc_index ∅ = Raised ValueError.
Proof. reflexivity. Qed.

Lemma build_ipc_index_Returned_consecutive ipc_data ipc_index :
  build_ipc_index ipc_data = Returned ipc_index → ipc_data ≠ ∅ ∧ consecutive ipc_data.
Proof.
  intros Hidx.
  destruct (build_ipc_index_spec _ _ Hidx) as (first & _ & Hfirst & Hleast & _ & Hdom & Hrec).
  split.
  - intros ->. destruct Hfirst as [? Hf]. by rewrite lookup_empty in Hf.
  - intros y [rate Hy]. destruct (Hrec y rate Hy) as (previous & Hp & _).
    assert (is_Some (ipc_index !! (y - 1))) as Hs by by eexists.
    apply Hdom in Hs as [Heq|Hs]; [|by left].
    right. intros z Hz. specialize (Hleast z Hz). lia.
Qed.

Lemma build_ipc_index_Raised ipc_data e :
  ipc_data ≠ ∅ → build_ipc_index ipc_data = Raised e →
  ∃ y, is_Some (ipc_data !! y) ∧ ipc_data !! (y - 1) = None ∧
       (∃ z, is_Some (ipc_data !! z) ∧ z < y) ∧
       e = KeyError (IntKey (y - 1)).
Proof.
  intros Hne. unfold build_ipc_index.
  destruct (py_min (keys ipc_data)) as [e'|first] eqn:Hmin.
  { unfold py_min in Hmin. destruct (keys ipc_data) eqn:Hk; [|done].
    unfold keys in Hk. apply fmap_nil_inv, map_to_list_empty_iff in Hk. done. }
  apply py_min_spec in Hmin as [Hin Hle]. rewrite Forall_forall in Hle. simpl.
  intros Hloop.
  pose proof (sorted_keys_strict ipc_data) as Hsorted.
  apply index_loop_raises in Hloop as (pre & y & post & Hl & -> & Hna & Hnp);
    [|done| |].
  - assert (y ∈ sorted (keys ipc_data)) as Hy.
    { rewrite Hl. apply elem_of_app. right. by left. }
    rewrite elem_of_sorted in Hy. pose proof (Hle y Hy) as Hfy.
    exists y. split; [by apply elem_of_keys|]. split; [|split; [|done]].
    + destruct (ipc_data !! (y - 1)) as [v|] eqn:Hv; [|done].
      destruct Hnp.
      apply (elem_of_sorted_split (sorted (keys ipc_data)) pre y post); [done|done| |lia].
      apply elem_of_sorted, elem_of_keys. by eexists.
    + exists first. split; [by apply elem_of_keys | lia].
  - apply Forall_forall. intros y Hy. rewrite elem_of_sorted in Hy.
    specialize (Hle y Hy). lia.
  - intros y Hy. rewrite elem_of_sorted in Hy. by apply elem_of_keys.
Qed.

(** X1: [get_inflation_factors] computes its index exactly for the
    non-empty rate tables of consecutive years.  On the empty table it
    raises [ValueError]; on a table with a gap it raises the [KeyError] of a
    missing year that precedes a year of the table; in both cases whatever
    the base year, and with no warning shown. *)
Theorem index_computed_iff_consecutive ipc_data base_year :
  ((∃ ipc_index, build_ipc_index ipc_data = Returned ipc_index)
   ↔ ipc_data ≠ ∅ ∧ consecutive ipc_data) ∧
  (ipc_data = ∅ → get_inflation_factors ipc_data base_year = Run [] (Raised ValueError)) ∧
  (ipc_data ≠ ∅ → ¬ consecutive ipc_data →
   ∃ y, is_Some (ipc_data !! y) ∧ ipc_data !! (y - 1) = None ∧
        (∃ z, is_Some (ipc_data !! z) ∧ z < y) ∧
        get_inflation_factors ipc_data base_year
        = Run [] (Raised (KeyError (IntKey (y - 1))))).
Proof.
  split; [|split].
  - split.
    + intros [ipc_index Hidx]. by eapply build_ipc_index_Returned_consecutive.
    + intros [Hne Hc]. by apply build_ipc_index_total.
  - intros ->. reflexivity.
  - intros Hne Hnc.
    destruct (build_ipc_index ipc_data) as [e|ipc_index] eqn:Hidx.
    + destruct (build_ipc_index_Raised _ _ Hne Hidx) as (y & Hy & Hp & Hz & ->).
      exists y. split; [done|]. split; [done|]. split; [done|].
      unfold get_inflation_factors. rewrite Hidx. reflexivity.
    + destruct Hnc. by eapply build_ipc_index_Returned_consecutive.
Qed.

Lemma gap_rates_not_consecutive : gap_rates ≠ ∅ ∧ ¬ consecutive gap_rates.
Proof.
  split; [by vm_compute|]. intros Hc.
  destruct (Hc 2012) as [[v Hv]|Hleast]; [by eexists | by vm_compute in Hv |].
  assert (2012 ≤ 2010); [|lia]. apply Hleast. by eexists.
Defined.

Lemma index_computed_iff_consecutive_witness :
  gap_rates ≠ ∅ ∧ ¬ consecutive gap_rates ∧
  ∃ y, get_inflation_factors gap_rates 2010 = Run [] (Raised (KeyError (IntKey (y - 1)))).
Proof.
  split; [exact (proj1 gap_rates_not_consecutive)|].
  split; [exact (proj2 gap_rates_not_consecutive)|].
  destruct (proj2 (proj2 (index_computed_iff_consecutive gap_rates 2010))
              (proj1 gap_rates_not_consecutive) (proj2 gap_rates_not_consecutive))
    as (y & _ & _ & _ & H).
  by exists y.
Defined.

(** The factor loop, read backwards: if it returns, no index value is zero;
    if an index value is zero, it raises [ZeroDivisionError]. *)
Lemma factors_loop_Returned base_ipc l acc factors :
  foldl (factors_step base_ipc) (Returned acc) l = Returned factors →
  Forall (λ item : Z * Q, ¬ (item.2 == 0)%Q) l.
Proof.
  revert acc. induction l as [|[y v] l IH]; intros acc; cbn [foldl]; [constructor|].
  unfold factors_step at 2, truediv. simpl.
  destruct (Qeq_bool v 0) eqn:E; simpl.
  - by rewrite factors_loop_raised.
  - intros H. constructor; [by apply Qeq_bool_neq | by eapply IH].
Qed.

Lemma factors_loop_zero base_ipc l acc :
  Exists (λ item : Z * Q, (item.2 == 0)%Q) l →
  foldl (factors_step base_ipc) (Returned acc) l = Raised ZeroDivisionError.
Proof.
  intros Hex. revert acc. induction l as [|[y v] l IH]; intros acc; [by inv Hex|].
  cbn [foldl]. unfold factors_step at 2, truediv. simpl.
  destruct (Qeq_bool v 0) eqn:E; simpl.
  - apply factors_loop_raised.
  - apply IH. inv Hex; [|done]. simpl in *. apply Qeq_bool_neq in E. done.
Qed.

(** What [get_inflation_factors] did, from what it gave back. *)
Lemma get_inflation_factors_inv ipc_data base_year c r :
  get_inflation_factors ipc_data base_year = Run c r →
  match build_ipc_index ipc_data with
  | Raised e => c = [] ∧ r = Raised e
  | Returned ipc_index =>
      match ipc_index !! base_year with
      | None => c = [st_warning (BaseYearNotFound base_year)] ∧ r = Returned None
      | Some base_ipc =>
          if Qeq_bool base_ipc 0
          then c = [st_warning (BaseYearNotFound base_year)] ∧ r = Returned None
          else c = [] ∧
               ((map_Forall (λ _ v, ¬ (v == 0)%Q) ipc_index ∧
                 r = Returned (Some ((λ v, base_ipc / v)%Q <$> ipc_index))) ∨
                ((∃ y v, ipc_index !! y = Some v ∧ (v == 0)%Q) ∧
                 r = Raised ZeroDivisionError))
      end
  end.
Proof.
  unfold get_inflation_factors.
  destruct (build_ipc_index ipc_data) as [e|ipc_index] eqn:Hidx.
  { by intros [= <- <-]. }
  unfold mbind, M_bind. simpl.
  destruct (ipc_index !! base_year) as [base_ipc|] eqn:Hbase; simpl.
  - destruct (Qeq_bool base_ipc 0) eqn:E; simpl.
    + by intros [= <- <-].
    + destruct (build_factors base_ipc ipc_index) as [e|factors] eqn:Hf; simpl.
      * intros [= <- <-]. split; [done|]. right.
        destruct (decide (map_Forall (λ _ v, ¬ (v == 0)%Q) ipc_index)) as [Hnz|Hz].
        { by rewrite build_factors_spec in Hf. }
        apply map_not_Forall in Hz as (y & v & Hv & Hz); [|apply _].
        assert (v == 0)%Q as Hv0 by (destruct (decide (v == 0)%Q); [done | by destruct Hz]).
        assert (build_factors base_ipc ipc_index = Raised ZeroDivisionError) as Hr.
        { apply factors_loop_zero, Exists_exists. exists (y, v).
          split; [by apply elem_of_map_to_list | done]. }
        rewrite Hr in Hf. injection Hf as <-. split; [|done]. by exists y, v.
      * intros [= <- <-]. split; [done|]. left.
        assert (map_Forall (λ _ v, ¬ (v == 0)%Q) ipc_index) as Hnz.
        { apply factors_loop_Returned in Hf. rewrite Forall_forall in Hf.
          intros y v Hv. apply (Hf (y, v)). by apply elem_of_map_to_list. }
        split; [done|]. rewrite build_factors_spec in Hf by done. by injection Hf as <-.
  - by intros [= <- <-].
Qed.

(** X2: every run of [get_inflation_factors] ends in one of four ways: it
    raises [ValueError], a [KeyError] or [ZeroDivisionError] having shown
    nothing; it returns [None] having shown exactly the warning of the
    missing base year; or it returns a table having shown nothing.  It
    never warns and returns a table, and never returns [None] silently. *)
Theorem get_inflation_factors_outcomes ipc_data base_year :
  match get_inflation_factors ipc_data base_year with
  | Run c (Raised e) =>
      c = [] ∧ (e = ValueError ∨ e = ZeroDivisionError ∨ ∃ k, e = KeyError (IntKey k))
  | Run c (Returned None) => c = [st_warning (BaseYearNotFound base_year)]
  | Run c (Returned (Some factors)) => c = [] ∧ factors ≠ ∅
  end.
Proof.
  destruct (get_inflation_factors ipc_data base_year) as [c r] eqn:Hget.
  apply get_inflation_factors_inv in Hget.
  destruct (build_ipc_index ipc_data) as [e|ipc_index] eqn:Hidx.
  - destruct Hget as [-> ->]. split; [done|].
    destruct (decide (ipc_data = ∅)) as [->|Hne].
    + rewrite build_ipc_index_empty in Hidx. injection Hidx as <-. by left.
    + destruct (build_ipc_index_Raised _ _ Hne Hidx) as (y & _ & _ & _ & ->).
      right. right. by eexists.
  - destruct (ipc_index !! base_year) as [base_ipc|] eqn:Hbase.
    + destruct (Qeq_bool base_ipc 0).
      * by destruct Hget as [-> ->].
      * destruct Hget as [-> [[_ ->]|[_ ->]]].
        -- split; [done|]. intros E%fmap_empty_inv. by rewrite E in Hbase.
        -- split; [done|]. right. by left.
    + by destruct Hget as [-> ->].
Qed.

(** X5: a zero index value away from the base year is divided by: when the
    index is computed and holds a non-zero value at the base year and zero
    at some other year, the function raises [ZeroDivisionError]. *)
Theorem zero_index_raises ipc_data base_year ipc_index base_ipc y index_val :
  build_ipc_index ipc_data = Returned ipc_index →
  ipc_index !! base_year = Some base_ipc → ¬ (base_ipc == 0)%Q →
  ipc_index !! y = Some index_val → (index_val == 0)%Q →
  get_inflation_factors ipc_data base_year = Run [] (Raised ZeroDivisionError).
Proof.
  intros Hidx Hbase Hnz Hy Hz.
  destruct (get_inflation_factors ipc_data base_year) as [c r] eqn:Hget.
  apply get_inflation_factors_inv in Hget. rewrite Hidx, Hbase in Hget.
  destruct (Qeq_bool base_ipc 0) eqn:E; [by apply Qeq_bool_eq in E|].
  destruct Hget as [-> [[Hall _]|[_ ->]]]; [|done].
  by destruct (Hall _ _ Hy).
Qed.

Lemma zero_index_raises_witness :
  build_ipc_index late_collapse_rates = Returned late_collapse_index ∧
  get_inflation_factors late_collapse_rates 2010 = Run [] (Raised ZeroDivisionError).
Proof.
  assert (build_ipc_index late_collapse_rates = Returned late_collapse_index) as Hidx.
  { vm_compute. reflexivity. }
  split; [exact Hidx|].
  apply (zero_index_raises late_collapse_rates 2010 late_collapse_index
           (100 * (1 + 3.17 / 100))%Q 2011 (100 * (1 + 3.17 / 100) * (1 + -100 / 100))%Q).
  - exact Hidx.
  - reflexivity.
  - intros H. vm_compute in H. discriminate.
  - reflexivity.
  - vm_compute. reflexivity.
Defined.

End InflationMore.

(** *** [get_base_data]: what enters the table, what leaves the function *)

Module AcquirerMore.
Import Pandas AcquirerFacts.

Lemma mapM_Raised {A B} (f : A → outcome B) l e :
  (∀ a e', f a = Raised e' → e' = e) →
  Exists (λ a, ∃ e', f a = Raised e') l →
  mapM f l = Raised e.
Proof.
  intros Hsame. induction l as [|a l IH]; intros Hex; [by inv Hex|].
  change (mapM f (a :: l)) with (y ← f a; k ← mapM f l; mret (y :: k)).
  destruct (f a) as [e'|b] eqn:Ha; simpl.
  - by rewrite (Hsame _ _ Ha).
  - rewrite IH; [done|]. inv Hex; [|done]. destruct H0 as [e' He']. congruence.
Qed.

Lemma length_filter_fmap {A B} (g : A → B) (P : B → Prop) `{!∀ b, Decision (P b)}
    (l : list A) :
  length (filter P (g <$> l)) = length (filter (P ∘ g) l).
Proof.
  induction l as [|a l IH]; [done|].
  rewrite fmap_cons, !filter_cons. unfold compose at 1.
  destruct (decide (P (g a))); simpl; by rewrite IH.
Qed.

Lemma elem_of_columns (l : list (gmap string string)) col :
  col ∈ ⋃ ((λ r : gmap string string, dom r) <$> l) ↔ ∃ rec, rec ∈ l ∧ is_Some (rec !! col).
Proof.
  rewrite elem_of_union_list. split.
  - intros (X & HX & Hcol). apply list_elem_of_fmap in HX as (rec & -> & Hrec).
    exists rec. split; [done|]. by apply elem_of_dom.
  - intros (rec & Hrec & Hcol). exists (dom rec). split.
    + apply list_elem_of_fmap. by exists rec.
    + by apply elem_of_dom.
Qed.

Lemma getitem_in df col :
  col ∈ columns df → getitem df col = Returned ((λ r, cell_at r col) <$> rows df).
Proof. intros H. unfold getitem. by rewrite bool_decide_true. Qed.

Lemma getitem_notin df col :
  col ∉ columns df → getitem df col = Raised (KeyError (StrKey col)).
Proof. intros H. unfold getitem. by rewrite bool_decide_false. Qed.

Section get_base_data.
Variable to_float : string → npfloat.

(** The cells of a record once both columns are coerced. *)
Lemma coerced_record_notna (rec : gmap string string) :
  let r := <["valorpagado" := to_numeric to_float
               (cell_at (<["vigencia" := to_numeric to_float (cell_at (Str <$> rec) "vigencia")]>
                           (Str <$> rec)) "valorpagado")]>
             (<["vigencia" := to_numeric to_float (cell_at (Str <$> rec) "vigencia")]>
                (Str <$> rec)) in
  Forall (λ col, isna (cell_at r col) = false) ["vigencia"; "valorpagado"]
  ↔ valid_record to_float rec.
Proof.
  simpl. rewrite !Forall_cons, Forall_nil.
  rewrite cell_at_insert.
  rewrite (cell_at_insert_ne _ "valorpagado" "vigencia") by done.
  rewrite cell_at_insert.
  rewrite (cell_at_insert_ne _ "vigencia" "valorpagado") by done.
  rewrite !cell_at_record. unfold valid_record, numeric.
  destruct (rec !! "vigencia") as [year|]; simpl;
    destruct (rec !! "valorpagado") as [amount|]; simpl;
    try destruct (to_float year); try destruct (to_float amount); simpl;
    intuition congruence.
Qed.

(** X6: the table that [get_base_data] of [app.py] returns without an
    error has exactly as many rows as the source sent valid records, and
    each row holds an integer year and the amount its record denotes. *)
Theorem app_table_is_valid_records status l df :
  App.fetch to_float (Reply status (Some (Records l))) = Returned df →
  App.get_base_data to_float (Reply status (Some (Records l))) = Run [] (Returned df) ∧
  length (rows df) = length (filter (valid_record to_float) l) ∧
  ∀ r, r ∈ rows df →
    ∃ rec year amount z,
      rec ∈ l ∧ valid_record to_float rec ∧
      rec !! "vigencia" = Some year ∧ rec !! "valorpagado" = Some amount ∧
      cell_at r "vigencia" = IntCell z ∧
      cell_at r "valorpagado" = Num (to_float amount).
Proof.
  intros Hfetch. split; [|split].
  - destruct (app_get_base_data_cases to_float (Reply status (Some (Records l))))
      as [(df' & Hf & ->)|(e & Hf & _)]; congruence.
  - revert Hfetch. unfold App.fetch. intros H.
    apply bind_Returned in H as ([status' content] & Hresp & H).
    apply bind_Returned in H as (_ & _ & H).
    apply bind_Returned in H as (data & Hdata & H).
    apply bind_Returned in H as (df0 & Hdf0 & H).
    apply bind_Returned in H as (vigencia & ->%getitem_Returned & H). cbv zeta in H.
    apply bind_Returned in H as (valorpagado & ->%getitem_Returned & H). cbv zeta in H.
    apply bind_Returned in H as (vigencia & ->%getitem_Returned & H).
    apply bind_Returned in H as (ints & Hints & H).
    injection H as <-. simpl in Hresp. injection Hresp as <- <-.
    injection Hdata as <-. injection Hdf0 as <-.
    apply mapM_Returned, Forall2_length in Hints. rewrite length_fmap in Hints.
    unfold setitem at 1. cbn [rows]. rewrite length_zip_with, <- Hints, Nat.min_id.
    unfold dropna. cbn [rows]. rewrite !setitem_map. cbn [rows].
    rewrite <- !list_fmap_compose, length_filter_fmap.
    f_equal. apply list_filter_iff. intros rec. unfold compose.
    apply coerced_record_notna.
  - intros r Hr.
    destruct (app_fetch_rows to_float _ df r Hfetch Hr)
      as (status' & l' & rec & year & amount & z & [= _ <-] & Hrec & Hy & Hyn & Ha & Han & Hcy & Hca).
    exists rec, year, amount, z. split; [done|]. split.
    + unfold valid_record. rewrite Hy, Ha. simpl.
      split; [by destruct (to_float year) | by destruct (to_float amount)].
    + done.
Qed.

(** X7: [get_base_data] of [app.py] raises nothing: it returns a frame
    having shown nothing, or the empty frame having shown one error, and the
    latter exactly when its [try] block raised. *)
Theorem app_get_base_data_never_raises w :
  ∃ df,
    result (App.get_base_data to_float w) = Returned df ∧
    ((calls (App.get_base_data to_float w) = [] ∧ App.fetch to_float w = Returned df) ∨
     (∃ e, calls (App.get_base_data to_float w) = [st_error (LoadFailed e)] ∧
           App.fetch to_float w = Raised e ∧ df = empty_frame)).
Proof.
  destruct (app_get_base_data_cases to_float w) as [(df & Hf & ->)|(e & Hf & ->)].
  - exists df. split; [done|]. by left.
  - exists empty_frame. split; [done|]. right. by exists e.
Qed.

(** X8: one record with an infinite year empties the table of [app.py]:
    the row passes [dropna], the conversion of the year column to integers
    raises, and the function shows an error and returns the empty frame,
    whatever the other records. *)
Theorem app_infinite_year_empties_table status l rec year :
  rec ∈ l → rec !! "vigencia" = Some year →
  to_float year = PosInf ∨ to_float year = NegInf →
  numeric to_float (rec !! "valorpagado") →
  App.get_base_data to_float (Reply status (Some (Records l)))
  = Run [st_error (LoadFailed (if bool_decide (400 ≤ status < 600)
                               then HTTPError status else ValueError))]
        (Returned empty_frame).
Proof.
  intros Hrec Hyear Hinf Hamount.
  unfold App.get_base_data, try_except, lift. cbn [result calls].
  assert (App.fetch to_float (Reply status (Some (Records l)))
          = Raised (if bool_decide (400 ≤ status < 600)
                    then HTTPError status else ValueError)) as ->; [|reflexivity].
  unfold App.fetch. cbn [requests_get mbind outcome_bind].
  unfold raise_for_status. cbn [fst]. case_bool_decide; [done|].
  cbn [mbind outcome_bind response_json snd pd_DataFrame].
  set (df0 := {| columns := _; rows := _ |}).
  assert ("vigencia" ∈ columns df0) as Hcv.
  { apply elem_of_columns. exists rec. split; [done|]. by eexists. }
  assert ("valorpagado" ∈ columns df0) as Hca.
  { apply elem_of_columns. exists rec. split; [done|].
    destruct (rec !! "valorpagado"); [by eexists | done]. }
  rewrite (getitem_in df0 "vigencia") by done. cbn [mbind outcome_bind].
  rewrite getitem_in by (apply elem_of_union; by right). cbn [mbind outcome_bind].
  rewrite getitem_in.
  2:{ cbn [dropna columns setitem]. apply elem_of_union. right.
      apply elem_of_union. by left. }
  cbn [mbind outcome_bind].
  rewrite (mapM_Raised astype_int _ ValueError); [done| |].
  - intros a e'. by destruct a as [|[| | |]| |]; simpl; intros [=].
  - apply Exists_exists.
    unfold dropna. cbn [rows]. rewrite !setitem_map. cbn [rows].
    rewrite <- !list_fmap_compose.
    set (g := _ ∘ _).
    exists (cell_at (g (Str <$> rec)) "vigencia"). split.
    + apply list_elem_of_fmap. exists (g (Str <$> rec)). split; [done|].
      apply list_elem_of_filter. split.
      * unfold g, compose. apply coerced_record_notna. split; [|done].
        rewrite Hyear. simpl. by destruct Hinf as [-> | ->].
      * apply list_elem_of_fmap. exists (Str <$> rec). split; [done|].
        unfold df0. cbn [rows]. apply list_elem_of_fmap. by exists rec.
    + unfold g, compose.
      rewrite (cell_at_insert_ne _ "valorpagado" "vigencia") by done.
      rewrite cell_at_insert, cell_at_record, Hyear. simpl.
      destruct Hinf as [-> | ->]; by eexists.
Qed.

(** X9: [get_base_data] of [inversiones.py] lets an exception out exactly
    when the source answers, with a status that is no error, a JSON
    document that is not a table with a year and an amount column: a single
    object ([ValueError], or [KeyError] of the year column when the object
    has no field), or records none of which has a year, or none of which
    has an amount ([KeyError] of the column). *)
Theorem inversiones_raises_iff w e :
  result (Inversiones.get_base_data to_float w) = Raised e ↔
  ∃ status j,
    w = Reply status (Some j) ∧ ¬ (400 ≤ status < 600) ∧
    match j with
    | ScalarObject o =>
        (o ≠ ∅ ∧ e = ValueError) ∨ (o = ∅ ∧ e = KeyError (StrKey "vigencia"))
    | Records l =>
        (e = KeyError (StrKey "vigencia") ∧ ∀ rec, rec ∈ l → rec !! "vigencia" = None) ∨
        (e = KeyError (StrKey "valorpagado") ∧
         (∃ rec, rec ∈ l ∧ is_Some (rec !! "vigencia")) ∧
         ∀ rec, rec ∈ l → rec !! "valorpagado" = None)
    end.
Proof.
  assert (∀ (l : list (gmap string string)) col,
            col ∉ ⋃ ((λ r : gmap string string, dom r) <$> l)
            ↔ ∀ rec, rec ∈ l → rec !! col = None) as Hnot.
  { intros l col. rewrite elem_of_columns. split.
    - intros Hn rec Hrec. destruct (rec !! col) eqn:E; [|done].
      destruct Hn. exists rec. split; [done|]. by eexists.
    - intros Hn (rec & Hrec & [v Hv]). by rewrite (Hn rec Hrec) in Hv. }
  unfold Inversiones.get_base_data, try_except, lift, Inversiones.fetch.
  destruct w as [[|]|status [[l|o]|]]; cbn [result requests_get mbind outcome_bind].
  - simpl. split; [done|]. by intros (? & ? & ? & _).
  - simpl. split; [done|]. by intros (? & ? & ? & _).
  - unfold raise_for_status. cbn [fst]. case_bool_decide as Hs; cbn [mbind outcome_bind].
    { simpl. split; [done|]. intros (? & ? & [= <- <-] & Hn & _). by destruct Hn. }
    cbn [response_json snd pd_DataFrame mbind outcome_bind].
    set (df0 := {| columns := _; rows := _ |}).
    destruct (decide ("vigencia" ∈ columns df0)) as [Hv|Hv].
    + rewrite (getitem_in df0 "vigencia") by done. cbn [mbind outcome_bind].
      set (df1 := setitem df0 _ _).
      destruct (decide ("valorpagado" ∈ columns df1)) as [Ha|Ha].
      * rewrite (getitem_in df1 "valorpagado") by done. simpl. split; [done|].
        intros (? & ? & [= <- <-] & _ & [[_ Hn]|[_ [_ Hn]]]).
        -- apply Hnot in Hn. by destruct Hn.
        -- apply Hnot in Hn. destruct Hn.
           apply elem_of_union in Ha as [Ha|Ha]; [|done].
           by apply elem_of_singleton in Ha.
      * rewrite (getitem_notin df1 "valorpagado") by done. simpl. split.
        -- intros [= <-]. exists status, (Records l). split; [done|]. split; [done|].
           right. split; [done|]. split; [by apply elem_of_columns|].
           apply Hnot. intros Hin. apply Ha, elem_of_union. by right.
        -- intros (? & ? & [= <- <-] & _ & [[_ Hn]|[-> _]]); [|done].
           apply Hnot in Hn. by destruct Hn.
    + rewrite (getitem_notin df0 "vigencia") by done. simpl. split.
      * intros [= <-]. exists status, (Records l). split; [done|]. split; [done|].
        left. split; [done|]. by apply Hnot.
      * intros (? & ? & [= <- <-] & _ & [[-> _]|[_ [Hex _]]]); [done|].
        apply elem_of_columns in Hex. by destruct Hv.
  - unfold raise_for_status. cbn [fst]. case_bool_decide as Hs; cbn [mbind outcome_bind].
    { simpl. split; [done|]. intros (? & ? & [= <- <-] & Hn & _). by destruct Hn. }
    cbn [response_json snd pd_DataFrame mbind outcome_bind].
    destruct (decide (o = ∅)) as [Ho|Ho]; simpl.
    + split.
      * intros [= <-]. exists status, (ScalarObject o). split; [done|]. split; [done|].
        by right.
      * by intros (? & ? & [= <- <-] & _ & [[Hne _]|[_ ->]]).
    + split.
      * intros [= <-]. exists status, (ScalarObject o). split; [done|]. split; [done|].
        by left.
      * by intros (? & ? & [= <- <-] & _ & [[_ ->]|[Hne _]]).
  - unfold raise_for_status. cbn [fst]. case_bool_decide as Hs; cbn [mbind outcome_bind].
    + simpl. split; [done|]. by intros (? & ? & ? & _).
    + simpl. split; [done|]. by intros (? & ? & ? & _).
Qed.

(** X10: what [requests] raises, [get_base_data] of [inversiones.py]
    handles: a failed transport and a body that is no JSON are shown as a
    connection error, an error status as a failure of the API, and the
    empty frame is returned. *)
Theorem inversiones_handles_requests w :
  match w with
  | NoReply t =>
      Inversiones.get_base_data to_float w
      = Run [st_error (ConnectionFailed
                         (match t with TimedOut => Timeout | ConnectionLost => ConnectionError end))]
            (Returned empty_frame)
  | Reply status content =>
      (400 ≤ status < 600 →
       Inversiones.get_base_data to_float w
       = Run [st_error (ApiContactFailed (HTTPError status))] (Returned empty_frame)) ∧
      (¬ (400 ≤ status < 600) → content = None →
       Inversiones.get_base_data to_float w
       = Run [st_error (ConnectionFailed JSONDecodeError)] (Returned empty_frame))
  end.
Proof.
  unfold Inversiones.get_base_data, try_except, lift, Inversiones.fetch.
  destruct w as [[|]|status content]; [reflexivity..|].
  cbn [result requests_get mbind outcome_bind]. unfold raise_for_status. cbn [fst].
  split.
  - intros Hs. rewrite bool_decide_true by done. reflexivity.
  - intros Hs ->. rewrite bool_decide_false by done. reflexivity.
Qed.

End get_base_data.

Lemma app_infinite_year_empties_table_witness :
  App.get_base_data sample_to_float answer_infinite_year
  = Run [st_error (LoadFailed ValueError)] (Returned empty_frame).
Proof.
  apply (app_infinite_year_empties_table sample_to_float 200 _
           (<["valorpagado" := "100"]> {["vigencia" := "inf"]}) "inf").
  - right. left.
  - reflexivity.
  - by left.
  - by vm_compute.
Defined.

Lemma inversiones_raises_iff_witness :
  result (Inversiones.get_base_data sample_to_float answer_no_records)
  = Raised (KeyError (StrKey "vigencia")).
Proof.
  apply (inversiones_raises_iff sample_to_float).
  exists 200, (Records []). split; [reflexivity|]. split; [lia|].
  left. split; [reflexivity|]. intros rec Hrec. by apply elem_of_nil in Hrec.
Defined.

Lemma inversiones_handles_requests_witness :
  Inversiones.get_base_data sample_to_float (Reply 503 None)
  = Run [st_error (ApiContactFailed (HTTPError 503))] (Returned empty_frame).
Proof.
  apply (proj1 (inversiones_handles_requests sample_to_float (Reply 503 None))). lia.
Defined.

Lemma app_table_is_valid_records_witness :
  ∃ df,
    App.fetch sample_to_float answer_two_records = Returned df ∧
    length (rows df) = length (filter (valid_record sample_to_float) two_records).
Proof.
  destruct (App.fetch sample_to_float answer_two_records) as [e|df] eqn:Hfetch.
  { vm_compute in Hfetch. discriminate. }
  exists df. split; [reflexivity|].
  exact (proj1 (proj2 (app_table_is_valid_records sample_to_float 200 two_records df Hfetch))).
Defined.

End AcquirerMore.
(** *** The filter cascade: further laws *)

Module PipelineMore.
Import App PipelineFacts.

(** X11: the cascade only removes rows: what it returns is a sublist of
    the base table, and applying the same filter state to its result
    changes nothing. *)
Theorem cascade_sublist_idempotent fs (df_base : list row) :
  cascade fs df_base `sublist_of` df_base ∧
  cascade fs (cascade fs df_base) = cascade fs df_base.
Proof.
  rewrite !cascade_filter. split; [apply sublist_filter|].
  rewrite list_filter_filter. apply list_filter_iff. tauto.
Qed.

End PipelineMore.
(** *** Default periods and grouped aggregates *)

Module AggregateFacts.
Import App PipelineFacts.

(** X15: for a range of years in order, the default periods of the
    comparison are ranges in order that lie within the selected range;
    period 1 starts at the first year and period 2 ends at the last. *)
Theorem default_periods_valid (min_year max_year : Z) :
  min_year ≤ max_year →
  let '(p1, p2) := default_periods (min_year, max_year) in
  p1.1 = min_year ∧ p2.2 = max_year ∧
  min_year ≤ p1.1 ≤ p1.2 ∧ p1.2 ≤ max_year ∧
  min_year ≤ p2.1 ≤ p2.2 ∧ p2.2 ≤ max_year ∧
  (min_year < max_year → p1.2 = min_year + 1 ∧ p2.1 = max_year - 1) ∧
  (min_year = max_year → p1 = (min_year, min_year) ∧ p2 = (min_year, min_year)).
Proof.
  intros Hle. unfold default_periods, default_p1_end, default_p2_start. simpl.
  destruct (Z.leb_spec (min_year + 1) max_year), (Z.geb_spec (max_year - 1) min_year);
    repeat split; try lia; intros; try lia; f_equal; lia.
Qed.

Lemma default_periods_valid_witness :
  2010 ≤ 2025 ∧
  let '(p1, p2) := default_periods (2010, 2025) in
  p1.1 = 2010 ∧ p2.2 = 2025 ∧
  2010 ≤ p1.1 ≤ p1.2 ∧ p1.2 ≤ 2025 ∧
  2010 ≤ p2.1 ≤ p2.2 ∧ p2.2 ≤ 2025 ∧
  (2010 < 2025 → p1.2 = 2010 + 1 ∧ p2.1 = 2025 - 1) ∧
  (2010 = 2025 → p1 = (2010, 2010) ∧ p2 = (2010, 2010)).
Proof.
  assert (2010 ≤ 2025) as H by lia.
  exact (conj H (default_periods_valid 2010 2025 H)).
Defined.

Lemma elem_of_years_present (df : list row) year :
  year ∈ years_present df ↔ ∃ r, r ∈ df ∧ vigencia r = year.
Proof.
  unfold years_present. rewrite merge_sort_Permutation, elem_of_remove_dups.
  rewrite list_elem_of_fmap. split.
  - intros (r & -> & Hr). by exists r.
  - intros (r & Hr & <-). by exists r.
Qed.

(** X16: the per-year chart has the right bars: for every frame and amount
    column, the yearly sums are listed by strictly ascending year, there is
    one for each year that some row has and for no other, and each is the
    sum over the rows of its year. *)
Theorem sum_by_year_groups (values : row → Q) (df : list row) :
  StronglySorted Z.lt (sum_by_year values df).*1 ∧
  (∀ year, year ∈ (sum_by_year values df).*1 ↔ ∃ r, r ∈ df ∧ vigencia r = year) ∧
  (∀ year total, (year, total) ∈ sum_by_year values df →
     total = Qsum (values <$> filter (λ r, vigencia r = year) df)).
Proof.
  assert ((sum_by_year values df).*1 = years_present df) as Hkeys.
  { unfold sum_by_year. induction (years_present df) as [|y l IH]; [done|].
    rewrite !fmap_cons. simpl. by rewrite IH. }
  split; [|split].
  - rewrite Hkeys. apply InflationFacts.StronglySorted_le_lt.
    + unfold years_present. rewrite merge_sort_Permutation. apply NoDup_remove_dups.
    + apply StronglySorted_merge_sort; apply _.
  - intros year. rewrite Hkeys. apply elem_of_years_present.
  - intros year total. unfold sum_by_year. rewrite list_elem_of_fmap.
    by intros (y & [= -> ->] & _).
Qed.

Lemma nunique_le_length cells : (nunique cells ≤ length cells)%nat.
Proof.
  unfold nunique.
  transitivity (length (omap id cells)).
  - apply submseteq_length, NoDup_submseteq; [apply NoDup_remove_dups|].
    intros x. by rewrite elem_of_remove_dups.
  - induction cells as [|[c|] cells IH]; csimpl; lia.
Qed.

Lemma nunique_mono (l k : list (option string)) :
  (∀ x, x ∈ l → x ∈ k) → (nunique l ≤ nunique k)%nat.
Proof.
  intros Hsub. unfold nunique.
  apply submseteq_length, NoDup_submseteq; [apply NoDup_remove_dups|].
  intros x. rewrite !elem_of_remove_dups, !list_elem_of_omap.
  intros (c & Hc & Hx). exists c. split; [by apply Hsub | done].
Qed.

(** X17: the number of projects shown is at most the number of filtered
    rows, and it can only grow when the selections widen: under the
    conditions of filter monotonicity, fewer or as many distinct project
    names are counted under A as under B. *)
Theorem num_proyectos_monotone df_base A B :
  selected_vigencia_range A = selected_vigencia_range B →
  widens (selected_departamentos A) (selected_departamentos B) →
  widens (selected_municipios A) (selected_municipios B) →
  widens (selected_fuentes A) (selected_fuentes B) →
  (num_proyectos (cascade A df_base) ≤ length (cascade A df_base))%nat ∧
  (num_proyectos (cascade A df_base) ≤ num_proyectos (cascade B df_base))%nat.
Proof.
  intros Hrange Hd Hm Hf. unfold num_proyectos. split.
  - etransitivity; [apply nunique_le_length|]. by rewrite length_fmap.
  - apply nunique_mono. intros x (r & -> & Hr)%list_elem_of_fmap.
    apply list_elem_of_fmap. exists r. split; [done|].
    rewrite cascade_filter in Hr |- *.
    apply list_elem_of_filter in Hr as [(Hy & H1 & H2 & H3) Hr].
    apply list_elem_of_filter. split; [|done]. unfold keeps. rewrite <- Hrange.
    split; [exact Hy|]. split; [exact (passes_widens _ _ _ Hd H1)|].
    split; [exact (passes_widens _ _ _ Hm H2) | exact (passes_widens _ _ _ Hf H3)].
Qed.

Lemma num_proyectos_monotone_witness :
  widens ["Antioquia"] ["Antioquia"; "Cauca"] ∧
  (num_proyectos (cascade (state_of ["Antioquia"]) two_regions)
   ≤ num_proyectos (cascade (state_of ["Antioquia"; "Cauca"]) two_regions))%nat.
Proof.
  assert (widens ["Antioquia"] ["Antioquia"; "Cauca"]) as Hw.
  { right. split; [done|]. intros s Hs. apply elem_of_cons. left.
    by apply list_elem_of_singleton in Hs. }
  split; [exact Hw|].
  apply (num_proyectos_monotone two_regions (state_of ["Antioquia"])
           (state_of ["Antioquia"; "Cauca"]));
    [reflexivity | exact Hw | by left | by left].
Defined.

(** Sorting by descending value. *)
Lemma insert_descending_Permutation {K} (x : K * Q) l : insert_descending x l ≡ₚ x :: l.
Proof.
  induction l as [|y l IH]; simpl; [done|].
  case_bool_decide; [|done]. rewrite IH. apply Permutation_swap.
Qed.

Lemma sort_descending_Permutation {K} (l : list (K * Q)) : sort_descending l ≡ₚ l.
Proof.
  induction l as [|x l IH]; simpl; [done|].
  by rewrite insert_descending_Permutation, IH.
Qed.

Lemma insert_descending_sorted {K} (x : K * Q) l :
  StronglySorted (λ a b, value_le b a) l →
  StronglySorted (λ a b, value_le b a) (insert_descending x l).
Proof.
  induction 1 as [|y l Hl IH Hy]; simpl; [repeat constructor|].
  case_bool_decide as Hlt.
  - constructor; [done|]. rewrite insert_descending_Permutation.
    constructor; [|done]. unfold value_le. by apply Qlt_le_weak.
  - constructor; [by constructor|]. apply Qnot_lt_le in Hlt.
    constructor; [done|]. eapply Forall_impl; [exact Hy|].
    intros z Hz. unfold value_le in *. by apply Qle_trans with y.2.
Qed.

Lemma sort_descending_sorted {K} (l : list (K * Q)) :
  StronglySorted (λ a b, value_le b a) (sort_descending l).
Proof.
  induction l as [|x l IH]; simpl; [constructor|]. by apply insert_descending_sorted.
Qed.

(** The groups of a text column. *)
Lemma sum_by_keys key values (df : list row) :
  (sum_by key values df).*1 = merge_sort string_le (remove_dups (omap key df)).
Proof.
  unfold sum_by. induction (merge_sort _ _) as [|k l IH]; [done|].
  rewrite !fmap_cons. simpl. by rewrite IH.
Qed.

Lemma elem_of_sum_by key values (df : list row) k total :
  (k, total) ∈ sum_by key values df ↔
  (∃ r, r ∈ df ∧ key r = Some k) ∧
  total = Qsum (values <$> filter (λ r, key r = Some k) df).
Proof.
  unfold sum_by. rewrite list_elem_of_fmap. split.
  - intros (k' & [= -> ->] & Hk). split; [|done].
    rewrite merge_sort_Permutation, elem_of_remove_dups, list_elem_of_omap in Hk.
    destruct Hk as (r & Hr & Hkey). by exists r.
  - intros [(r & Hr & Hkey) ->]. exists k. split; [done|].
    rewrite merge_sort_Permutation, elem_of_remove_dups, list_elem_of_omap.
    by exists r.
Qed.

(** X18: a top-10 chart shows the right bars.  Whatever way [sort_values]
    orders equal values, the chart has ten bars, or one per group when
    there are fewer groups; each bar is a group of the frame with the sum
    of its rows; no group appears twice; the bars are in ascending order;
    and every group left out sums to no more than any bar shown. *)
Theorem top_10_spec sort_values key values (df : list row) :
  sorts_ascending sort_values →
  let groups := sum_by key values df in
  let top := top_10 sort_values key values df in
  length top = (10 `min` length groups)%nat ∧
  (∀ k total, (k, total) ∈ top →
     (∃ r, r ∈ df ∧ key r = Some k) ∧
     total = Qsum (values <$> filter (λ r, key r = Some k) df)) ∧
  NoDup top.*1 ∧
  StronglySorted value_le top ∧
  (∀ shown left_out, shown ∈ top → left_out ∈ groups → left_out ∉ top →
     (left_out.2 <= shown.2)%Q).
Proof.
  intros Hsort. cbv zeta. unfold top_10.
  set (groups := sum_by key values df).
  destruct (Hsort (nlargest 10 groups)) as [Hperm Hasc].
  assert (NoDup groups.*1) as Hnd.
  { unfold groups. rewrite sum_by_keys, merge_sort_Permutation. apply NoDup_remove_dups. }
  pose proof (sort_descending_Permutation groups) as Hdesc.
  pose proof (sort_descending_sorted groups) as Hsorted.
  rewrite <- (take_drop 10 (sort_descending groups)) in Hdesc, Hsorted.
  fold (nlargest 10 groups) in Hdesc, Hsorted.
  split; [|split; [|split; [|split]]].
  - rewrite Hperm. unfold nlargest. rewrite length_take.
    by rewrite (Permutation_length (sort_descending_Permutation groups)).
  - intros k total Hin. apply (elem_of_sum_by key values df).
    rewrite Hperm in Hin. fold groups. rewrite <- Hdesc. apply elem_of_app. by left.
  - rewrite Hperm. rewrite <- Hdesc, fmap_app in Hnd. by apply NoDup_app in Hnd as [? _].
  - done.
  - intros shown left_out Hs Hl Hn. rewrite Hperm in Hs, Hn.
    rewrite <- Hdesc in Hl. apply elem_of_app in Hl as [Hl|Hl]; [done|].
    apply StronglySorted_app in Hsorted as (Hcross & _ & _).
    exact (Hcross shown left_out Hs Hl).
Qed.

Lemma merge_sort_values_sorts : sorts_ascending merge_sort_values.
Proof.
  intros l. unfold merge_sort_values. split; [apply merge_sort_Permutation|].
  apply StronglySorted_merge_sort.
  - intros a b c. unfold value_le. apply Qle_trans.
  - intros a b. unfold value_le. destruct (Qlt_le_dec b.2 a.2) as [H|H]; [|by left].
    right. by apply Qlt_le_weak.
Defined.

Lemma top_10_spec_witness :
  sorts_ascending merge_sort_values ∧
  length (top_10 merge_sort_values departamento valorpagado two_regions)
  = (10 `min` length (sum_by departamento valorpagado two_regions))%nat.
Proof.
  split; [exact merge_sort_values_sorts|].
  exact (proj1 (top_10_spec merge_sort_values departamento valorpagado two_regions
                  merge_sort_values_sorts)).
Defined.

(** The options of a selector. *)
#[global] Instance string_le_total : Total string_le.
Proof. intros a b. unfold string_le. apply String.leb_total. Qed.

Lemma elem_of_options cells s : s ∈ options cells ↔ Some s ∈ cells.
Proof.
  unfold options. rewrite merge_sort_Permutation, elem_of_remove_dups, list_elem_of_omap.
  split.
  - intros (c & Hc & Hid). simpl in Hid. by subst c.
  - intros Hs. by exists (Some s).
Qed.

Lemma options_sorted_nodup cells : Sorted string_le (options cells) ∧ NoDup (options cells).
Proof.
  unfold options. split.
  - apply Sorted_merge_sort, _.
  - rewrite merge_sort_Permutation. apply NoDup_remove_dups.
Qed.

(** X19: the options offered for the regions are sorted, without
    duplicates, and are exactly the regions that some row of the selected
    range of years has; the options offered for the sub-regions under a
    selection of regions are the sub-regions of the rows of the range that
    have one of the selected regions, hence among those offered when no
    region is selected. *)
Theorem options_offered range selected (df_base : list row) :
  Sorted string_le (deptos_disponibles range df_base) ∧
  NoDup (deptos_disponibles range df_base) ∧
  (∀ s, s ∈ deptos_disponibles range df_base ↔
        ∃ r, r ∈ df_base ∧ range.1 ≤ vigencia r ≤ range.2 ∧ departamento r = Some s) ∧
  (selected ≠ [] →
   ∀ s, s ∈ municipios_disponibles range selected df_base ↔
        ∃ r d, r ∈ df_base ∧ range.1 ≤ vigencia r ≤ range.2 ∧
               departamento r = Some d ∧ d ∈ selected ∧ municipio r = Some s) ∧
  (∀ s, s ∈ municipios_disponibles range selected df_base →
        s ∈ municipios_disponibles range [] df_base).
Proof.
  assert (∀ (col : row → option string) (df : list row) s,
            Some s ∈ col <$> df ↔ ∃ r, r ∈ df ∧ col r = Some s) as Hcol.
  { intros col df s. rewrite list_elem_of_fmap. split.
    - intros (r & Hs & Hr). by exists r.
    - intros (r & Hr & Hs). by exists r. }
  assert (selected ≠ [] →
   ∀ s, s ∈ municipios_disponibles range selected df_base ↔
        ∃ r d, r ∈ df_base ∧ range.1 ≤ vigencia r ≤ range.2 ∧
               departamento r = Some d ∧ d ∈ selected ∧ municipio r = Some s) as Hmun.
  { intros Hne s. unfold municipios_disponibles.
    destruct selected as [|d0 sel]; [done|].
    rewrite elem_of_options, Hcol. split.
    - intros (r & Hr & Hs). apply list_elem_of_filter in Hr as [Hin Hr].
      apply list_elem_of_filter in Hr as [Hy Hr].
      destruct (departamento r) as [d|] eqn:Hd; [|done].
      by exists r, d.
    - intros (r & d & Hr & Hy & Hd & Hsel & Hs). exists r. split; [|done].
      apply list_elem_of_filter. split; [by rewrite Hd|].
      by apply list_elem_of_filter. }
  split; [apply options_sorted_nodup|]. split; [apply options_sorted_nodup|].
  split; [|split; [exact Hmun|]].
  - intros s. unfold deptos_disponibles. rewrite elem_of_options, Hcol.
    unfold between. split.
    + intros (r & [Hy Hr]%list_elem_of_filter & Hs). by exists r.
    + intros (r & Hr & Hy & Hs). exists r. split; [|done]. by apply list_elem_of_filter.
  - intros s. destruct selected as [|d0 sel]; [done|].
    intros (r & d & Hr & Hy & _ & _ & Hs)%Hmun; [|done].
    unfold municipios_disponibles. rewrite elem_of_options, Hcol.
    exists r. split; [|done]. by apply list_elem_of_filter.
Qed.

Lemma filter_iff_elem_of {A} (P1 P2 : A → Prop)
    `{!∀ x, Decision (P1 x), !∀ x, Decision (P2 x)} (l : list A) :
  (∀ x, x ∈ l → P1 x ↔ P2 x) → filter P1 l = filter P2 l.
Proof.
  induction l as [|a l IH]; intros Hiff; [done|].
  rewrite !filter_cons.
  rewrite IH by (intros x Hx; apply Hiff; by right).
  destruct (decide (P1 a)) as [H1|H1], (decide (P2 a)) as [H2|H2]; try done.
  - destruct H2. apply Hiff; [by left | done].
  - destruct H1. apply Hiff; [by left | done].
Qed.

(** X20: selecting every region on offer is not selecting none.  With all
    offered regions selected and nothing else, the cascade keeps the rows of
    the range of years that have a region, and so drops the rows without
    one, whereas with the additional filters cleared it keeps every row of
    the range.  When no region is on offer the two coincide, and no row of
    the range has a region. *)
Theorem select_all_regions fs (df_base : list row) :
  selected_departamentos fs = deptos_disponibles (selected_vigencia_range fs) df_base →
  selected_municipios fs = [] → selected_fuentes fs = [] →
  let in_range := between (selected_vigencia_range fs) df_base in
  cascade (clear_filters fs) df_base = in_range ∧
  (selected_departamentos fs ≠ [] →
   cascade fs df_base = filter (λ r, is_Some (departamento r)) in_range) ∧
  (selected_departamentos fs = [] →
   cascade fs df_base = in_range ∧ ∀ r, r ∈ in_range → departamento r = None).
Proof.
  intros Hall Hm Hf. cbv zeta.
  assert (∀ r s, r ∈ between (selected_vigencia_range fs) df_base →
                 departamento r = Some s → s ∈ selected_departamentos fs) as Hoffer.
  { intros r s Hr Hs. rewrite Hall. unfold deptos_disponibles.
    apply elem_of_options, list_elem_of_fmap. by exists r. }
  split; [reflexivity|]. split.
  - intros Hne. unfold cascade. rewrite Hm, Hf. simpl.
    unfold restrict. destruct (selected_departamentos fs) as [|d sel] eqn:Hsel; [done|].
    apply filter_iff_elem_of. intros r Hr.
    destruct (departamento r) as [s|] eqn:Hs; simpl.
    + split; [by eexists|]. intros _. by apply (Hoffer r).
    + split; [done | by intros [? ?]].
  - intros Hnil. unfold cascade. rewrite Hm, Hf, Hnil. simpl. split; [done|].
    intros r Hr. destruct (departamento r) as [s|] eqn:Hs; [|done].
    pose proof (Hoffer r s Hr Hs) as Hin. rewrite Hnil in Hin.
    by apply elem_of_nil in Hin.
Qed.

Lemma select_all_regions_witness :
  let fs := {| selected_vigencia_range := (2010, 2025);
               selected_departamentos := ["Antioquia"; "Cauca"];
               selected_municipios := [];
               selected_fuentes := [];
               adjust_inflation := false |} in
  cascade (clear_filters fs) two_regions = between (2010, 2025) two_regions ∧
  (selected_departamentos fs ≠ [] →
   cascade fs two_regions =
     filter (λ r, is_Some (departamento r)) (between (2010, 2025) two_regions)) ∧
  (selected_departamentos fs = [] →
   cascade fs two_regions = between (2010, 2025) two_regions ∧
   ∀ r, r ∈ between (2010, 2025) two_regions → departamento r = None).
Proof.
  exact (select_all_regions
           {| selected_vigencia_range := (2010, 2025);
              selected_departamentos := ["Antioquia"; "Cauca"];
              selected_municipios := [];
              selected_fuentes := [];
              adjust_inflation := false |} two_regions
           ltac:(vm_compute; reflexivity) eq_refl eq_refl).
Defined.

Lemma Qabs_div_pos (x u : Q) : (0 < u)%Q → (Qabs (x / u) == Qabs x / u)%Q.
Proof.
  intros Hu. unfold Qdiv. rewrite Qabs_Qmult.
  rewrite (Qabs_pos (/ u)); [reflexivity|].
  apply Qlt_le_weak, Qinv_lt_0_compat, Hu.
Qed.

Lemma Qle_bool_false (x y : Q) : Qle_bool x y = false → (y < x)%Q.
Proof.
  intros H. apply Qnot_le_lt. intros Hle. apply Qle_bool_iff in Hle. congruence.
Qed.

Lemma scaled_bounds (x u : Q) :
  (0 < u)%Q →
  ((u <= Qabs x)%Q → (1 <= Qabs (x / u))%Q) ∧
  (∀ v, (Qabs x < v)%Q → (Qabs (x / u) < v / u)%Q).
Proof.
  intros Hu. split.
  - intros Hle. rewrite (Qabs_div_pos _ _ Hu). apply Qle_shift_div_l; [done|].
    by rewrite Qmult_1_l.
  - intros v Hv. rewrite (Qabs_div_pos _ _ Hu). unfold Qdiv.
    apply Qmult_lt_compat_r; [|done]. by apply Qinv_lt_0_compat.
Qed.

(** X21: [format_number] scales an amount by the largest of the units
    1000, 10^6 and 10^12 that its magnitude reaches, and by nothing below
    1000: once a unit applies the magnitude of the scaled number is at
    least 1, it is below 1000 without a unit and in thousands, and below
    10^6 in millions (there is no unit between 10^6 and 10^12); an amount
    and its opposite get the same unit and opposite scaled numbers. *)
Theorem format_number_scales (num : Q) :
  let shown := format_number num in
  let unit := worth (unit_suffix shown) in
  (unit_suffix shown ≠ Unidades → (unit <= Qabs num)%Q ∧ (1 <= Qabs (scaled shown))%Q) ∧
  (∀ s, s ≠ Unidades → (worth s <= Qabs num)%Q → (worth s <= unit)%Q) ∧
  (unit_suffix shown = Millones → (Qabs (scaled shown) < 1000000)%Q) ∧
  (unit_suffix shown = Miles ∨ unit_suffix shown = Unidades →
   (Qabs (scaled shown) < 1000)%Q) ∧
  unit_suffix (format_number (- num)) = unit_suffix shown ∧
  (scaled (format_number (- num)) == - scaled shown)%Q.
Proof.
  cbv zeta. unfold format_number.
  assert (∀ u, Qle_bool u (Qabs (- num)) = Qle_bool u (Qabs num)) as Hopp.
  { intros u. apply eq_true_iff_eq. rewrite !Qle_bool_iff. by rewrite Qabs_opp. }
  rewrite !Hopp. clear Hopp.
  destruct (Qle_bool 1000000000000 (Qabs num)) eqn:HB.
  { apply Qle_bool_iff in HB. cbn [scaled unit_suffix worth].
    destruct (scaled_bounds num 1000000000000 eq_refl) as (Hone & _).
    split; [by auto|].
    split; [intros [] Hs Hle; first [done | by vm_compute]|].
    split; [done|]. split; [by intros [|]|]. split; [done|].
    unfold Qdiv. ring. }
  apply Qle_bool_false in HB.
  destruct (Qle_bool 1000000 (Qabs num)) eqn:HM.
  { apply Qle_bool_iff in HM. cbn [scaled unit_suffix worth].
    destruct (scaled_bounds num 1000000 eq_refl) as (Hone & Hlt).
    split; [by auto|].
    split.
    { intros [] Hs Hle; first [done | by vm_compute | idtac].
      destruct (Qlt_irrefl (Qabs num)). exact (Qlt_le_trans _ _ _ HB Hle). }
    split; [intros _; eapply Qlt_le_trans; [exact (Hlt _ HB) | by vm_compute]|].
    split; [by intros [|]|]. split; [done|].
    unfold Qdiv. ring. }
  apply Qle_bool_false in HM.
  destruct (Qle_bool 1000 (Qabs num)) eqn:HK.
  { apply Qle_bool_iff in HK. cbn [scaled unit_suffix worth].
    destruct (scaled_bounds num 1000 eq_refl) as (Hone & Hlt).
    split; [by auto|].
    split.
    { intros [] Hs Hle; first [done | by vm_compute | idtac].
      - destruct (Qlt_irrefl (Qabs num)). exact (Qlt_le_trans _ _ _ HB Hle).
      - destruct (Qlt_irrefl (Qabs num)). exact (Qlt_le_trans _ _ _ HM Hle). }
    split; [done|].
    split; [intros _; eapply Qlt_le_trans; [exact (Hlt _ HM) | by vm_compute]|].
    split; [done|].
    unfold Qdiv. ring. }
  apply Qle_bool_false in HK. cbn [scaled unit_suffix worth].
  split; [done|].
  split.
  { intros [] Hs Hle; first [done | idtac].
    - destruct (Qlt_irrefl (Qabs num)). exact (Qlt_le_trans _ _ _ HB Hle).
    - destruct (Qlt_irrefl (Qabs num)). exact (Qlt_le_trans _ _ _ HM Hle).
    - destruct (Qlt_irrefl (Qabs num)). exact (Qlt_le_trans _ _ _ HK Hle). }
  split; [done|]. split; [intros _; exact HK|]. split; reflexivity.
Qed.

End AggregateFacts.

(** *** The cascade and the comparison of [inversiones.py] *)

Module InversionesMore.
Import Pandas Inversiones.


Lemma between_restrict periodo selected col (dff : list row) :
  between periodo (restrict selected col dff) = restrict selected col (between periodo dff).
Proof.
  unfold restrict, between. destruct selected; [done|].
  rewrite !list_filter_filter. apply list_filter_iff. intros r. tauto.
Qed.

Lemma elem_of_between range (df : list row) r :
  r ∈ between range df ↔
  r ∈ df ∧ np_le range.1 (vigencia r) = true ∧ np_le (vigencia r) range.2 = true.
Proof.
  unfold between. rewrite list_elem_of_filter, andb_true_iff. tauto.
Qed.

Lemma between_idemp range (df : list row) :
  between range (between range df) = between range df.
Proof.
  unfold between. rewrite list_filter_filter. apply list_filter_iff. intros r. tauto.
Qed.

Lemma sublist_restrict selected col (dff : list row) :
  restrict selected col dff `sublist_of` dff.
Proof. unfold restrict. destruct selected; [done|]. apply sublist_filter. Qed.

(** X22: the comparison chart of [inversiones.py] disregards the
    sub-region and funding-source selections.  Its total over a period is
    the sum over the rows that pass the year range and the region selection
    only: the rows of the displayed table that fall in the period are among
    them, in the same order, and they are all of them when the two
    selections are empty.  Over the whole sidebar range the total of the
    chart is the total paid that the metrics would show with the two
    selections emptied. *)
Theorem comparison_ignores_municipio_fuente fs (df_base : list row) periodo :
  let widest := bounds (selected_vigencia_range fs) in
  let compared := between periodo (cascade (without_municipio_fuente fs) df_base) in
  period_total fs df_base periodo = np_sum (valorpagado <$> compared) ∧
  between periodo (cascade fs df_base) `sublist_of` compared ∧
  (selected_municipios fs = [] → selected_fuentes fs = [] →
   between periodo (cascade fs df_base) = compared) ∧
  period_total fs df_base widest = total_pagado (without_municipio_fuente fs) df_base.
Proof.
  cbv zeta.
  assert (between (bounds (selected_vigencia_range fs))
            (restrict (selected_departamentos fs) departamento
               (between (bounds (selected_vigencia_range fs)) df_base)) =
          restrict (selected_departamentos fs) departamento
               (between (bounds (selected_vigencia_range fs)) df_base)) as Hwidest.
  { by rewrite between_restrict, between_idemp. }
  split; [reflexivity|]. split; [|split].
  - unfold cascade. rewrite !between_restrict. cbn [without_municipio_fuente
      selected_vigencia_range selected_departamentos selected_municipios selected_fuentes
      restrict].
    etrans; [apply sublist_restrict|]. apply sublist_restrict.
  - intros Hm Hf. unfold cascade. by rewrite Hm, Hf.
  - unfold period_total, total_pagado, cascade. rewrite Hwidest. reflexivity.
Qed.

(** The default periods of the comparison. *)
#[local] Instance Qle_transitive : Transitive Qle.
Proof. intros x y z. apply Qle_trans. Qed.

#[local] Instance not_after_total : Total not_after.
Proof.
  intros x y. unfold not_after.
  destruct x as [a| | |], y as [b| | |]; simpl; auto.
  destruct (Qle_bool a b) eqn:Hab; [by left|]. right.
  apply negb_false_iff, Qle_bool_iff, Qlt_le_weak, Qnot_le_lt.
  intros Hle%Qle_bool_iff. congruence.
Qed.

#[local] Instance Fin_inj : Inj (=) (=) Fin.
Proof. by intros a b [= ->]. Qed.

Lemma between_bounds_finite range (df : list row) r :
  r ∈ between (bounds range) df →
  ∃ v, vigencia r = Fin v ∧ (inject_Z range.1 <= v)%Q ∧ (v <= inject_Z range.2)%Q.
Proof.
  intros (_ & Hlo & Hhi)%elem_of_between. simpl in Hlo, Hhi.
  destruct (vigencia r) as [v| | |]; try done.
  exists v. split; [done|]. by split; apply Qle_bool_iff.
Qed.

Lemma all_finite (l : list npfloat) :
  Forall (λ x, ∃ q, x = Fin q) l → ∃ qs, l = Fin <$> qs.
Proof.
  induction 1 as [|x l [q ->] _ [qs ->]]; [by exists []|]. by exists (q :: qs).
Qed.

Lemma Sorted_finite (qs : list Q) : Sorted not_after (Fin <$> qs) → Sorted Qle qs.
Proof.
  induction qs as [|a qs IH]; [constructor|].
  rewrite fmap_cons. intros [Hs Hd]%Sorted_inv. constructor; [by apply IH|].
  destruct qs as [|b qs]; [constructor|]. rewrite fmap_cons in Hd.
  apply HdRel_inv in Hd. constructor. unfold not_after in Hd. simpl in Hd.
  by apply negb_false_iff, Qle_bool_iff in Hd.
Qed.

Lemma strictly_sorted (qs : list Q) :
  StronglySorted Qle qs → NoDup qs → Forall (λ q, Qred q = q) qs → StronglySorted Qlt qs.
Proof.
  induction 1 as [|a qs Hs IH Hall]; intros Hnd Hred; [constructor|].
  apply NoDup_cons in Hnd as [Ha Hnd]. apply Forall_cons in Hred as [Hra Hred].
  constructor; [by apply IH|].
  apply Forall_forall. intros b Hb.
  rewrite Forall_forall in Hall, Hred.
  destruct (proj1 (Qle_lteq a b) (Hall b Hb)) as [Hlt|Heq]; [done|].
  destruct Ha. apply Qred_complete in Heq. rewrite Hra, (Hred b Hb) in Heq. by subst.
Qed.

Lemma sorted_lookup_lt (qs : list Q) (i j : nat) x y :
  StronglySorted Qlt qs → qs !! i = Some x → qs !! j = Some y → (i < j)%nat → (x < y)%Q.
Proof.
  intros Hs. revert i j. induction Hs as [|a qs Hs IH Hall]; intros i j Hi Hj Hij; [done|].
  destruct j as [|j]; [lia|]. simpl in Hj. destruct i as [|i]; simpl in Hi.
  - inversion Hi; subst. rewrite Forall_forall in Hall. by eapply Hall, list_elem_of_lookup_2.
  - apply (IH i j); [done..|lia].
Qed.

Lemma sorted_lookup_inv (qs : list Q) (i j : nat) x y :
  StronglySorted Qlt qs → qs !! i = Some x → qs !! j = Some y → (x < y)%Q → (i < j)%nat.
Proof.
  intros Hs Hi Hj Hxy. destruct (lt_eq_lt_dec i j) as [[Hlt|Heq]|Hgt]; [done| |].
  - subst. rewrite Hi in Hj. inversion Hj; subst. by apply Qlt_irrefl in Hxy.
  - pose proof (sorted_lookup_lt qs j i y x Hs Hj Hi Hgt) as Hyx.
    destruct (Qlt_irrefl x). by eapply Qlt_trans.
Qed.

Lemma sorted_lookup_le (qs : list Q) (i j : nat) x y :
  StronglySorted Qlt qs → qs !! i = Some x → qs !! j = Some y → (i ≤ j)%nat → (x <= y)%Q.
Proof.
  intros Hs Hi Hj Hij. destruct (decide (i = j)) as [->|Hne].
  - rewrite Hi in Hj. inversion Hj. apply Qle_refl.
  - apply Qlt_le_weak. eapply (sorted_lookup_lt qs i j); [done..|lia].
Qed.

Lemma vigencias_en_rango_spec fs (df_base : list row) :
  ∃ qs : list Q,
    vigencias_en_rango fs df_base = Fin <$> qs ∧
    StronglySorted Qlt qs ∧
    ∀ q, q ∈ qs ↔
         ∃ r v, r ∈ between (bounds (selected_vigencia_range fs)) df_base ∧
                vigencia r = Fin v ∧ q = Qred v.
Proof.
  unfold vigencias_en_rango. cbv zeta.
  set (in_range := between (bounds (selected_vigencia_range fs)) df_base).
  assert (∀ x, x ∈ sorted_unique (vigencia <$> in_range) ↔
               ∃ r v, r ∈ in_range ∧ vigencia r = Fin v ∧ x = Fin (Qred v)) as Helem.
  { intros x. unfold sorted_unique.
    rewrite merge_sort_Permutation, elem_of_remove_dups, list_elem_of_fmap. split.
    - intros (y & -> & [Hy Hin]%list_elem_of_filter).
      apply list_elem_of_fmap in Hin as (r & -> & Hr).
      destruct (between_bounds_finite _ _ _ Hr) as (v & Hv & _).
      exists r, v. by rewrite Hv.
    - intros (r & v & Hr & Hv & ->). exists (Fin v). split; [done|].
      apply list_elem_of_filter. split; [done|]. apply list_elem_of_fmap. by exists r. }
  destruct (all_finite (sorted_unique (vigencia <$> in_range))) as [qs Hqs].
  { apply Forall_forall. intros x (r & v & _ & _ & ->)%Helem. by eexists. }
  exists qs. split; [done|].
  assert (∀ q, q ∈ qs ↔ ∃ r v, r ∈ in_range ∧ vigencia r = Fin v ∧ q = Qred v) as Hq.
  { intros q. rewrite <- (list_elem_of_fmap_inj Fin).
    rewrite <- Hqs, Helem. split.
    - intros (r & v & Hr & Hv & [= ->]). by exists r, v.
    - intros (r & v & Hr & Hv & ->). by exists r, v. }
  split; [|done].
  apply strictly_sorted.
  - apply Sorted_StronglySorted; [apply _|]. apply Sorted_finite. rewrite <- Hqs.
    unfold sorted_unique. apply Sorted_merge_sort, _.
  - apply (NoDup_fmap_1 Fin). rewrite <- Hqs. unfold sorted_unique.
    rewrite merge_sort_Permutation. apply NoDup_remove_dups.
  - apply Forall_forall. intros q (r & v & _ & _ & ->)%Hq. apply Qred_complete, Qred_correct.
Qed.
(** X23: the periods that the two sliders of the comparison start from.
    No slider is shown exactly when the rows of the selected range of years
    are all of one year, or there is none.  Otherwise the first period runs
    from the least year of these rows to the next one and the second from
    the last but one to the greatest: both lie in the selected range, each
    has two different ends, every row of the range falls between the start
    of the first and the end of the second and none strictly inside a
    period, and the first period ends before the second starts exactly when
    the rows have four different years or more. *)
Theorem default_periodos_spec fs (df_base : list row) :
  let in_range := between (bounds (selected_vigencia_range fs)) df_base in
  let lo := inject_Z (selected_vigencia_range fs).1 in
  let hi := inject_Z (selected_vigencia_range fs).2 in
  match default_periodos (vigencias_en_rango fs df_base) with
  | None =>
      ∀ r r' v v', r ∈ in_range → r' ∈ in_range →
                   vigencia r = Fin v → vigencia r' = Fin v' → (v == v')%Q
  | Some ((a, b), (c, d)) =>
      ∃ qa qb qc qd : Q,
        (a, b, c, d) = (Fin qa, Fin qb, Fin qc, Fin qd) ∧
        ((lo <= qa)%Q ∧ (qa < qb)%Q ∧ (qa <= qc)%Q ∧ (qb <= qd)%Q ∧ (qc < qd)%Q ∧
         (qd <= hi)%Q) ∧
        (∀ q, q ∈ [qa; qb; qc; qd] →
              ∃ r v, r ∈ in_range ∧ vigencia r = Fin v ∧ (v == q)%Q) ∧
        (∀ r, r ∈ in_range →
              ∃ v, vigencia r = Fin v ∧ (qa <= v)%Q ∧ (v <= qd)%Q ∧
                   ¬ ((qa < v)%Q ∧ (v < qb)%Q) ∧ ¬ ((qc < v)%Q ∧ (v < qd)%Q)) ∧
        ((qb < qc)%Q ↔ (4 ≤ length (vigencias_en_rango fs df_base))%nat)
  end.
Proof.
  cbv zeta. destruct (vigencias_en_rango_spec fs df_base) as (qs & Hvs & Hs & Hq).
  rewrite Hvs. unfold default_periodos. cbv zeta. rewrite length_fmap.
  set (in_range := between (bounds (selected_vigencia_range fs)) df_base) in *.
  assert (∀ r v, r ∈ in_range → vigencia r = Fin v →
                 ∃ i, qs !! i = Some (Qred v)) as Hrow.
  { intros r v Hr Hv. apply list_elem_of_lookup_1, Hq. by exists r, v. }
  destruct (bool_decide (length qs < 2)%nat) eqn:Hlen.
  - apply bool_decide_eq_true in Hlen.
    intros r r' v v' Hr Hr' Hv Hv'.
    destruct (Hrow r v Hr Hv) as [i Hi], (Hrow r' v' Hr' Hv') as [j Hj].
    pose proof (lookup_lt_Some _ _ _ Hi). pose proof (lookup_lt_Some _ _ _ Hj).
    assert (i = j) as -> by lia. rewrite Hi in Hj. inversion Hj as [Heq].
    by rewrite <- (Qred_correct v), <- (Qred_correct v'), Heq.
  - apply bool_decide_eq_false in Hlen. rewrite !list_lookup_fmap.
    destruct (lookup_lt_is_Some_2 qs 0) as [qa Ha]; [lia|].
    destruct (lookup_lt_is_Some_2 qs 1) as [qb Hb]; [lia|].
    destruct (lookup_lt_is_Some_2 qs (length qs - 2)) as [qc Hc]; [lia|].
    destruct (lookup_lt_is_Some_2 qs (length qs - 1)) as [qd Hd]; [lia|].
    rewrite Ha, Hb, Hc, Hd. simpl.
    assert (∀ q i, qs !! i = Some q →
              ∃ r v, r ∈ in_range ∧ vigencia r = Fin v ∧ (v == q)%Q ∧
                     (inject_Z (selected_vigencia_range fs).1 <= q)%Q ∧
                     (q <= inject_Z (selected_vigencia_range fs).2)%Q) as Hyear.
    { intros q i Hi. apply list_elem_of_lookup_2, Hq in Hi as (r & v & Hr & Hv & ->).
      destruct (between_bounds_finite _ _ _ Hr) as (v' & Hv' & Hlo & Hhi).
      rewrite Hv in Hv'. inversion Hv'; subst v'.
      exists r, v. split; [done|]. split; [done|].
      split; [symmetry; apply Qred_correct|]. rewrite Qred_correct. by split. }
    exists qa, qb, qc, qd. split; [done|]. split; [|split; [|split]].
    + split; [destruct (Hyear qa _ Ha) as (r & v & Hr & Hv & Heq & Hlo & Hhi); exact Hlo|].
      split; [apply (sorted_lookup_lt qs 0 1); [done..|lia]|].
      split; [apply (sorted_lookup_le qs 0 (length qs - 2)); [done..|lia]|].
      split; [apply (sorted_lookup_le qs 1 (length qs - 1)); [done..|lia]|].
      split; [apply (sorted_lookup_lt qs (length qs - 2) (length qs - 1)); [done..|lia]|].
      destruct (Hyear qd _ Hd) as (r & v & Hr & Hv & Heq & Hlo & Hhi); exact Hhi.
    + intros q Hin. assert (∃ i, qs !! i = Some q) as [i Hi].
      { repeat (apply elem_of_cons in Hin as [->|Hin]; [by eexists|]).
        by apply elem_of_nil in Hin. }
      destruct (Hyear q i Hi) as (r & v & Hr & Hv & Heq & _). by exists r, v.
    + intros r Hr. destruct (between_bounds_finite _ _ _ Hr) as (v & Hv & _).
      exists v. split; [done|]. destruct (Hrow r v Hr Hv) as [i Hi].
      pose proof (lookup_lt_Some _ _ _ Hi) as Hlt.
      rewrite <- (Qred_correct v).
      split; [apply (sorted_lookup_le qs 0 i); [done..|lia]|].
      split; [apply (sorted_lookup_le qs i (length qs - 1)); [done..|lia]|].
      split.
      * intros [H1 H2].
        apply (sorted_lookup_inv qs 0 i) in H1; [|done..].
        apply (sorted_lookup_inv qs i 1) in H2; [|done..]. lia.
      * intros [H1 H2].
        apply (sorted_lookup_inv qs (length qs - 2) i) in H1; [|done..].
        apply (sorted_lookup_inv qs i (length qs - 1)) in H2; [|done..]. lia.
    + split.
      * intros Hbc. apply (sorted_lookup_inv qs 1 (length qs - 2)) in Hbc; [lia|done..].
      * intros Hfour. apply (sorted_lookup_lt qs 1 (length qs - 2)); [done..|lia].
Qed.







End InversionesMore.
